(** * OceanBestPractices: indexing, scrolling, tagging and keyword search

    A shallow embedding of the term indexer ([indexTerms]), the search-index
    client ([scrollMap], [percolateDocumentFields], [createIndex],
    [putDocumentItem], [getDocument], [indexExists]), the keyword-search
    handler ([handler], [parseParams], [getSynonyms]), the repository client
    ([find], [getItems], [getItem], [getMetadata]) and the graph-query proxy,
    with the properties the specification states about them and further
    properties of the code.

    The remote stores are a parameter: a [server] answers each request from
    the requests and callbacks that came before it.  An operation is a
    function from that history to an [outcome] and the events it adds. *)

From Stdlib Require Import ZArith Lia Ascii String.
From stdpp Require Import gmap strings list pretty.

(** ** JavaScript values *)

(** The JSON-shaped values that travel between the program and the stores,
    with [undefined].  Numbers are the integers the program computes with
    (offsets, sizes, status codes).  An object keeps its keys in insertion
    order; a property read takes the first entry of that name. *)
#[warnings="-register-all"]
Inductive value : Type :=
| VUndefined
| VNull
| VBool (b : bool)
| VNum (n : Z)
| VStr (s : string)
| VArr (items : list value)
| VObj (fields : list (string * value)).

(** [o[k]] on a value that is an object; [undefined] when the key is absent. *)
Fixpoint assoc (k : string) (fields : list (string * value)) : value :=
  match fields with
  | [] => VUndefined
  | (k', v) :: rest => if String.eqb k k' then v else assoc k rest
  end.

(** lodash [get(v, path)]: a read that yields [undefined] instead of raising
    when a step of the path is not an object. *)
Fixpoint get (v : value) (path : list string) : value :=
  match path with
  | [] => v
  | k :: path' =>
      match v with
      | VObj fields => get (assoc k fields) path'
      | _ => VUndefined
      end
  end.

(** JavaScript truthiness, as [if (x)] tests it. *)
Definition truthy (v : value) : bool :=
  match v with
  | VUndefined | VNull => false
  | VBool b => b
  | VNum n => negb (n =? 0)%Z
  | VStr s => negb (String.eqb s "")
  | VArr _ | VObj _ => true
  end.

(** [s.split(sep)] for a one-character separator: ["".split(",")] is [[""]],
    ["a,".split(",")] is [["a"; ""]]. *)
Fixpoint split (sep : ascii) (s : string) : list string :=
  match s with
  | EmptyString => [EmptyString]
  | String c s' =>
      if Ascii.eqb c sep then EmptyString :: split sep s'
      else match split sep s' with
           | [] => [String c EmptyString]
           | w :: ws => String c w :: ws
           end
  end.

(** [xs.join(sep)]. *)
Fixpoint join (sep : string) (xs : list string) : string :=
  match xs with
  | [] => EmptyString
  | [x] => x
  | x :: rest => x +:+ sep +:+ join sep rest
  end.

Definition LF : string := String (Ascii.ascii_of_nat 10) EmptyString.

(** A string is held as the bytes of its UTF-8 encoding.  [s.length] counts
    the UTF-16 code units of the string: one for a character of one, two or
    three bytes, two for a character of four bytes.  Counted at the first
    byte of each character; a continuation byte adds nothing. *)
Definition utf16_units (c : ascii) : nat :=
  let n := nat_of_ascii c in
  if (n <? 128)%nat then 1
  else if (n <? 192)%nat then 0
  else if (n <? 240)%nat then 1
  else 2.

Fixpoint js_length (s : string) : nat :=
  match s with
  | EmptyString => 0
  | String c s' => utf16_units c + js_length s'
  end.

(** ** Requests, replies and errors *)

Inductive method : Set := GET | POST | PUT | DELETE | HEAD.

#[global] Instance method_eq_dec : EqDecision method.
Proof. solve_decision. Defined.

Inductive payload : Type :=
| NoBody
| JsonBody (json : value)             (* got's [json] option *)
| FormBody (query : string)           (* got's [form: { query }] *)
| LinesBody (lines : list value).     (* one JSON.stringify per line, each line ended by a newline *)

Record request : Type := Request {
  rq_method : method;
  rq_base : string;                          (* prefixUrl, endpoint or host *)
  rq_path : string;
  rq_searchParams : list (string * string);
  rq_payload : payload
}.

(** Why no complete response arrived. *)
Inductive failure : Set :=
| ConnectionFailed     (* the request itself errored *)
| StreamFailed         (* the response stream emitted 'error' *)
| BodyNotJSON.         (* the body text does not parse as JSON *)

Inductive reply : Type :=
| Reply (statusCode : Z) (body : value)
| Broken (why : failure).

Inductive message : Type :=
| NeptuneRequestFailed (statusCode : Z) (body : value)
| ESRequestFailed (statusCode : Z) (body : value)
| UnexpectedResponse (statusCode : Z) (body : value)
| ErrorType (type : value).

Inductive error : Type :=
| HTTPError (statusCode : Z) (body : value)   (* got, for a non-2xx status *)
| RequestError (why : failure)                (* got, without a usable response *)
| ZodError (input : value)                    (* a schema's parse refused [input] *)
| Error (msg : message)                       (* new Error(...) *)
| TypeError
| SyntaxError
| Raised (reason : value).                    (* whatever a caller's callback throws *)

(** The body of a Lambda response is a string produced by JSON.stringify; it
    is kept as the value that was serialised. *)
Inductive text : Type :=
| JSON_stringify (v : value)
| JSON_stringify_err (e : error).   (* JSON.stringify({ err: e }) *)

Record response : Type := Response {
  statusCode : Z;
  body : text;
  headers : list (string * string)
}.

Inductive event : Type :=
| Sent (r : request)                               (* a request left the program *)
| Handled (hit : value)                            (* scrollMap's handler was called on a hit *)
| Callback (err : option error) (res : response).  (* the Lambda callback was called *)

Definition history : Type := list event.

(** A store answers a request knowing everything that happened before. *)
Definition server : Type := history → request → reply.

(** ** Operations *)

Inductive outcome (A : Type) : Type :=
| Return (a : A)
| Throw (e : error)      (* an exception or rejection a caller can catch *)
| Uncaught (e : error)   (* raised in an event listener or a floating promise: nothing catches it *)
| OutOfFuel.             (* the loop was cut off: stands for a run that is still going *)
Arguments Return {A} a.
Arguments Throw {A} e.
Arguments Uncaught {A} e.
Arguments OutOfFuel {A}.

(** An operation maps the history so far to its outcome and the events it
    adds, oldest first. *)
Definition io (A : Type) : Type := history → outcome A * list event.

Definition io_ret {A} (a : A) : io A := λ _, (Return a, []).

Definition io_bind {A B} (k : A → io B) (c : io A) : io B := λ h,
  match c h with
  | (Return a, evs) => let '(o, evs') := k a (h ++ evs) in (o, evs ++ evs')
  | (Throw e, evs) => (Throw e, evs)
  | (Uncaught e, evs) => (Uncaught e, evs)
  | (OutOfFuel, evs) => (OutOfFuel, evs)
  end.

#[global] Instance io_mret : MRet io := @io_ret.
#[global] Instance io_mbind : MBind io := @io_bind.

Definition throw {A} (e : error) : io A := λ _, (Throw e, []).
Definition out_of_fuel {A} : io A := λ _, (OutOfFuel, []).
Definition emit (e : event) : io unit := λ _, (Return tt, [e]).

(** [try { c } finally { fin }]. *)
Definition try_finally {A} (c : io A) (fin : io unit) : io A := λ h,
  match c h with
  | (Return a, evs) =>
      match fin (h ++ evs) with
      | (Return _, evs') => (Return a, evs ++ evs')
      | (Throw e, evs') => (Throw e, evs ++ evs')
      | (Uncaught e, evs') => (Uncaught e, evs ++ evs')
      | (OutOfFuel, evs') => (OutOfFuel, evs ++ evs')
      end
  | (Throw e, evs) =>
      match fin (h ++ evs) with
      | (Return _, evs') => (Throw e, evs ++ evs')
      | (Throw e', evs') => (Throw e', evs ++ evs')
      | (Uncaught e', evs') => (Uncaught e', evs ++ evs')
      | (OutOfFuel, evs') => (OutOfFuel, evs ++ evs')
      end
  | (Uncaught e, evs) => (Uncaught e, evs)
  | (OutOfFuel, evs) => (OutOfFuel, evs)
  end.

(** [c.catch(k)], [try { c } catch (e) { k e }]. *)
Definition try_catch {A} (c : io A) (k : error → io A) : io A := λ h,
  match c h with
  | (Throw e, evs) => let '(o, evs') := k e (h ++ evs) in (o, evs ++ evs')
  | r => r
  end.

(** A promise nobody awaits or catches: its rejection is unhandled. *)
Definition floating {A} (c : io A) : io A := λ h,
  match c h with
  | (Throw e, evs) => (Uncaught e, evs)
  | r => r
  end.

Definition is_2xx (status : Z) : bool := (200 <=? status)%Z && (status <=? 299)%Z.

(** got's default retry policy: a request whose method is one of these is
    sent again, twice at most, after a response with one of these statuses or
    after an error of the connection (an aborted response counts as a reset
    connection).  A POST is never sent again.  The delays between the attempts
    and a Retry-After header are left out.
    Modelled from the library's documented defaults; got is a dependency. *)
Definition retried_method (m : method) : bool :=
  match m with
  | GET | PUT | HEAD | DELETE => true
  | POST => false
  end.

Definition retried_statuses : list Z :=
  [408; 413; 429; 500; 502; 503; 504; 521; 522; 524]%Z.

Definition retried (rep : reply) : bool :=
  match rep with
  | Reply status _ => bool_decide (status ∈ retried_statuses)
  | Broken ConnectionFailed | Broken StreamFailed => true
  | Broken BodyNotJSON => false
  end.

Definition retry_limit (r : request) : nat :=
  if retried_method (rq_method r) then 2 else 0.

Section Transport.
Variable srv : server.

(** The request goes out and the store's reply comes back. *)
Definition send (r : request) : io reply := λ h, (Return (srv h r), [Sent r]).

(** The attempts of one call: the reply the call ends on and the requests it
    sent, with [retries] attempts left after the first. *)
Fixpoint attempts (retries : nat) (r : request) (h : history) : reply * list event :=
  let rep := srv h r in
  match retries with
  | O => (rep, [Sent r])
  | S retries' =>
      if retried rep
      then let '(rep', evs) := attempts retries' r (h ++ [Sent r]) in
           (rep', Sent r :: evs)
      else (rep, [Sent r])
  end.

(** One call of got, down to its last response. *)
Definition exchange (r : request) (h : history) : reply * list event :=
  attempts (retry_limit r) r h.

Definition got_request (r : request) : io reply := λ h,
  (Return (exchange r h).1, (exchange r h).2).

(** got with [throwHttpErrors: false] and [resolveBodyOnly: false]: the
    caller sees the status of the last response; only a missing response
    rejects. *)
Definition got_response (r : request) : io (Z * value) :=
  rep ← got_request r;
  match rep with
  | Reply status b => mret (status, b)
  | Broken why => throw (RequestError why)
  end.

(** got with its defaults and [resolveBodyOnly: true], as [gotEs] sets it up:
    a last response with a non-2xx status rejects with an HTTPError.
    Modelled from the library's documented behaviour; got is a dependency. *)
Definition got_body (r : request) : io value :=
  rep ← got_request r;
  match rep with
  | Reply status b => if is_2xx status then mret b else throw (HTTPError status b)
  | Broken why => throw (RequestError why)
  end.

End Transport.

(** ** zod schemas *)

Definition z_string (v : value) : option string :=
  match v with VStr s => Some s | _ => None end.

(** The value under key [k] of an input that must be an object. *)
Definition z_field (k : string) (v : value) : option value :=
  match v with VObj fields => Some (assoc k fields) | _ => None end.

Definition z_array {A} (item : value → option A) (v : value) : option (list A) :=
  match v with VArr items => mapM item items | _ => None end.

(** ** The term indexer *)

(** Source: the third file in src/unnamed/part_002 ([fetchTerms],
    [indexForTerm], [queryForTerm], [bulkIndexTerms], [indexTerms]).  An
    offset is a natural number. *)
Module TermsIndexer.

Record FetchedTerm : Type := { label : string; uri : string }.

Section Indexer.
Variable srv : server.
(** [z.string().url()]: zod's URL test is taken as given. *)
Variable is_url : string → bool.

Definition binding_schema (b : value) : option FetchedTerm :=
  slabel ← z_field "slabel" b;
  l ← z_field "value" slabel ≫= z_string;
  s ← z_field "s" b;
  u ← z_field "value" s ≫= z_string;
  if is_url u then Some {| label := l; uri := u |} else None.

Definition fetchTermsResponseSchema (v : value) : option (list FetchedTerm) :=
  results ← z_field "results" v;
  bindings ← z_field "bindings" results;
  z_array binding_schema bindings.

Definition fetchTerms_request (sparqlUrl sparqlQuery : string) (offset : N) : request :=
  Request POST sparqlUrl ""
    []
    (FormBody (LF +:+ sparqlQuery +:+ LF +:+ "LIMIT 500" +:+ LF +:+ "OFFSET " +:+ pretty offset)).

Definition fetchTerms (sparqlUrl sparqlQuery : string) (offset : N) : io (list FetchedTerm) :=
  '(status, b) ← got_response srv (fetchTerms_request sparqlUrl sparqlQuery offset);
  if negb (status =? 200)%Z then throw (Error (NeptuneRequestFailed status b))
  else match fetchTermsResponseSchema b with
       | None => throw (ZodError b)
       | Some terms => mret terms
       end.

Definition indexForTerm (indexName : string) : value :=
  VObj [("index", VObj [("_index", VStr indexName); ("_type", VStr "_doc")])].

Definition queryForTerm (term : FetchedTerm) (terminologyTitle namedGraphUri : string) : value :=
  VObj [("label", VStr (label term));
        ("suggest", VArr [VStr (label term)]);
        ("query", VObj [("multi_match",
           VObj [("query", VStr (label term));
                 ("type", VStr "phrase");
                 ("fields", VArr [VStr "contents"; VStr "title"])])]);
        ("source_terminology", VStr terminologyTitle);
        ("namedGraphUri", VStr namedGraphUri);
        ("uri", VStr (uri term))].

Definition bulk_lines (terms : list FetchedTerm)
    (indexName terminologyTitle namedGraphUri : string) : list value :=
  concat (map (λ term, [indexForTerm indexName;
                        queryForTerm term terminologyTitle namedGraphUri]) terms).

Definition bulk_request (elasticsearchUrl : string) (terms : list FetchedTerm)
    (indexName terminologyTitle namedGraphUri : string) : request :=
  Request POST elasticsearchUrl "_bulk" []
    (LinesBody (bulk_lines terms indexName terminologyTitle namedGraphUri)).

Definition bulkIndexTerms (elasticsearchUrl : string) (terms : list FetchedTerm)
    (indexName terminologyTitle namedGraphUri : string) : io unit :=
  '(status, b) ← got_response srv
      (bulk_request elasticsearchUrl terms indexName terminologyTitle namedGraphUri);
  if negb (status =? 200)%Z then throw (Error (ESRequestFailed status b))
  else mret tt.

Record CreateTermIndexParams : Type := {
  elasticsearchUrl : string;
  ontologyNameSpace : string;
  namedGraphUri : string;
  indexName : string;
  terminologyTitle : string;
  sparqlUrl : string;
  sparqlQuery : string;
  stopwords : list string
}.

(** [t.label.length > 2 && !stopwords.includes(t.label)]. *)
Definition valid_term (stopwords : list string) (t : FetchedTerm) : Prop :=
  2 < js_length (label t) ∧ label t ∉ stopwords.

#[global] Instance valid_term_dec stopwords t : Decision (valid_term stopwords t).
Proof. unfold valid_term. apply _. Defined.

(** One turn of the [while (true)] loop: [None] is the [break], [Some o] the
    offset the next turn starts from. *)
Definition indexTerms_turn (p : CreateTermIndexParams) (offset : N) : io (option N) :=
  terms ← fetchTerms (sparqlUrl p) (sparqlQuery p) offset;
  if (length terms =? 0)%nat then mret None
  else
    let validTerms := filter (valid_term (stopwords p)) terms in
    _ ← (if (0 <? length validTerms)%nat
         then bulkIndexTerms (elasticsearchUrl p) validTerms
                (indexName p) (terminologyTitle p) (namedGraphUri p)
         else mret tt);
    mret (Some (offset + N.of_nat (length terms))%N).

Fixpoint indexTerms_from (fuel : nat) (p : CreateTermIndexParams) (offset : N) : io unit :=
  match fuel with
  | O => out_of_fuel
  | S fuel' =>
      next ← indexTerms_turn p offset;
      match next with
      | None => mret tt
      | Some offset' => indexTerms_from fuel' p offset'
      end
  end.

Definition indexTerms (fuel : nat) (p : CreateTermIndexParams) : io unit :=
  indexTerms_from fuel p 0%N.

End Indexer.
End TermsIndexer.

(** ** The search-index client *)

(** Source: the second file in src/oop-web/src/js/components/Footer.js, the
    open-search client ([openScroll], [nextScroll], [closeScroll],
    [percolateDocumentFields], [createIndex], [putDocumentItem],
    [scrollMap]). *)
Module OpenSearchClient.

Record OpenScrollOptions : Type := {
  includes : option (list string);
  scrollTimeout : option Z;
  size : option Z
}.

Definition no_scroll_options : OpenScrollOptions :=
  {| includes := None; scrollTimeout := None; size := None |}.

(** The second options record of the file also has a [from] and a [size];
    its fields carry a prefix here. *)
Record PercolateDocumentFieldsOptions : Type := {
  percolate_from : option Z;
  percolate_size : option Z
}.

Definition no_percolate_options : PercolateDocumentFieldsOptions :=
  {| percolate_from := None; percolate_size := None |}.

Record DocumentFields : Type := { title : string; contents : string }.

(** What the program reads of a parsed percolate hit:
    [_source.query.multi_match.query], [_source.uri],
    [_source.source_terminology] and [_source.namedGraphUri]. *)
Record PercolateHit : Type := {
  source_query_multi_match_query : value;
  source_uri : value;
  source_source_terminology : value;
  source_namedGraphUri : value
}.

Record DocumentItemTerm : Type := {
  label : value;
  uri : value;
  source_terminology : value;
  namedGraphUri : value
}.

(** A document to index: its [uuid] and the whole object as it is sent. *)
Record DocumentItem : Type := { uuid : string; item : value }.

(** [pMapOptions], as far as the order of the handler calls depends on it:
    the default runs the handler on every hit of the page at once, a
    concurrency of one starts a hit only after the one before it resolved.
    Modelled from the library's documented behaviour with [stopOnError] at its
    default; p-map is a dependency. *)
Inductive pMap_concurrency : Set := Infinity | One.

Record pMap_Options : Type := { concurrency : option pMap_concurrency }.

(** The caller's handler: the promise it returns resolves ([None]) or rejects
    ([Some e]); which of the two may depend on all that came before. *)
Definition hit_handler : Type := history → value → option error.

Definition scrollResponseSchema (v : value) : option (string * list value) :=
  scroll_id ← z_field "_scroll_id" v ≫= z_string;
  hits ← z_field "hits" v;
  hits' ← z_field "hits" hits;
  match hits' with
  | VArr items => Some (scroll_id, items)
  | _ => None
  end.

Definition openScroll_request (prefixUrl index : string)
    (options : OpenScrollOptions) : request :=
  let includes := default ["*"] (includes options) in
  let scrollTimeout := default 60%Z (scrollTimeout options) in
  let size := default 500%Z (size options) in
  Request POST prefixUrl (index +:+ "/_search")
    [("scroll", pretty scrollTimeout +:+ "m")]
    (JsonBody (VObj [("_source", VObj [("includes", VArr (VStr <$> includes))]);
                     ("size", VNum size)])).

Definition nextScroll_request (prefixUrl scrollId : string) (scrollTimeout : Z) : request :=
  Request POST prefixUrl "_search/scroll" []
    (JsonBody (VObj [("scroll", VStr (pretty scrollTimeout +:+ "m"));
                     ("scroll_id", VStr scrollId)])).

Definition closeScroll_request (prefixUrl scrollId : string) : request :=
  Request DELETE prefixUrl ("_search/scroll/" +:+ scrollId) [] NoBody.

Definition percolate_request (prefixUrl termsIndexName : string)
    (fields : DocumentFields) (options : PercolateDocumentFieldsOptions) : request :=
  let from := default 0%Z (percolate_from options) in
  let size := default 300%Z (percolate_size options) in
  Request POST prefixUrl (termsIndexName +:+ "/_search") []
    (JsonBody (VObj [("query", VObj [("percolate",
                        VObj [("field", VStr "query");
                              ("document", VObj [("title", VStr (title fields));
                                                 ("contents", VStr (contents fields))])])]);
                     ("from", VNum from);
                     ("size", VNum size)])).

Definition createIndex_request (prefixUrl index : string) (indexBody : option value) : request :=
  Request PUT prefixUrl index []
    (match indexBody with Some b => JsonBody b | None => NoBody end).

Definition putDocumentItem_request (prefixUrl : string) (documentItem : DocumentItem) : request :=
  Request POST prefixUrl ("documents/_doc/" +:+ uuid documentItem) []
    (JsonBody (item documentItem)).

Section Client.
Variable srv : server.
(** The schemas of open-search-schemas, whose declarations are not among the
    sources: each is a parse that yields the typed data or refuses. *)
Variable closeScrollResponseSchema : value → option value.
Variable percolateResponseSchema : value → option (list PercolateHit).
Variable putDocumentItemResponseSchema : value → option value.

Definition openScroll (prefixUrl index : string) (options : option OpenScrollOptions) : io value :=
  got_body srv (openScroll_request prefixUrl index (default no_scroll_options options)).

Definition nextScroll (prefixUrl scrollId : string) : io value :=
  got_body srv (nextScroll_request prefixUrl scrollId 60).

Definition closeScroll (prefixUrl scrollId : string) : io value :=
  rawResponse ← got_body srv (closeScroll_request prefixUrl scrollId);
  match closeScrollResponseSchema rawResponse with
  | Some r => mret r
  | None => throw (ZodError rawResponse)
  end.

Definition percolateDocumentFields (prefixUrl termsIndexName : string)
    (fields : DocumentFields) (options : option PercolateDocumentFieldsOptions)
    : io (list DocumentItemTerm) :=
  rawPercolateResponse ←
    try_catch
      (got_body srv (percolate_request prefixUrl termsIndexName fields
                       (default no_percolate_options options)))
      (λ error, throw error);
  match percolateResponseSchema rawPercolateResponse with
  | None => throw (ZodError rawPercolateResponse)
  | Some hits =>
      mret ((λ h, {| label := source_query_multi_match_query h;
                     uri := source_uri h;
                     source_terminology := source_source_terminology h;
                     namedGraphUri := source_namedGraphUri h |}) <$> hits)
  end.

Definition createIndex (prefixUrl index : string) (indexBody : option value) : io unit :=
  '(statusCode, body) ← got_response srv (createIndex_request prefixUrl index indexBody);
  if (statusCode =? 200)%Z then mret tt
  else
    match get body ["error"; "type"] with
    | VUndefined =>
        (* the default message "Unexpected ... response: ..." is not the
           already-exists marker *)
        throw (Error (UnexpectedResponse statusCode body))
    | VStr type =>
        if String.eqb type "resource_already_exists_exception" then mret tt
        else throw (Error (ErrorType (VStr type)))
    | errorMessage => throw (Error (ErrorType errorMessage))
    end.

Definition putDocumentItem (prefixUrl : string) (documentItem : DocumentItem) : io value :=
  rawResponse ←
    try_catch
      (got_body srv (putDocumentItem_request prefixUrl documentItem))
      (λ error, mret VUndefined);
  match putDocumentItemResponseSchema rawResponse with
  | Some r => mret r
  | None => throw (ZodError rawResponse)
  end.

Definition call_handler (f : hit_handler) (hit : value) : io unit :=
  λ h, (match f h hit with None => Return tt | Some e => Throw e end, [Handled hit]).

(** Every hit of the page is handed to [f]; the first rejection is the
    result. *)
Fixpoint pMap_all (f : hit_handler) (hits : list value) : io unit := λ h,
  match hits with
  | [] => (Return tt, [])
  | hit :: rest =>
      let '(o, evs) := call_handler f hit h in
      let '(o', evs') := pMap_all f rest (h ++ evs) in
      (match o with Return _ => o' | _ => o end, evs ++ evs')
  end.

(** One hit after the other; a rejection ends the page. *)
Fixpoint pMap_one (f : hit_handler) (hits : list value) : io unit :=
  match hits with
  | [] => mret tt
  | hit :: rest => _ ← call_handler f hit; pMap_one f rest
  end.

Definition pMap (hits : list value) (f : hit_handler) (options : option pMap_Options) : io unit :=
  match options ≫= concurrency with
  | Some One => pMap_one f hits
  | Some Infinity | None => pMap_all f hits
  end.

Record scrollMap_params : Type := {
  esUrl : string;
  index : string;
  handler : hit_handler;
  pMapOptions : option pMap_Options;
  scrollOptions : option OpenScrollOptions
}.

(** The [while (hits.length > 0)] loop, [fuel] turns of it at most. *)
Fixpoint scroll_loop (fuel : nat) (p : scrollMap_params) (scrollId : string)
    (hits : list value) : io unit :=
  match hits with
  | [] => mret tt
  | _ :: _ =>
      match fuel with
      | O => out_of_fuel
      | S fuel' =>
          _ ← pMap hits (handler p) (pMapOptions p);
          raw ← nextScroll (esUrl p) scrollId;
          match scrollResponseSchema raw with
          | None => throw (ZodError raw)
          | Some (_, hits') => scroll_loop fuel' p scrollId hits'
          end
      end
  end.

Definition scrollMap (fuel : nat) (p : scrollMap_params) : io unit :=
  rawOpenScrollResponse ← openScroll (esUrl p) (index p) (scrollOptions p);
  match scrollResponseSchema rawOpenScrollResponse with
  | None => throw (ZodError rawOpenScrollResponse)
  | Some (scrollId, hits) =>
      try_finally
        (scroll_loop fuel p scrollId hits)
        (_ ← closeScroll (esUrl p) scrollId; mret tt)
  end.

End Client.
End OpenSearchClient.

(** ** Search options *)

(** The options object that [parseParams] builds and the search document
    builder reads.  [from] and [size] are numbers by default and the raw
    parameter strings otherwise; [synonyms] and [refereed] are [false] or the
    raw parameter string; [endorsed] is a boolean. *)
Record SearchOptions : Type := {
  keywords : list string;
  terms : list string;
  termURIs : list string;
  from : value;
  size : value;
  sort : list string;
  fields : list string;
  synonyms : value;
  refereed : value;
  endorsed : value
}.

Definition DQUOTE : string := String (Ascii.ascii_of_nat 34) EmptyString.

(** ** The search document builder *)

(** The builder is not among the sources.  Its test is (src/unnamed/part_003),
    and the handler calls it. *)
Module SearchBuilder.

(** Modelled from the spec: the nested-filter clause of the absent builder
    (section 4.4: a structurally nested match on [_terms.label] or
    [_terms.uri]), laid out as in the test's expected document. *)
Definition nested_filter (field term : string) : value :=
  VObj [("nested", VObj [("path", VStr "_terms");
                         ("query", VObj [("match", VObj [(field, VStr term)])])])].

(** Modelled from the spec: the field-exists clause of the absent builder
    (section 4.4), laid out as in the test's expected document, and the two
    metadata field names the test expects. *)
Definition exists_filter (field : string) : value :=
  VObj [("exists", VObj [("field", VStr field)])].

Definition refereed_field : string := "dc_description_refereed".
Definition endorsed_field : string := "obps_endorsementExternal_externalEndorsedBy".

(** Modelled from the spec: a keyword of the absent builder's query string
    as a quoted phrase (section 4.4); the space in front is the one the test's
    expected query string has before each phrase. *)
Definition quoted_phrase (k : string) : string := " " +:+ DQUOTE +:+ k +:+ DQUOTE.

(** Modelled from the spec: a mapped sort pair of the absent builder
    (section 4.4): ["title:asc"] becomes [{ title: "asc" }]. *)
Definition sort_entry (s : string) : value :=
  match split ":" s with
  | field :: direction :: _ => VObj [(field, VStr direction)]
  | field :: [] => VObj [(field, VUndefined)]
  | [] => VObj []
  end.

(** Modelled from the spec: the filter clauses of the absent builder, in the
    order section 8 gives them: term labels, term URIs, refereed, endorsed;
    the two flags count when they are truthy (section 4.4). *)
Definition filters (options : SearchOptions) : list value :=
  (nested_filter "_terms.label" <$> terms options)
  ++ (nested_filter "_terms.uri" <$> termURIs options)
  ++ (if truthy (refereed options) then [exists_filter refereed_field] else [])
  ++ (if truthy (endorsed options) then [exists_filter endorsed_field] else []).

(** Modelled from the spec: the search document builder itself
    (search-query-builder, search-document-builder) is not among the sources,
    only its test is.  Section 4.4 gives the rules: a full-text query over
    [fields] matching the space-joined, quoted keywords when there are
    keywords; one nested [_terms.label] filter per term and one nested
    [_terms.uri] filter per term URI; an exists filter for a truthy
    [refereed] and for a truthy [endorsed]; [from], [size], a highlight
    request on the extracted-text field, the mapped sort pairs followed by the
    relevance score, and the extracted-text, bitstream and metadata fields
    excluded from [_source].  Field names and the layout of the document are
    those of the test's expected result. *)
Definition buildDocumentSearchQuery (options : SearchOptions) : value :=
  let must :=
    match keywords options with
    | [] => []
    | _ :: _ =>
        [("must", VObj [("query_string",
            VObj [("fields", VArr (VStr <$> fields options));
                  ("query", VStr (join " " (quoted_phrase <$> keywords options)))])])]
    end in
  VObj [("from", from options);
        ("size", size options);
        ("query", VObj [("bool", VObj (must ++ [("filter", VArr (filters options))]))]);
        ("highlight", VObj [("fields", VObj [("_bitstreamText", VObj [])])]);
        ("sort", VArr ((sort_entry <$> sort options) ++ [VStr "_score"]));
        ("_source", VObj [("excludes",
           VArr [VStr "_bitstreamText"; VStr "bitstreams"; VStr "metadata"])])].

(** Modelled from the spec: the keyword-search handler imports the absent
    builder under this name. *)
Definition buildSearchDocument : SearchOptions → value := buildDocumentSearchQuery.

End SearchBuilder.

(** ** The keyword-search handler *)

Definition outcome_bind {A B} (k : A → outcome B) (o : outcome A) : outcome B :=
  match o with
  | Return a => k a
  | Throw e => Throw e
  | Uncaught e => Uncaught e
  | OutOfFuel => OutOfFuel
  end.

#[global] Instance outcome_mret : MRet outcome := @Return.
#[global] Instance outcome_mbind : MBind outcome := @outcome_bind.

(** A value computed without touching the stores. *)
Definition lift {A} (o : outcome A) : io A := λ _, (o, []).

(** Source: the second file in src/unnamed/part_000 ([handler],
    [executeSearch], [parseParams], [buildSynonymsQuery],
    [buildSynonymsQueryOpts], [getSynonyms], [parseSynonymsResponse]). *)
Module SearchHandler.

(** [ontOpts]: host and port come from the environment. *)
Record ontology_options : Type := { host : string; port : string; path : string }.

Record APIGatewayEvent : Type := {
  (* [None]: the parameter set is undefined or null.  The values of a
     parameter set are strings. *)
  queryStringParameters : option (gmap string string)
}.

Definition DEFAULT_FROM : Z := 0.
Definition DEFAULT_SIZE : Z := 20.

Definition responseHeaders : list (string * string) :=
  [("Access-Control-Allow-Origin", "*");
   ("Access-Control-Allow-Credentials", "true")].

(** The template literal, line by line; a line's trailing backslash joins it
    to the next one. *)
Definition buildSynonymsQuery (term : string) : string :=
  "PREFIX rdfs: <http://www.w3.org/2000/01/rdf-schema#> " +:+
  "               PREFIX rdf: <http://www.w3.org/1999/02/22-rdf-syntax-ns#> " +:+
  "               PREFIX owl: <http://www.w3.org/2002/07/owl#> " +:+
  "               PREFIX skos:<http://www.w3.org/2004/02/skos/core#> " +:+
  "               SELECT DISTINCT ?annotatedTarget ?annotatedPropertyLabel ?sameAsLabel " +:+
  "               WHERE { " +:+
  "                { " +:+
  "                  ?nodeID owl:annotatedSource ?xs . " +:+
  "                  ?nodeID owl:annotatedProperty ?annotatedProperty . " +:+
  "                  ?nodeID owl:annotatedTarget ?annotatedTarget . " +:+
  "                  ?nodeID ?aaProperty ?aaPropertyTarget . " +:+
  "                  OPTIONAL {?annotatedProperty rdfs:label ?annotatedPropertyLabel} . " +:+
  "                  OPTIONAL {?aaProperty rdfs:label ?aaPropertyLabel} . " +:+
  "                  FILTER ( isLiteral( ?annotatedTarget ) ) . " +:+
  "                  FILTER ( ?aaProperty NOT IN ( owl:annotatedSource, rdf:type, owl:annotatedProperty, owl:annotatedTarget ) ) " +:+
  "                  { " +:+
  "                    SELECT DISTINCT ?xs WHERE { " +:+
  "                      ?xs rdfs:label ?xl . " +:+
  "                      FILTER (?xl = '" +:+ term +:+ "'^^xsd:string) " +:+
  "                    } " +:+
  "                  }" +:+
  "                } " +:+
  "                UNION " +:+
  "                { " +:+
  "                  SELECT ?sameAsLabel " +:+
  "                  WHERE { " +:+
  "                    ?concept skos:prefLabel ?prefLabel . " +:+
  "                    FILTER (str(?prefLabel) = '" +:+ term +:+ "') " +:+
  "                    ?concept owl:sameAs ?sameAsConcept . " +:+
  "                    ?sameAsConcept skos:prefLabel ?sameAsLabel . " +:+
  "                  } " +:+
  "                } " +:+
  "              }".

(** [v[k]] for one of the keys the program reads, none of which is a
    property of a string, a number, a boolean or an array: a TypeError on
    [undefined] and [null], [undefined] on a value that has no such key. *)
Definition prop (k : string) (v : value) : outcome value :=
  match v with
  | VUndefined | VNull => Throw TypeError
  | VObj fields => Return (assoc k fields)
  | VBool _ | VNum _ | VStr _ | VArr _ => Return VUndefined
  end.

Definition continuation_byte (c : ascii) : bool :=
  let n := nat_of_ascii c in (128 <=? n)%nat && (n <? 192)%nat.

(** The characters of a string, each with the bytes that follow its first
    one. *)
Fixpoint code_points (s : string) : list string :=
  match s with
  | EmptyString => []
  | String c s' =>
      match code_points s' with
      | (String c' _ as w) :: ws =>
          if continuation_byte c' then String c w :: ws
          else String c EmptyString :: w :: ws
      | _ => [String c EmptyString]
      end
  end.

(** [for (const r of v)]: the elements of an array, the characters of a
    string; no other value is iterable. *)
Definition iterate (v : value) : outcome (list value) :=
  match v with
  | VArr items => Return items
  | VStr s => Return (VStr <$> code_points s)
  | VUndefined | VNull | VBool _ | VNum _ | VObj _ => Throw TypeError
  end.

(** [l === 'has_exact_synonym' || l === 'alternative_label']. *)
Definition is_synonym_label (l : value) : bool :=
  match l with
  | VStr s => String.eqb s "has_exact_synonym" || String.eqb s "alternative_label"
  | _ => false
  end.

(** The body of the [for] loop: what one row pushes.  Only the fields on the
    branch taken are read; a read through [undefined] or [null] raises. *)
Definition synonyms_of_row (r : value) : outcome (list value) :=
  annotatedPropertyLabel ← prop "annotatedPropertyLabel" r;
  match annotatedPropertyLabel with
  | VUndefined =>
      sameAsLabel ← prop "sameAsLabel" r;
      match sameAsLabel with
      | VUndefined => Return []
      | _ => synonym ← prop "value" sameAsLabel; Return [synonym]
      end
  | _ =>
      l ← prop "value" annotatedPropertyLabel;
      if is_synonym_label l
      then annotatedTarget ← prop "annotatedTarget" r;
           synonym ← prop "value" annotatedTarget;
           Return [synonym]
      else Return []
  end.

Fixpoint synonyms_of_rows (results : list value) : outcome (list value) :=
  match results with
  | [] => Return []
  | r :: rest =>
      pushed ← synonyms_of_row r;
      synonyms ← synonyms_of_rows rest;
      Return (pushed ++ synonyms)
  end.

Definition parseSynonymsResponse (body : value) : outcome (list value) :=
  results ← prop "results" body;
  bindings ← prop "bindings" results;
  rows ← iterate bindings;
  synonyms_of_rows rows.

Section Handler.
Variable srv : server.
(** env-utils is not among the sources: the lookup returns the variable or
    throws. *)
Variable getStringFromEnv : string → outcome string.
(** The constant of search-fields, not among the sources. *)
Variable defaultSearchFields : list string.
Variable ontOpts : ontology_options.
(** search-document-builder is not among the sources, and the specification
    describes it on keywords that are strings.  What it makes of a keyword
    list that holds another value (a synonym read from a row whose [value] is
    not a string) is a parameter: the document it returns or the error it
    throws. *)
Variable buildSearchDocument_of_values : SearchOptions → list value → outcome value.

(** [params.keywords.length > 0] asks whether the string is empty, which its
    bytes tell as well as its code units. *)
Definition parseParams (params : gmap string string) : SearchOptions :=
  {| keywords := match params !! "keywords" with
                 | Some k => if (0 <? String.length k)%nat then split "," k else []
                 | None => []
                 end;
     terms := match params !! "term" with None => [] | Some t => split "," t end;
     termURIs := match params !! "termURI" with None => [] | Some t => split "," t end;
     from := match params !! "from" with None => VNum DEFAULT_FROM | Some f => VStr f end;
     size := match params !! "size" with None => VNum DEFAULT_SIZE | Some s => VStr s end;
     sort := match params !! "sort" with None => [] | Some s => split "," s end;
     fields := match params !! "fields" with
               | None => defaultSearchFields
               | Some f => split "," f
               end;
     synonyms := match params !! "synonyms" with None => VBool false | Some s => VStr s end;
     refereed := match params !! "refereed" with None => VBool false | Some r => VStr r end;
     endorsed := VBool (bool_decide (params !! "endorsed" = Some "true")) |}.

(** [buildSynonymsQueryOpts]: the query travels URL-encoded in the path; it
    is kept as the search parameter it encodes. *)
Definition synonyms_request (query : string) : request :=
  Request GET (host ontOpts +:+ ":" +:+ port ontOpts) (path ontOpts)
    [("query", query)] NoBody.

(** How the promise of one keyword settles.  The request has no 'error'
    listener and the body is parsed inside the 'end' listener, so a failed
    connection and a body that cannot be parsed or read are uncaught; only an
    error of the response stream rejects.  The status code is not looked
    at. *)
Definition synonyms_settle (rep : reply) : outcome (list value) :=
  match rep with
  | Broken ConnectionFailed => Uncaught (RequestError ConnectionFailed)
  | Broken StreamFailed => Throw (RequestError StreamFailed)
  | Broken BodyNotJSON => Uncaught SyntaxError
  | Reply _ body =>
      match parseSynonymsResponse body with
      | Throw e => Uncaught e
      | o => o
      end
  end.

(** Every request is issued by the [for] loop before any response arrives. *)
Fixpoint send_all (rs : list request) : io (list reply) :=
  match rs with
  | [] => mret []
  | r :: rest =>
      rep ← send srv r;
      reps ← send_all rest;
      mret (rep :: reps)
  end.

(** [Promise.all]: the results in the order of the promises, or the first
    failure.  Promises settle in the order of the list here. *)
Fixpoint Promise_all {A} (settled : list (outcome A)) : outcome (list A) :=
  match settled with
  | [] => Return []
  | o :: rest =>
      a ← o;
      others ← Promise_all rest;
      Return (a :: others)
  end.

Definition getSynonyms (keywords : list string) : io (list (list value)) :=
  replies ← send_all ((λ k, synonyms_request (buildSynonymsQuery k)) <$> keywords);
  lift (Promise_all (synonyms_settle <$> replies)).

Definition search_request (openSearchEndpoint documentsIndexName : string)
    (options : SearchOptions) : request :=
  Request POST openSearchEndpoint (documentsIndexName +:+ "/_search") []
    (JsonBody (SearchBuilder.buildSearchDocument options)).

Definition executeSearch (openSearchEndpoint documentsIndexName : string)
    (options : SearchOptions) : io value :=
  got_body srv (search_request openSearchEndpoint documentsIndexName options).

Definition callback (err : option error) (res : response) : io unit :=
  emit (Callback err res).

Definition with_keywords (opts : SearchOptions) (ks : list string) : SearchOptions :=
  {| keywords := ks; terms := terms opts; termURIs := termURIs opts;
     from := from opts; size := size opts; sort := sort opts;
     fields := fields opts; synonyms := synonyms opts;
     refereed := refereed opts; endorsed := endorsed opts |}.

(** [executeSearch(...).then(results => callback(null, ...))]: nothing
    catches a rejection of this chain. *)
Definition search_and_respond (openSearchEndpoint documentsIndexName : string)
    (opts : SearchOptions) : io unit :=
  floating (
    searchResults ← executeSearch openSearchEndpoint documentsIndexName opts;
    callback None (Response 200 (JSON_stringify searchResults) responseHeaders)).

(** The search for a keyword list after the expansion: the builder's
    document for the keywords when they are all strings, the parameter's
    otherwise. *)
Definition search_expanded_and_respond (openSearchEndpoint documentsIndexName : string)
    (opts : SearchOptions) (keywords : list value) : io unit :=
  match mapM z_string keywords with
  | Some keywords' =>
      search_and_respond openSearchEndpoint documentsIndexName
        (with_keywords opts keywords')
  | None =>
      searchBody ← lift (buildSearchDocument_of_values opts keywords);
      floating (
        searchResults ←
          got_body srv (Request POST openSearchEndpoint
                          (documentsIndexName +:+ "/_search") [] (JsonBody searchBody));
        callback None (Response 200 (JSON_stringify searchResults) responseHeaders))
  end.

Definition handler (event : APIGatewayEvent) : io unit :=
  documentsIndexName ← lift (getStringFromEnv "DOCUMENTS_INDEX_NAME");
  openSearchEndpoint ← lift (getStringFromEnv "OPEN_SEARCH_ENDPOINT");
  match queryStringParameters event with
  | None =>
      callback None (Response 200 (JSON_stringify (VObj [])) responseHeaders)
  | Some params =>
      match params !! "keywords" with
      | None =>
          callback None (Response 200 (JSON_stringify (VObj [])) responseHeaders)
      | Some _ =>
          let opts := parseParams params in
          if truthy (synonyms opts) then
            try_catch
              (results ← getSynonyms (keywords opts);
               let keywords := (VStr <$> keywords opts) ++ concat results in
               search_expanded_and_respond openSearchEndpoint documentsIndexName
                 opts keywords)
              (λ error,
                 callback (Some error)
                   (Response 500 (JSON_stringify_err error) responseHeaders))
          else
            search_and_respond openSearchEndpoint documentsIndexName opts
      end
  end.

End Handler.
End SearchHandler.

(** ** The search-index client: single documents and indices *)

(** Source: src/oop-web/src/js/components/Footer.js, second file
    ([indexExists], [getDocument]). *)
Module OpenSearchDocuments.

Definition indexExists_request (prefixUrl index : string) : request :=
  Request HEAD prefixUrl index [] NoBody.

Definition getDocument_request (prefixUrl index id : string) : request :=
  Request GET prefixUrl (index +:+ "/_doc/" +:+ id) [] NoBody.

(** lodash [get(error, 'response.statusCode')]: only an HTTPError carries a
    response with a status that is not a success. *)
Definition response_statusCode (e : error) : value :=
  match e with
  | HTTPError status _ => VNum status
  | _ => VUndefined
  end.

Section Documents.
Variable srv : server.

Definition indexExists (prefixUrl index : string) : io bool :=
  '(statusCode, _) ← got_response srv (indexExists_request prefixUrl index);
  mret (statusCode =? 200)%Z.

Definition getDocument (prefixUrl index id : string) : io value :=
  try_catch
    (got_body srv (getDocument_request prefixUrl index id))
    (λ error,
       match response_statusCode error with
       | VNum statusCode =>
           if negb (statusCode =? 404)%Z then throw error else mret VUndefined
       | _ => throw error
       end).

End Documents.
End OpenSearchDocuments.

(** ** The repository client *)

(** Source: the first file in src/unnamed/part_002 ([find], [getItems],
    [getItem], [getMetadata]).  The schemas of dspace-schemas are not among
    the sources: each is a parse that yields the typed data or refuses. *)
Module DSpaceClient.

Inductive Expand : Set := ExpandNone | ExpandMetadata | ExpandBitstreams.

Definition expand_text (e : Expand) : string :=
  match e with
  | ExpandNone => "none"
  | ExpandMetadata => "metadata"
  | ExpandBitstreams => "bitstreams"
  end.

Record GetItemsSearchParams : Type := {
  expand : option Expand;
  limit : option Z;
  offset : option Z
}.

Definition no_search_params : GetItemsSearchParams :=
  {| expand := None; limit := None; offset := None |}.

Definition find_request (endpoint key value : string) : request :=
  Request POST endpoint "/rest/items/find-by-metadata-field"
    [("expand", "metadata,bitstreams")]
    (JsonBody (VObj [("key", VStr key); ("value", VStr value)])).

Definition getItems_request (endpoint : string) (searchParams : GetItemsSearchParams) : request :=
  let expand := default "bitstreams,metadata" (expand_text <$> expand searchParams) in
  let limit := default 50%Z (limit searchParams) in
  let offset := default 0%Z (offset searchParams) in
  Request GET endpoint "/rest/items"
    [("expand", expand); ("limit", pretty limit); ("offset", pretty offset)]
    NoBody.

Definition getItem_request (endpoint uuid : string) : request :=
  Request GET endpoint ("/rest/items/" +:+ uuid)
    [("expand", "bitstreams,metadata")] NoBody.

Definition getMetadata_request (endpoint uuid : string) : request :=
  Request GET endpoint ("/rest/items/" +:+ uuid +:+ "/metadata") [] NoBody.

Section Client.
Variable srv : server.
Variables DSpaceItem Metadata : Type.
Variable dspaceItemSchema : value → option DSpaceItem.
Variable metadataSchema : value → option Metadata.

(** [schema.parse(v)]. *)
Definition parse {A} (schema : value → option A) (v : value) : io A :=
  match schema v with
  | Some a => mret a
  | None => throw (ZodError v)
  end.

Definition find (endpoint key value : string) : io (list DSpaceItem) :=
  findItems ← got_body srv (find_request endpoint key value);
  parse (z_array dspaceItemSchema) findItems.

Definition getItems (endpoint : string) (searchParams : option GetItemsSearchParams)
    : io (list DSpaceItem) :=
  getItemsResponse ←
    got_body srv (getItems_request endpoint (default no_search_params searchParams));
  parse (z_array dspaceItemSchema) getItemsResponse.

(** [error instanceof HTTPError && error.response.statusCode === 404]. *)
Definition is_not_found (e : error) : bool :=
  match e with
  | HTTPError statusCode _ => (statusCode =? 404)%Z
  | _ => false
  end.

Definition getItem (endpoint uuid : string) : io (option DSpaceItem) :=
  try_catch
    (getItemResponseBody ← got_body srv (getItem_request endpoint uuid);
     item ← parse dspaceItemSchema getItemResponseBody;
     mret (Some item))
    (λ error, if is_not_found error then mret None else throw error).

Definition getMetadata (endpoint uuid : string) : io (option (list Metadata)) :=
  try_catch
    (getMetadataResponseBody ← got_body srv (getMetadata_request endpoint uuid);
     metadata ← parse (z_array metadataSchema) getMetadataResponseBody;
     mret (Some metadata))
    (λ error, if is_not_found error then mret None else throw error).

End Client.
End DSpaceClient.

(** ** The graph-query proxy *)

(** Source: the second file in src/unnamed/part_002 ([okResponse],
    [badRequestResponse], [internalServerErrorResponse],
    [badGatewayResponse], [handler]).  The proxy reads the graph store's
    response as text and looks at its headers, so its store answers with a
    status, headers and a text. *)
Module SparqlHandler.

Record APIGatewayProxyResult : Type := {
  statusCode : Z;
  headers : list (string * string);
  body : string
}.

(** What got resolves with when [throwHttpErrors] is off: header names are in
    lower case. *)
Record text_response : Type := {
  response_statusCode : Z;
  response_headers : gmap string string;
  response_body : string
}.

Definition graph_store : Type := history → request → text_response + failure.

(** [Pick<APIGatewayProxyEventV2, 'body'>]. *)
Record PostSparqlEvent : Type := { event_body : option string }.

Definition defaultHeaders : list (string * string) :=
  [("Access-Control-Allow-Origin", "*")].

Definition okResponse (contentType body : string) : APIGatewayProxyResult :=
  {| statusCode := 200;
     headers := defaultHeaders ++ [("Content-Type", contentType)];
     body := body |}.

Definition badRequestResponse (body : string) (contentType : option string)
    : APIGatewayProxyResult :=
  {| statusCode := 400;
     headers := defaultHeaders ++ [("Content-Type", default "text/plain" contentType)];
     body := body |}.

Definition internalServerErrorResponse : APIGatewayProxyResult :=
  {| statusCode := 500;
     headers := defaultHeaders ++ [("Content-Type", "text/plain")];
     body := "Internal Server Error" |}.

Definition badGatewayResponse : APIGatewayProxyResult :=
  {| statusCode := 502;
     headers := defaultHeaders ++ [("Content-Type", "text/plain")];
     body := "Bad Gateway" |}.

(** [!s] for a string that may be undefined. *)
Definition falsy (s : option string) : bool :=
  match s with
  | None => true
  | Some s => String.eqb s ""
  end.

Definition sparql_request (sparqlUrl query : string) : request :=
  Request POST sparqlUrl "" [] (FormBody query).

Section Handler.
Variable store : graph_store.
(** env-utils is not among the sources: the lookup returns the variable or
    throws. *)
Variable getStringFromEnv : string → outcome string.

(** [got.post(url, { form, throwHttpErrors: false })]: every response
    resolves, only a missing response rejects. *)
Definition got_post (r : request) : io text_response := λ h,
  (match store h r with
   | inl response => Return response
   | inr why => Throw (RequestError why)
   end, [Sent r]).

Definition handler (event : PostSparqlEvent) : io APIGatewayProxyResult :=
  env ← try_catch
           (sparqlUrl ← lift (getStringFromEnv "SPARQL_URL"); mret (Some sparqlUrl))
           (λ _, mret None);
  match env with
  | None => mret internalServerErrorResponse
  | Some sparqlUrl =>
      match event_body event with
      | None => mret (badRequestResponse "No query specified in request body" None)
      | Some query =>
          if falsy (Some query)
          then mret (badRequestResponse "No query specified in request body" None)
          else
            response ← got_post (sparql_request sparqlUrl query);
            let contentType := response_headers response !! "content-type" in
            match contentType with
            | None => mret badGatewayResponse
            | Some contentType =>
                if falsy (Some contentType) then mret badGatewayResponse
                else if (response_statusCode response =? 400)%Z
                then mret (badRequestResponse (response_body response) (Some contentType))
                else if negb (response_statusCode response =? 200)%Z
                then mret internalServerErrorResponse
                else mret (okResponse contentType (response_body response))
            end
      end
  end.

End Handler.
End SparqlHandler.

(** ** Reading a run *)

(** The replies the store gave to the requests of a run, in order. *)
Fixpoint replies (srv : server) (h : history) (evs : list event) : list (request * reply) :=
  match evs with
  | [] => []
  | Sent r :: evs' => (r, srv h r) :: replies srv (h ++ [Sent r]) evs'
  | e :: evs' => replies srv (h ++ [e]) evs'
  end.

(** The hits the handler was called on, in order. *)
Definition handled (evs : list event) : list value :=
  omap (λ e, match e with Handled hit => Some hit | _ => None end) evs.

(** The requests of a run, in order. *)
Definition sent (evs : list event) : list request :=
  omap (λ e, match e with Sent r => Some r | _ => None end) evs.

(** The size of the page a fetch got: [None] when the fetch failed. *)
Definition page_size (is_url : string → bool) (rep : reply) : option nat :=
  match rep with
  | Reply status b =>
      if (status =? 200)%Z
      then length <$> TermsIndexer.fetchTermsResponseSchema is_url b
      else None
  | Broken _ => None
  end.

(** The sizes of the pages the fetches of a run got, in order.  The fetches
    are the requests that carry a form. *)
Definition fetched (srv : server) (is_url : string → bool)
    (h : history) (evs : list event) : list (option nat) :=
  omap (λ '(r, rep), match rq_payload r with
                     | FormBody _ => Some (page_size is_url rep)
                     | _ => None
                     end)
       (replies srv h evs).

(** The page of hits a scroll request got: none when the request failed or
    the response did not parse. *)
Definition scroll_page (rep : reply) : list value :=
  match rep with
  | Reply status b =>
      if is_2xx status
      then match OpenSearchClient.scrollResponseSchema b with
           | Some (_, hits) => hits
           | None => []
           end
      else []
  | Broken _ => []
  end.

(** The pages the store returned to the POST requests of a run, in order. *)
Definition returned_pages (srv : server) (h : history) (evs : list event)
    : list (list value) :=
  omap (λ '(r, rep), match rq_method r with
                     | POST => Some (scroll_page rep)
                     | _ => None
                     end)
       (replies srv h evs).

(** All the hits the store returned to the POST requests of a run, page
    after page. *)
Definition returned_hits (srv : server) (h : history) (evs : list event) : list value :=
  concat (omap (λ '(r, rep), match rq_method r with
                             | POST => Some (scroll_page rep)
                             | _ => None
                             end)
               (replies srv h evs)).

(** The DELETE requests of a run: the closes of scrolls. *)
Definition closes (evs : list event) : list request :=
  filter (λ r, rq_method r = DELETE) (sent evs).

(** How many continuations of a scroll have been asked for. *)
Definition continuations (h : history) : nat :=
  length (filter (λ r, rq_path r = "_search/scroll") (sent h)).

(** The promise of an operation settled: it resolved or it rejected. *)
Definition settled {A} (o : outcome A) : Prop :=
  match o with
  | Return _ | Throw _ => True
  | Uncaught _ | OutOfFuel => False
  end.

(* ===================================================================== *)
(** * Properties *)

Ltac io_unfold :=
  cbv beta iota zeta delta
    [mbind mret io_mbind io_mret io_bind io_ret throw out_of_fuel emit lift send].

(** ** One call of the transport *)

Section TransportFacts.
Variable srv : server.

(** The shape of a call: the same request up to [retries] more times, each
    but the last answered by a failure that is retried; the call ends on the
    reply to the last one. *)
Lemma attempts_run retries r h :
  ∃ n, n ≤ retries
       ∧ attempts srv retries r h
         = (srv (h ++ replicate n (Sent r)) r, replicate (S n) (Sent r))
       ∧ (∀ j, j < n → retried (srv (h ++ replicate j (Sent r)) r) = true)
       ∧ (n < retries → retried (srv (h ++ replicate n (Sent r)) r) = false).
Proof.
  revert h. induction retries as [|retries IH]; intros h.
  - exists 0. cbn. rewrite app_nil_r. repeat split; [lia..].
  - cbn [attempts]. destruct (retried (srv h r)) eqn:Hretried.
    + destruct (IH (h ++ [Sent r])) as (n & Hn & -> & Hearlier & Hlast).
      exists (S n). cbn [replicate]. rewrite <- !app_assoc. cbn [app].
      split; [lia|]. split; [done|]. split.
      * intros [|j] Hj; cbn [replicate].
        -- by rewrite app_nil_r.
        -- specialize (Hearlier j ltac:(lia)).
           by rewrite <- app_assoc in Hearlier.
      * intros Hlt. specialize (Hlast ltac:(lia)).
        by rewrite <- app_assoc in Hlast.
    + exists 0. cbn. rewrite app_nil_r. repeat split; [lia|lia|done].
Qed.

Lemma exchange_POST r h :
  rq_method r = POST → exchange srv r h = (srv h r, [Sent r]).
Proof. intros Hpost. unfold exchange, retry_limit. by rewrite Hpost. Qed.

(** A first reply that is not retried ends the call. *)
Lemma exchange_once r h :
  retried (srv h r) = false → exchange srv r h = (srv h r, [Sent r]).
Proof.
  intros Hno. unfold exchange. destruct (retry_limit r); [done|].
  cbn [attempts]. by rewrite Hno.
Qed.

Lemma exchange_run r h :
  ∃ n, n ≤ 2
       ∧ exchange srv r h
         = (srv (h ++ replicate n (Sent r)) r, replicate (S n) (Sent r))
       ∧ (∀ j, j < n → retried (srv (h ++ replicate j (Sent r)) r) = true)
       ∧ (0 < n → retried_method (rq_method r) = true).
Proof.
  unfold exchange, retry_limit.
  destruct (attempts_run (if retried_method (rq_method r) then 2 else 0) r h)
    as (n & Hn & Hrun & Hearlier & _).
  exists n. destruct (retried_method (rq_method r)).
  - repeat split; [lia|done|done].
  - repeat split; [lia|done|done|lia].
Qed.

Lemma got_body_exchange r h :
  got_body srv r h =
  (match (exchange srv r h).1 with
   | Reply status b => if is_2xx status then Return b else Throw (HTTPError status b)
   | Broken why => Throw (RequestError why)
   end, (exchange srv r h).2).
Proof.
  unfold got_body, got_request. io_unfold.
  destruct (exchange srv r h).1 as [status b|why]; [|by rewrite app_nil_r].
  destruct (is_2xx status); by rewrite app_nil_r.
Qed.

Lemma got_response_exchange r h :
  got_response srv r h =
  (match (exchange srv r h).1 with
   | Reply status b => Return (status, b)
   | Broken why => Throw (RequestError why)
   end, (exchange srv r h).2).
Proof.
  unfold got_response, got_request. io_unfold.
  destruct (exchange srv r h).1 as [status b|why]; by rewrite app_nil_r.
Qed.

Lemma got_body_eq r h :
  rq_method r = POST →
  got_body srv r h =
  (match srv h r with
   | Reply status b => if is_2xx status then Return b else Throw (HTTPError status b)
   | Broken why => Throw (RequestError why)
   end, [Sent r]).
Proof. intros Hpost. by rewrite got_body_exchange, exchange_POST. Qed.

Lemma got_response_eq r h :
  rq_method r = POST →
  got_response srv r h =
  (match srv h r with
   | Reply status b => Return (status, b)
   | Broken why => Throw (RequestError why)
   end, [Sent r]).
Proof. intros Hpost. by rewrite got_response_exchange, exchange_POST. Qed.

End TransportFacts.

Example split_examples :
  split "," "sea,tide" = ["sea"; "tide"]
  ∧ split "," "" = [""]
  ∧ split "," "sea," = ["sea"; ""]
  ∧ split ":" "title:asc" = ["title"; "asc"].
Proof. repeat split; reflexivity. Qed.

Example js_length_examples :
  js_length "seawater" = 8
  ∧ js_length "ok" = 2
  ∧ js_length "海洋" = 2
  ∧ js_length "°C" = 2
  ∧ String.length "海洋" = 6.
Proof. repeat split; reflexivity. Qed.

Example truthy_examples :
  truthy (VStr "false") = true
  ∧ truthy (VStr "") = false
  ∧ truthy (VBool false) = false
  ∧ truthy VUndefined = false.
Proof. repeat split; reflexivity. Qed.

Example get_examples :
  get (VObj [("error", VObj [("type", VStr "x")])]) ["error"; "type"] = VStr "x"
  ∧ get (VObj [("error", VStr "x")]) ["error"; "type"] = VUndefined
  ∧ get VNull ["error"; "type"] = VUndefined.
Proof. repeat split; reflexivity. Qed.

Lemma replies_app srv h evs1 evs2 :
  replies srv h (evs1 ++ evs2) = replies srv h evs1 ++ replies srv (h ++ evs1) evs2.
Proof.
  revert h. induction evs1 as [|e evs1 IH]; intros h; simpl.
  - by rewrite app_nil_r.
  - destruct e; simpl; rewrite IH, <- app_assoc; reflexivity.
Qed.

Lemma handled_app evs1 evs2 : handled (evs1 ++ evs2) = handled evs1 ++ handled evs2.
Proof. apply omap_app. Qed.

Lemma sent_app evs1 evs2 : sent (evs1 ++ evs2) = sent evs1 ++ sent evs2.
Proof. apply omap_app. Qed.

(** ** The term indexer *)

Section TermsIndexerFacts.
Import TermsIndexer.
Variable srv : server.
Variable is_url : string → bool.

(** What a fetch does, reply by reply. *)
Lemma fetchTerms_eq sparqlUrl sparqlQuery offset h :
  fetchTerms srv is_url sparqlUrl sparqlQuery offset h =
  (match srv h (fetchTerms_request sparqlUrl sparqlQuery offset) with
   | Reply status b =>
       if (status =? 200)%Z then
         match fetchTermsResponseSchema is_url b with
         | Some terms => Return terms
         | None => Throw (ZodError b)
         end
       else Throw (Error (NeptuneRequestFailed status b))
   | Broken why => Throw (RequestError why)
   end, [Sent (fetchTerms_request sparqlUrl sparqlQuery offset)]).
Proof.
  unfold fetchTerms, mbind, io_mbind, io_bind. rewrite got_response_eq by done.
  destruct (srv h _) as [status b|why]; [|done].
  destruct (status =? 200)%Z; cbn [negb]; [|io_unfold; by rewrite app_nil_r].
  destruct (fetchTermsResponseSchema is_url b); io_unfold; by rewrite app_nil_r.
Qed.

Lemma bulkIndexTerms_eq url terms indexName title graph h :
  bulkIndexTerms srv url terms indexName title graph h =
  (match srv h (bulk_request url terms indexName title graph) with
   | Reply status b =>
       if (status =? 200)%Z then Return tt
       else Throw (Error (ESRequestFailed status b))
   | Broken why => Throw (RequestError why)
   end, [Sent (bulk_request url terms indexName title graph)]).
Proof.
  unfold bulkIndexTerms, mbind, io_mbind, io_bind. rewrite got_response_eq by done.
  destruct (srv h _) as [status b|why]; [|done].
  destruct (status =? 200)%Z; cbn [negb]; io_unfold; by rewrite app_nil_r.
Qed.

Lemma fetchTerms_events sparqlUrl sparqlQuery offset h o evs :
  fetchTerms srv is_url sparqlUrl sparqlQuery offset h = (o, evs) →
  evs = [Sent (fetchTerms_request sparqlUrl sparqlQuery offset)].
Proof. rewrite fetchTerms_eq. by intros [= _ <-]. Qed.

(** The turn of the loop on a page that has terms. *)
Lemma indexTerms_turn_page p offset h terms evs :
  fetchTerms srv is_url (sparqlUrl p) (sparqlQuery p) offset h = (Return terms, evs) →
  terms ≠ [] →
  let validTerms := filter (valid_term (stopwords p)) terms in
  let bulk := bulk_request (elasticsearchUrl p) validTerms
                (indexName p) (terminologyTitle p) (namedGraphUri p) in
  let offset' := (offset + N.of_nat (length terms))%N in
  indexTerms_turn srv is_url p offset h =
    match validTerms with
    | [] => (Return (Some offset'), evs)
    | _ :: _ =>
        match srv (h ++ evs) bulk with
        | Reply status b =>
            if (status =? 200)%Z then (Return (Some offset'), evs ++ [Sent bulk])
            else (Throw (Error (ESRequestFailed status b)), evs ++ [Sent bulk])
        | Broken why => (Throw (RequestError why), evs ++ [Sent bulk])
        end
    end.
Proof.
  intros Hfetch Hne. simpl.
  unfold indexTerms_turn.
  unfold mbind at 1. unfold io_mbind, io_bind. rewrite Hfetch.
  destruct terms as [|t terms]; [done|].
  change (length (t :: terms) =? 0)%nat with false. cbv iota.
  destruct (filter (valid_term (stopwords p)) (t :: terms)) as [|v valid] eqn:Hvalid.
  - change (0 <? length (@nil FetchedTerm))%nat with false. cbv iota.
    io_unfold. simpl. by rewrite app_nil_r.
  - change (0 <? length (v :: valid))%nat with true. cbv iota.
    unfold mbind, io_mbind, io_bind. rewrite bulkIndexTerms_eq.
    destruct (srv (h ++ evs) _) as [status b|why]; [|done].
    destruct (status =? 200)%Z; [|done].
    io_unfold. by rewrite app_nil_r.
Qed.

(** How a turn can end. *)
Lemma indexTerms_turn_cases p offset h :
  let fetch := fetchTerms_request (sparqlUrl p) (sparqlQuery p) offset in
  (∃ e evs, indexTerms_turn srv is_url p offset h = (Throw e, evs))
  ∨ (fst (fetchTerms srv is_url (sparqlUrl p) (sparqlQuery p) offset h) = Return []
     ∧ indexTerms_turn srv is_url p offset h = (Return None, [Sent fetch]))
  ∨ (∃ terms bulk,
       fst (fetchTerms srv is_url (sparqlUrl p) (sparqlQuery p) offset h) = Return terms
       ∧ terms ≠ []
       ∧ rq_payload bulk = LinesBody (bulk_lines (filter (valid_term (stopwords p)) terms)
                                        (indexName p) (terminologyTitle p) (namedGraphUri p))
       ∧ (indexTerms_turn srv is_url p offset h =
            (Return (Some (offset + N.of_nat (length terms))%N), [Sent fetch])
          ∨ indexTerms_turn srv is_url p offset h =
            (Return (Some (offset + N.of_nat (length terms))%N), [Sent fetch; Sent bulk]))).
Proof.
  intros fetch.
  destruct (fetchTerms srv is_url (sparqlUrl p) (sparqlQuery p) offset h)
    as [o evs] eqn:Hfetch.
  pose proof (fetchTerms_events _ _ _ _ _ _ Hfetch) as ->.
  destruct o as [terms|e|e|].
  - destruct terms as [|t terms].
    + right; left. split; [done|].
      unfold indexTerms_turn, mbind at 1, io_mbind, io_bind. rewrite Hfetch.
      reflexivity.
    + pose proof (indexTerms_turn_page p offset h (t :: terms) _ Hfetch) as Hturn.
      simpl in Hturn. specialize (Hturn ltac:(done)).
      destruct (filter (valid_term (stopwords p)) (t :: terms)) as [|v vs] eqn:Hvalid.
      * right; right.
        exists (t :: terms), (bulk_request (elasticsearchUrl p) [] (indexName p)
                                (terminologyTitle p) (namedGraphUri p)).
        split; [done|]. split; [done|]. split; [by rewrite Hvalid|]. by left.
      * set (bulk := bulk_request (elasticsearchUrl p) (v :: vs) (indexName p)
                       (terminologyTitle p) (namedGraphUri p)) in *.
        destruct (srv _ bulk) as [status b|why].
        -- destruct (status =? 200)%Z.
           ++ right; right. exists (t :: terms), bulk.
              split; [done|]. split; [done|]. split; [by rewrite Hvalid|]. by right.
           ++ left. eauto.
        -- left. eauto.
  - left. exists e, [Sent fetch].
    unfold indexTerms_turn, mbind at 1, io_mbind, io_bind. by rewrite Hfetch.
  - exfalso. rewrite fetchTerms_eq in Hfetch.
    destruct (srv h _) as [status b|why]; [|done].
    destruct (status =? 200)%Z; [|done].
    by destruct (fetchTermsResponseSchema is_url b).
  - exfalso. rewrite fetchTerms_eq in Hfetch.
    destruct (srv h _) as [status b|why]; [|done].
    destruct (status =? 200)%Z; [|done].
    by destruct (fetchTermsResponseSchema is_url b).
Qed.

Lemma fetchTerms_page_size sparqlUrl sparqlQuery offset h terms :
  fst (fetchTerms srv is_url sparqlUrl sparqlQuery offset h) = Return terms →
  page_size is_url (srv h (fetchTerms_request sparqlUrl sparqlQuery offset))
  = Some (length terms).
Proof.
  rewrite fetchTerms_eq. simpl. unfold page_size.
  destruct (srv h _) as [status b|why]; [|done].
  destruct (status =? 200)%Z; [|done].
  destruct (fetchTermsResponseSchema is_url b); [|done].
  by intros [= ->].
Qed.

Lemma fetched_app h evs1 evs2 :
  fetched srv is_url h (evs1 ++ evs2)
  = fetched srv is_url h evs1 ++ fetched srv is_url (h ++ evs1) evs2.
Proof. unfold fetched. by rewrite replies_app, omap_app. Qed.

(** A run that returns fetched pages with terms and then, last, one page
    without. *)
Lemma indexTerms_from_pages fuel p offset h evs :
  indexTerms_from srv is_url fuel p offset h = (Return tt, evs) →
  ∃ sizes, fetched srv is_url h evs = (Some <$> sizes) ++ [Some 0]
           ∧ Forall (λ n, 0 < n) sizes.
Proof.
  revert offset h evs. induction fuel as [|fuel IH]; intros offset h evs; [done|].
  simpl. unfold mbind, io_mbind, io_bind.
  destruct (indexTerms_turn_cases p offset h)
    as [(e & evs1 & Hturn)|[(Hpage & Hturn)|(terms & bulk & Hpage & Hne & Hbulk & Hturn)]].
  - by rewrite Hturn.
  - rewrite Hturn. intros [= <-]. exists []. split; [|done].
    unfold fetched. simpl. by rewrite (fetchTerms_page_size _ _ _ _ _ Hpage).
  - assert (∃ evs1, indexTerms_turn srv is_url p offset h
              = (Return (Some (offset + N.of_nat (length terms))%N), evs1)
              ∧ fetched srv is_url h evs1 = [Some (length terms)])
      as (evs1 & -> & Hevs1).
    { destruct Hturn as [Hturn|Hturn]; rewrite Hturn; eexists; (split; [done|]).
      - unfold fetched. simpl. by rewrite (fetchTerms_page_size _ _ _ _ _ Hpage).
      - unfold fetched. simpl. rewrite Hbulk.
        by rewrite (fetchTerms_page_size _ _ _ _ _ Hpage). }
    destruct (indexTerms_from srv is_url fuel p _ (h ++ evs1)) as [o evs2] eqn:Hrest.
    intros [= -> <-].
    destruct (IH _ _ _ Hrest) as (sizes & Hsizes & Hpos).
    exists (length terms :: sizes). split.
    + by rewrite fetched_app, Hevs1, Hsizes.
    + constructor; [|done]. destruct terms; [done|simpl; lia].
Qed.

(** Past the last term every turn is the last one, so the offset can grow
    only so often. *)
Lemma indexTerms_from_ends p (bound : N) :
  (∀ h offset, (bound ≤ offset)%N →
     fst (fetchTerms srv is_url (sparqlUrl p) (sparqlQuery p) offset h) = Return []) →
  ∀ k offset h, (bound ≤ offset + N.of_nat k)%N →
    fst (indexTerms_from srv is_url (S k) p offset h) ≠ OutOfFuel.
Proof.
  intros Hfinite k. induction k as [|k IH]; intros offset h Hk.
  - simpl. unfold mbind, io_mbind, io_bind.
    destruct (indexTerms_turn_cases p offset h)
      as [(e & evs1 & Hturn)|[(Hpage & Hturn)|(terms & bulk & Hpage & Hne & _ & _)]].
    + by rewrite Hturn.
    + by rewrite Hturn.
    + rewrite Hfinite in Hpage by lia. by injection Hpage as <-.
  - change (indexTerms_from srv is_url (S (S k)) p offset h)
      with (io_bind (λ next, match next with
                             | None => mret tt
                             | Some offset' => indexTerms_from srv is_url (S k) p offset'
                             end) (indexTerms_turn srv is_url p offset) h).
    unfold io_bind.
    destruct (indexTerms_turn_cases p offset h)
      as [(e & evs1 & Hturn)|[(Hpage & Hturn)|(terms & bulk & Hpage & Hne & _ & Hturn)]].
    + by rewrite Hturn.
    + by rewrite Hturn.
    + assert (bound ≤ offset + N.of_nat (length terms) + N.of_nat k)%N as Hk'.
      { destruct terms; [done|]. simpl length. lia. }
      destruct Hturn as [Hturn|Hturn]; rewrite Hturn;
        match goal with |- context [indexTerms_from _ _ _ _ ?o ?h'] =>
          specialize (IH o h' Hk');
          destruct (indexTerms_from srv is_url (S k) p o h') as [o' evs2]
        end; by destruct o'.
Qed.

(** C9. When the term listing is finite, that is every fetch at or beyond
    some offset returns zero bindings, the pagination loop ends: a run that
    may take more turns than that offset is never cut off, and a run that
    returns has fetched pages with bindings and then, as its last request,
    the first page with zero bindings. *)
Theorem indexTerms_terminates p (bound : N) :
  (∀ h offset, (bound ≤ offset)%N →
     fst (fetchTerms srv is_url (sparqlUrl p) (sparqlQuery p) offset h) = Return []) →
  ∀ h fuel, N.to_nat bound < fuel →
    ∃ out evs,
      indexTerms srv is_url fuel p h = (out, evs)
      ∧ out ≠ OutOfFuel
      ∧ (out = Return tt →
         ∃ sizes, fetched srv is_url h evs = (Some <$> sizes) ++ [Some 0]
                  ∧ Forall (λ n, 0 < n) sizes).
Proof.
  intros Hfinite h fuel Hfuel.
  destruct fuel as [|k]; [lia|].
  pose proof (indexTerms_from_ends p bound Hfinite k 0%N h ltac:(lia)) as Hends.
  unfold indexTerms.
  destruct (indexTerms_from srv is_url (S k) p 0 h) as [out evs] eqn:Hrun.
  exists out, evs. split; [done|]. split; [done|].
  intros ->. by eapply indexTerms_from_pages.
Qed.

End TermsIndexerFacts.

(** ** The search-index client *)

Section OpenSearchClientFacts.
Import OpenSearchClient.
Variable srv : server.
Variable closeScrollResponseSchema : value → option value.
Variable percolateResponseSchema : value → option (list PercolateHit).
Variable putDocumentItemResponseSchema : value → option value.

Lemma returned_hits_app h evs1 evs2 :
  returned_hits srv h (evs1 ++ evs2)
  = returned_hits srv h evs1 ++ returned_hits srv (h ++ evs1) evs2.
Proof. unfold returned_hits. by rewrite replies_app, omap_app, concat_app. Qed.

Lemma replies_handled h (hits : list value) : replies srv h (Handled <$> hits) = [].
Proof. revert h. induction hits as [|x hits IH]; intros h; simpl; [done|apply IH]. Qed.

Lemma handled_handled (hits : list value) : handled (Handled <$> hits) = hits.
Proof. induction hits as [|x hits IH]; [done|]. unfold handled in *. simpl. f_equal. exact IH. Qed.

(** A page of handler calls: the handler saw a prefix of the page, all of it
    when the page resolved, and the promise settled. *)
Lemma pMap_all_events f hits h :
  ∃ o, pMap_all f hits h = (o, Handled <$> hits) ∧ settled o.
Proof.
  revert h. induction hits as [|x hits IH]; intros h; simpl.
  - by exists (Return tt).
  - unfold call_handler.
    destruct (IH (h ++ [Handled x])) as (o' & Heq & Ho'). rewrite Heq.
    destruct (f h x) as [e|].
    + by exists (Throw e).
    + by exists o'.
Qed.

Lemma pMap_one_events f hits h :
  ∃ o hs, pMap_one f hits h = (o, Handled <$> hs)
          ∧ hs `prefix_of` hits ∧ settled o ∧ (o = Return tt → hs = hits).
Proof.
  revert h. induction hits as [|x hits IH]; intros h; simpl.
  - exists (Return tt), []. by io_unfold.
  - unfold mbind, io_mbind, io_bind, call_handler.
    destruct (f h x) as [e|].
    + exists (Throw e), [x]. repeat split; [|done]. by exists hits.
    + destruct (IH (h ++ [Handled x])) as (o & hs & -> & Hpre & Ho & Hall).
      exists o, (x :: hs). split; [done|]. split; [by apply prefix_cons|].
      split; [done|]. intros ->. by rewrite Hall.
Qed.

Lemma pMap_events hits f options h :
  ∃ o hs, pMap hits f options h = (o, Handled <$> hs)
          ∧ hs `prefix_of` hits ∧ settled o ∧ (o = Return tt → hs = hits).
Proof.
  unfold pMap.
  destruct (options ≫= concurrency) as [[]|];
    try apply pMap_one_events;
    destruct (pMap_all_events f hits h) as (o & -> & Ho);
    exists o, hits; done.
Qed.

(** What the events of the scan loop can be. *)
Definition scan_event (p : scrollMap_params) (scrollId : string) (e : event) : Prop :=
  match e with
  | Sent r => r = nextScroll_request (esUrl p) scrollId 60
  | Handled _ => True
  | Callback _ _ => False
  end.

(** One turn of the scan loop on a page that has hits. *)
Lemma scroll_loop_turn fuel p scrollId x hits h :
  let next := nextScroll_request (esUrl p) scrollId 60 in
  scroll_loop srv (S fuel) p scrollId (x :: hits) h =
  let '(o1, evs1) := pMap (x :: hits) (handler p) (pMapOptions p) h in
  match o1 with
  | Return _ =>
      match srv (h ++ evs1) next with
      | Reply status b =>
          if is_2xx status then
            match scrollResponseSchema b with
            | Some (_, hits') =>
                let '(o3, evs3) :=
                  scroll_loop srv fuel p scrollId hits' ((h ++ evs1) ++ [Sent next]) in
                (o3, evs1 ++ [Sent next] ++ evs3)
            | None => (Throw (ZodError b), evs1 ++ [Sent next])
            end
          else (Throw (HTTPError status b), evs1 ++ [Sent next])
      | Broken why => (Throw (RequestError why), evs1 ++ [Sent next])
      end
  | Throw e => (Throw e, evs1)
  | Uncaught e => (Uncaught e, evs1)
  | OutOfFuel => (OutOfFuel, evs1)
  end.
Proof.
  intros next. cbn [scroll_loop]. unfold mbind, io_mbind, io_bind.
  destruct (pMap (x :: hits) (handler p) (pMapOptions p) h) as [[[]|e|e|] evs1];
    try reflexivity.
  unfold nextScroll. rewrite got_body_eq by done. fold next.
  destruct (srv (h ++ evs1) next) as [status b|why]; [|reflexivity].
  destruct (is_2xx status); [|reflexivity].
  destruct (scrollResponseSchema b) as [[sid' hits']|].
  - by destruct (scroll_loop srv fuel p scrollId hits' _).
  - io_unfold. by rewrite app_nil_r.
Qed.

Lemma returned_hits_handled h (hits : list value) :
  returned_hits srv h (Handled <$> hits) = [].
Proof. unfold returned_hits. by rewrite replies_handled. Qed.

Lemma returned_hits_sent h r :
  rq_method r = POST → returned_hits srv h [Sent r] = scroll_page (srv h r).
Proof. intros Hr. unfold returned_hits. simpl. rewrite Hr. simpl. by rewrite app_nil_r. Qed.

(** A run of the scan loop: it is cut off or it settles; its requests are
    continuations with the one cursor; the handler saw a prefix of the hits
    the store returned, and all of them when the loop returned. *)
Lemma scroll_loop_run fuel p scrollId hits h o evs :
  scroll_loop srv fuel p scrollId hits h = (o, evs) →
  (o = OutOfFuel ∨ settled o)
  ∧ Forall (scan_event p scrollId) evs
  ∧ handled evs `prefix_of` hits ++ returned_hits srv h evs
  ∧ (o = Return tt → handled evs = hits ++ returned_hits srv h evs).
Proof.
  revert hits h o evs. induction fuel as [|fuel IH]; intros hits h o evs.
  - destruct hits; simpl; intros Hrun; injection Hrun as <- <-.
    + split; [by right|]. split; [by constructor|]. by split.
    + split; [by left|]. split; [by constructor|]. split; [apply prefix_nil|done].
  - destruct hits as [|x hits].
    { simpl. intros Hrun; injection Hrun as <- <-.
      split; [by right|]. split; [by constructor|]. by split. }
    rewrite scroll_loop_turn.
    set (next := nextScroll_request (esUrl p) scrollId 60).
    destruct (pMap_events (x :: hits) (handler p) (pMapOptions p) h)
      as (o1 & hs & -> & Hpre & Hset & Hall).
    assert (Forall (scan_event p scrollId) (Handled <$> hs)) as Hhs.
    { apply Forall_fmap, Forall_true. done. }
    assert (Forall (scan_event p scrollId) [Sent next]) as Hnext.
    { by constructor. }
    destruct o1 as [[]|e|e|]; try done.
    + specialize (Hall eq_refl) as ->.
      assert (handled (Handled <$> x :: hits) = x :: hits) as Hseen
        by apply handled_handled.
      assert (returned_hits srv h (Handled <$> x :: hits) = []) as Hnone
        by apply returned_hits_handled.
      remember (Handled <$> x :: hits) as evs1 eqn:Hevs1. clear Hevs1.
      set (h1 := h ++ evs1).
      assert (∀ evs3,
                handled (evs1 ++ Sent next :: evs3) = (x :: hits) ++ handled evs3)
        as Hhandled.
      { intros evs3. by rewrite handled_app, Hseen. }
      assert (∀ evs3,
                returned_hits srv h (evs1 ++ Sent next :: evs3)
                = scroll_page (srv h1 next)
                  ++ returned_hits srv (h1 ++ [Sent next]) evs3) as Hreturned.
      { intros evs3. change (Sent next :: evs3) with ([Sent next] ++ evs3).
        by rewrite !returned_hits_app, Hnone, returned_hits_sent. }
      assert (∀ e, scroll_page (srv h1 next) = [] →
                (@Throw unit e = OutOfFuel ∨ settled (@Throw unit e))
                ∧ Forall (scan_event p scrollId) (evs1 ++ [Sent next])
                ∧ handled (evs1 ++ [Sent next])
                    `prefix_of` (x :: hits)
                       ++ returned_hits srv h (evs1 ++ [Sent next])
                ∧ (@Throw unit e = Return tt →
                   handled (evs1 ++ [Sent next])
                   = (x :: hits) ++ returned_hits srv h (evs1 ++ [Sent next])))
        as Hfailed.
      { intros e Hpage. split; [by right|]. split; [by apply Forall_app_2|].
        split; [|done].
        rewrite Hhandled, Hreturned, Hpage. simpl.
        unfold returned_hits. simpl. by rewrite !app_nil_r. }
      unfold scroll_page in Hfailed, Hreturned. fold h1.
      destruct (srv h1 next) as [status b|why].
      * destruct (is_2xx status).
        -- destruct (scrollResponseSchema b) as [[sid' hits']|].
           ++ destruct (scroll_loop srv fuel p scrollId hits' (h1 ++ [Sent next]))
                as [o3 evs3] eqn:Hrest.
              destruct (IH _ _ _ _ Hrest) as (Ho3 & Hevs3 & Hpre3 & Hhits3).
              intros Hrun; injection Hrun as <- <-.
              split; [done|].
              split; [apply Forall_app_2; [done|by constructor]|].
              change ([Sent next] ++ evs3) with (Sent next :: evs3).
              rewrite Hhandled, Hreturned. split.
              ** by apply prefix_app.
              ** intros ->. by rewrite (Hhits3 eq_refl).
           ++ intros Hrun; injection Hrun as <- <-. by apply Hfailed.
        -- intros Hrun; injection Hrun as <- <-. by apply Hfailed.
      * intros Hrun; injection Hrun as <- <-. by apply Hfailed.
    + intros Hrun; injection Hrun as <- <-.
      split; [by right|]. split; [done|]. split; [|done].
      rewrite handled_handled, returned_hits_handled, app_nil_r. done.
Qed.

(** Closing is one call of the transport: the DELETE, sent again while the
    store answers with a failure that is retried, three times at most; the
    promise settles whatever the store answers. *)
Lemma closeScroll_events prefixUrl scrollId h :
  let close := closeScroll_request prefixUrl scrollId in
  ∃ o n, (closeScroll srv closeScrollResponseSchema prefixUrl scrollId ≫= λ _, mret tt) h
         = (o, replicate (S n) (Sent close))
         ∧ settled o
         ∧ n ≤ 2
         ∧ (∀ j, j < n → retried (srv (h ++ replicate j (Sent close)) close) = true).
Proof.
  intros close. unfold closeScroll, mbind, io_mbind, io_bind.
  rewrite got_body_exchange. fold close.
  destruct (exchange_run srv close h) as (n & Hn & -> & Hearlier & _).
  cbn [fst snd].
  destruct (srv _ close) as [status b|why]; [|by eexists _, n].
  destruct (is_2xx status); [|by eexists _, n].
  destruct (closeScrollResponseSchema b); io_unfold; rewrite ?app_nil_r;
    by eexists _, n.
Qed.

Lemma closes_none evs :
  Forall (λ e, ∀ r, e = Sent r → rq_method r ≠ DELETE) evs → closes evs = [].
Proof.
  unfold closes. induction 1 as [|e evs He _ IH]; [done|].
  destruct e as [r| |]; simpl; [|done..].
  rewrite filter_cons_False; [done|]. by apply He.
Qed.

Lemma closes_replicate n r :
  rq_method r = DELETE → closes (replicate n (Sent r)) = replicate n r.
Proof.
  intros Hdelete. unfold closes. induction n as [|n IH]; [done|].
  simpl. rewrite filter_cons_True by done. by rewrite IH.
Qed.

Lemma returned_pages_app h evs1 evs2 :
  returned_pages srv h (evs1 ++ evs2)
  = returned_pages srv h evs1 ++ returned_pages srv (h ++ evs1) evs2.
Proof. unfold returned_pages. by rewrite replies_app, omap_app. Qed.

Lemma returned_pages_handled h (hits : list value) :
  returned_pages srv h (Handled <$> hits) = [].
Proof. unfold returned_pages. by rewrite replies_handled. Qed.

Lemma returned_pages_closes h n r :
  rq_method r = DELETE → returned_pages srv h (replicate n (Sent r)) = [].
Proof.
  intros Hdelete. revert h. induction n as [|n IH]; intros h; [done|].
  unfold returned_pages in *. simpl. rewrite Hdelete. apply IH.
Qed.

Lemma handled_replicate_sent n r : handled (replicate n (Sent r)) = [].
Proof. by induction n. Qed.

Lemma returned_pages_sent h r :
  rq_method r = POST → returned_pages srv h [Sent r] = [scroll_page (srv h r)].
Proof. intros Hpost. unfold returned_pages. simpl. by rewrite Hpost. Qed.

(** A loop that returns was handed an empty page last. *)
Lemma scroll_loop_last_page p scrollId fuel :
  ∀ hits h evs,
    scroll_loop srv fuel p scrollId hits h = (Return tt, evs) →
    last (hits :: returned_pages srv h evs) = Some [].
Proof.
  induction fuel as [|fuel IH]; intros hits h evs Hrun.
  - destruct hits; [|done]. by injection Hrun as <-.
  - destruct hits as [|x hits]; [by injection Hrun as <-|].
    rewrite scroll_loop_turn in Hrun.
    destruct (pMap_events (x :: hits) (handler p) (pMapOptions p) h)
      as (o1 & hs & Hpage & _ & _ & _).
    rewrite Hpage in Hrun. destruct o1 as [[]|e|e|]; try done.
    destruct (srv _ _) as [status b|why] eqn:Hrep; [|done].
    destruct (is_2xx status) eqn:Hok; [|done].
    destruct (scrollResponseSchema b) as [[scrollId' hits']|] eqn:Hparse; [|done].
    destruct (scroll_loop srv fuel p scrollId hits' _) as [o3 evs3] eqn:Hloop.
    injection Hrun as -> <-.
    rewrite returned_pages_app, returned_pages_handled, app_nil_l.
    change (Sent (nextScroll_request (esUrl p) scrollId 60) :: evs3)
      with ([Sent (nextScroll_request (esUrl p) scrollId 60)] ++ evs3).
    rewrite returned_pages_app.
    assert (returned_pages srv (h ++ (Handled <$> hs))
              [Sent (nextScroll_request (esUrl p) scrollId 60)] = [hits']) as ->.
    { rewrite returned_pages_sent by done. unfold scroll_page.
      by rewrite Hrep, Hok, Hparse. }
    apply (IH hits' _ evs3 Hloop).
Qed.

(** The exits of a scan that holds an opened scroll. *)
Lemma scrollMap_exit fuel p h status b scrollId hits out evs :
  let open := openScroll_request (esUrl p) (index p)
                (default no_scroll_options (scrollOptions p)) in
  let close := closeScroll_request (esUrl p) scrollId in
  srv h open = Reply status b →
  is_2xx status = true →
  scrollResponseSchema b = Some (scrollId, hits) →
  scrollMap srv closeScrollResponseSchema fuel p h = (out, evs) →
  out ≠ OutOfFuel →
  (∃ scan n,
     evs = Sent open :: scan ++ replicate (S n) (Sent close)
     ∧ closes evs = replicate (S n) close
     ∧ n ≤ 2
     ∧ (∀ j, j < n →
             retried (srv (h ++ Sent open :: scan ++ replicate j (Sent close)) close)
             = true))
  ∧ settled out
  ∧ handled evs `prefix_of` returned_hits srv h evs
  ∧ (out = Return tt →
     handled evs = returned_hits srv h evs
     ∧ last (returned_pages srv h evs) = Some []).
Proof.
  intros open close Hrep Hok Hparse.
  unfold scrollMap, openScroll, mbind, io_mbind. unfold io_bind at 1.
  rewrite got_body_eq by done. fold open. rewrite Hrep, Hok, Hparse.
  unfold try_finally.
  destruct (scroll_loop srv fuel p scrollId hits (h ++ [Sent open]))
    as [o1 evs1] eqn:Hloop.
  destruct (scroll_loop_run _ _ _ _ _ _ _ Hloop) as (Ho1 & Hscan & Hprefix & Hhits).
  assert (Forall (λ e, ∀ r, e = Sent r → rq_method r ≠ DELETE) evs1) as Hnodel.
  { eapply Forall_impl; [exact Hscan|]. intros [r| |] He r' [= <-]. by rewrite He. }
  destruct (closeScroll_events (esUrl p) scrollId ((h ++ [Sent open]) ++ evs1))
    as (o2 & n & Hclose & Ho2 & Hn & Hretried).
  fold close in Hclose, Hretried. unfold mbind, io_mbind in Hclose.
  set (closing := replicate (S n) (Sent close)) in *.
  assert (returned_pages srv h (Sent open :: evs1 ++ closing)
          = hits :: returned_pages srv (h ++ [Sent open]) evs1) as Hpages.
  { change (Sent open :: evs1 ++ closing) with ([Sent open] ++ evs1 ++ closing).
    rewrite !returned_pages_app.
    unfold closing. rewrite (returned_pages_closes _ _ close) by done.
    rewrite returned_pages_sent by done. unfold scroll_page.
    by rewrite Hrep, Hok, Hparse, app_nil_r. }
  assert (returned_hits srv h (Sent open :: evs1 ++ closing)
          = hits ++ returned_hits srv (h ++ [Sent open]) evs1) as Hret.
  { change (returned_hits srv h (Sent open :: evs1 ++ closing))
      with (concat (returned_pages srv h (Sent open :: evs1 ++ closing))).
    by rewrite Hpages. }
  assert (handled (Sent open :: evs1 ++ closing) = handled evs1) as Hhan.
  { change (Sent open :: evs1 ++ closing) with ([Sent open] ++ evs1 ++ closing).
    rewrite !handled_app. unfold closing.
    by rewrite handled_replicate_sent, app_nil_r. }
  assert (handled (Sent open :: evs1 ++ closing)
            `prefix_of` returned_hits srv h (Sent open :: evs1 ++ closing))
    as Hseen.
  { by rewrite Hhan, Hret. }
  assert (closes ([Sent open] ++ evs1 ++ closing) = replicate (S n) close) as Hone.
  { unfold closes. rewrite !sent_app, !filter_app.
    fold (closes evs1) (closes closing). rewrite (closes_none _ Hnodel).
    unfold closing. by rewrite closes_replicate. }
  assert (∃ scan n0,
            [Sent open] ++ evs1 ++ closing
            = Sent open :: scan ++ replicate (S n0) (Sent close)
            ∧ closes ([Sent open] ++ evs1 ++ closing) = replicate (S n0) close
            ∧ n0 ≤ 2
            ∧ (∀ j, j < n0 →
                    retried (srv (h ++ Sent open :: scan ++ replicate j (Sent close))
                               close) = true)) as Hshape.
  { exists evs1, n. split; [done|]. split; [exact Hone|]. split; [done|].
    intros j Hj. specialize (Hretried j Hj).
    by rewrite <- !app_assoc in Hretried. }
  destruct o1 as [[]|e|e|]; [| |by destruct Ho1|].
  - rewrite Hclose.
    destruct o2 as [[]|e2|e2|]; try done; intros Hrun _;
      injection Hrun as <- <-.
    + split; [exact Hshape|]. split; [done|]. split; [exact Hseen|]. intros _.
      change ([Sent open] ++ evs1 ++ closing) with (Sent open :: evs1 ++ closing).
      rewrite Hhan, Hret, Hpages. split; [by apply Hhits|].
      by apply (scroll_loop_last_page p scrollId fuel).
    + split; [exact Hshape|]. split; [done|]. split; [exact Hseen|done].
  - rewrite Hclose.
    destruct o2 as [[]|e2|e2|]; try done; intros Hrun _;
      injection Hrun as <- <-;
      (split; [exact Hshape|]; split; [done|]; split; [exact Hseen|done]).
  - by intros [= <- _].
Qed.

Lemma continuations_app h evs :
  continuations (h ++ evs) = continuations h + continuations evs.
Proof. unfold continuations. by rewrite sent_app, filter_app, length_app. Qed.

Lemma continuations_handled (hits : list value) : continuations (Handled <$> hits) = 0.
Proof. induction hits as [|x hits IH]; [done|exact IH]. Qed.

(** When the store has only so many pages, the loop needs only so many
    turns. *)
Lemma scroll_loop_ends p scrollId n :
  (∀ h, n ≤ continuations h →
        scroll_page (srv h (nextScroll_request (esUrl p) scrollId 60)) = []) →
  ∀ k hits h, n ≤ continuations h + k →
    fst (scroll_loop srv (S k) p scrollId hits h) ≠ OutOfFuel.
Proof.
  intros Hfinite k. induction k as [|k IH]; intros hits h Hk.
  - destruct hits as [|x hits]; [done|].
    cbn [scroll_loop]. unfold mbind, io_mbind, io_bind.
    destruct (pMap_events (x :: hits) (handler p) (pMapOptions p) h)
      as (o1 & hs & -> & _ & Hset & Hall).
    destruct o1 as [[]|e|e|]; try done.
    specialize (Hall eq_refl) as ->. unfold nextScroll. rewrite got_body_eq by done.
    set (h1 := h ++ (Handled <$> x :: hits)).
    assert (n ≤ continuations h1) as Hh1.
    { unfold h1. rewrite continuations_app, continuations_handled. lia. }
    specialize (Hfinite h1 Hh1). unfold scroll_page in Hfinite.
    destruct (srv h1 _) as [status b|why]; [|done].
    destruct (is_2xx status); [|done].
    destruct (scrollResponseSchema b) as [[sid' hits']|]; [|done].
    by rewrite Hfinite.
  - destruct hits as [|x hits]; [done|].
    change (scroll_loop srv (S (S k)) p scrollId (x :: hits))
      with (io_bind (λ _, io_bind (λ raw,
              match scrollResponseSchema raw with
              | None => throw (ZodError raw)
              | Some (_, hits') => scroll_loop srv (S k) p scrollId hits'
              end) (nextScroll srv (esUrl p) scrollId))
              (pMap (x :: hits) (handler p) (pMapOptions p))).
    unfold io_bind.
    destruct (pMap_events (x :: hits) (handler p) (pMapOptions p) h)
      as (o1 & hs & -> & _ & Hset & Hall).
    destruct o1 as [[]|e|e|]; try done.
    specialize (Hall eq_refl) as ->. unfold nextScroll. rewrite got_body_eq by done.
    set (h1 := h ++ (Handled <$> x :: hits)).
    destruct (srv h1 _) as [status b|why]; [|done].
    destruct (is_2xx status); [|done].
    destruct (scrollResponseSchema b) as [[sid' hits']|]; [|done].
    match goal with |- context [scroll_loop srv (S k) p scrollId hits' ?h2] =>
      assert (n ≤ continuations h2 + k) as Hh2;
      [|specialize (IH hits' h2 Hh2);
        destruct (scroll_loop srv (S k) p scrollId hits' h2) as [o3 evs3]]
    end.
    { unfold h1. rewrite !continuations_app, continuations_handled.
      change (continuations [Sent (nextScroll_request (esUrl p) scrollId 60)]) with 1.
      lia. }
    by destruct o3.
Qed.

Lemma scrollMap_ends fuel p h n status b scrollId hits :
  srv h (openScroll_request (esUrl p) (index p)
           (default no_scroll_options (scrollOptions p))) = Reply status b →
  is_2xx status = true →
  scrollResponseSchema b = Some (scrollId, hits) →
  (∀ h', n ≤ continuations h' →
         scroll_page (srv h' (nextScroll_request (esUrl p) scrollId 60)) = []) →
  n < fuel →
  fst (scrollMap srv closeScrollResponseSchema fuel p h) ≠ OutOfFuel.
Proof.
  intros Hrep Hok Hparse Hfinite Hfuel.
  destruct fuel as [|k]; [lia|].
  unfold scrollMap, openScroll, mbind, io_mbind. unfold io_bind at 1.
  rewrite got_body_eq by done. rewrite Hrep, Hok, Hparse. unfold try_finally.
  match goal with |- context [scroll_loop srv (S k) p scrollId hits ?h1] =>
    pose proof (scroll_loop_ends p scrollId n Hfinite k hits h1 ltac:(lia)) as Hloop;
    pose proof (scroll_loop_run (S k) p scrollId hits h1) as Hrun;
    destruct (scroll_loop srv (S k) p scrollId hits h1) as [o1 evs1]
  end.
  destruct (Hrun _ _ eq_refl) as ([->|Ho1] & _); [done|].
  match goal with |- context [io_bind ?k ?c ?h2] =>
    destruct (closeScroll_events (esUrl p) scrollId h2) as (o2 & n' & Hclose & Ho2 & _)
  end.
  unfold mbind, io_mbind in Hclose.
  destruct o1 as [[]|e|e|]; try done; rewrite Hclose; by destruct o2.
Qed.

(** C2. Once scrollMap holds an opened scroll (the open request was answered
    with a response that parses), every run that ends, with the handler
    resolving or rejecting, has made exactly one closeScroll call, last: the
    run ends with the close of the opened scroll, and these are the only
    DELETE requests of the run (one request, or the same request again, three
    at most, where the transport retries a close the store failed to
    answer).  The hits the handler was called on are, in order, the first of
    the hits the store returned page after page, so no hit is handled twice;
    a run that returns has called the handler on every hit of every page,
    and the last page it was returned is the empty one: the scan went on
    until the store had nothing left.  And the runs do end: when the store
    has no page left after [n] continuations, a run of more than [n] turns
    is not cut off. *)
Theorem scrollMap_closes_scroll_once p h status b scrollId hits :
  let open := openScroll_request (esUrl p) (index p)
                (default no_scroll_options (scrollOptions p)) in
  let close := closeScroll_request (esUrl p) scrollId in
  srv h open = Reply status b →
  is_2xx status = true →
  scrollResponseSchema b = Some (scrollId, hits) →
  (∀ fuel out evs,
     scrollMap srv closeScrollResponseSchema fuel p h = (out, evs) →
     out ≠ OutOfFuel →
     (∃ scan n,
        evs = Sent open :: scan ++ replicate (S n) (Sent close)
        ∧ closes evs = replicate (S n) close
        ∧ n ≤ 2
        ∧ (∀ j, j < n →
                retried (srv (h ++ Sent open :: scan ++ replicate j (Sent close)) close)
                = true))
     ∧ settled out
     ∧ handled evs `prefix_of` returned_hits srv h evs
     ∧ (out = Return tt →
        handled evs = returned_hits srv h evs
        ∧ last (returned_pages srv h evs) = Some []))
  ∧ (∀ n fuel,
       (∀ h', n ≤ continuations h' →
              scroll_page (srv h' (nextScroll_request (esUrl p) scrollId 60)) = []) →
       n < fuel →
       fst (scrollMap srv closeScrollResponseSchema fuel p h) ≠ OutOfFuel).
Proof.
  intros open close Hrep Hok Hparse. split.
  - intros fuel out evs. by apply scrollMap_exit with status b hits.
  - intros n fuel Hfinite Hfuel. by apply scrollMap_ends with n status b scrollId hits.
Qed.

(** Every continuation of the scan carries the cursor that openScroll
    returned. *)
Lemma scrollMap_requests fuel p h status b scrollId hits :
  let open := openScroll_request (esUrl p) (index p)
                (default no_scroll_options (scrollOptions p)) in
  srv h open = Reply status b →
  is_2xx status = true →
  scrollResponseSchema b = Some (scrollId, hits) →
  ∀ r, r ∈ sent (snd (scrollMap srv closeScrollResponseSchema fuel p h)) →
       r = open
       ∨ r = nextScroll_request (esUrl p) scrollId 60
       ∨ r = closeScroll_request (esUrl p) scrollId.
Proof.
  intros open Hrep Hok Hparse r.
  unfold scrollMap, openScroll, mbind, io_mbind. unfold io_bind at 1.
  rewrite got_body_eq by done. fold open. rewrite Hrep, Hok, Hparse.
  unfold try_finally.
  destruct (scroll_loop srv fuel p scrollId hits (h ++ [Sent open]))
    as [o1 evs1] eqn:Hloop.
  destruct (scroll_loop_run _ _ _ _ _ _ _ Hloop) as (_ & Hscan & _ & _).
  destruct (closeScroll_events (esUrl p) scrollId ((h ++ [Sent open]) ++ evs1))
    as (o2 & n & Hclose & _).
  unfold mbind, io_mbind in Hclose.
  assert (∀ k,
            r ∈ sent ([Sent open] ++ evs1
                      ++ replicate k (Sent (closeScroll_request (esUrl p) scrollId))) →
            r = open ∨ r = nextScroll_request (esUrl p) scrollId 60
            ∨ r = closeScroll_request (esUrl p) scrollId) as Hall.
  { intros k. rewrite !sent_app, !elem_of_app.
    intros [Hin|[Hin|Hin]].
    - left. simpl in Hin. by apply list_elem_of_singleton in Hin.
    - right; left. unfold sent in Hin. apply list_elem_of_omap in Hin as (e & He & Hr).
      rewrite Forall_forall in Hscan. specialize (Hscan e He).
      destruct e; simplify_eq. exact Hscan.
    - right; right. unfold sent in Hin. apply list_elem_of_omap in Hin as (e & He & Hr).
      apply elem_of_replicate in He as [-> _]. by injection Hr as <-. }
  destruct o1 as [[]|e|e|]; simpl.
  - rewrite Hclose. destruct o2; simpl; apply (Hall (S n)).
  - rewrite Hclose. destruct o2; simpl; apply (Hall (S n)).
  - intros Hin. apply (Hall 0). by rewrite app_nil_r.
  - intros Hin. apply (Hall 0). by rewrite app_nil_r.
Qed.

(** C5. A percolate response that parses is mapped hit by hit: as many
    records as hits, none for a response without hits, the record of a hit
    holding the label, uri, source_terminology and namedGraphUri read from that
    hit's stored query document.  The request asks for the window the caller
    gave and, where the caller gave none, for from = 0 and size = 300. *)
Theorem percolateDocumentFields_maps_hits prefixUrl termsIndexName fields options
    h status b hits :
  let req := percolate_request prefixUrl termsIndexName fields
               (default no_percolate_options options) in
  let tags := (λ hit, {| label := source_query_multi_match_query hit;
                         uri := source_uri hit;
                         source_terminology := source_source_terminology hit;
                         namedGraphUri := source_namedGraphUri hit |}) <$> hits in
  srv h req = Reply status b →
  is_2xx status = true →
  percolateResponseSchema b = Some hits →
  percolateDocumentFields srv percolateResponseSchema prefixUrl termsIndexName
    fields options h = (Return tags, [Sent req])
  ∧ length tags = length hits
  ∧ (hits = [] → tags = [])
  ∧ (∀ i hit, hits !! i = Some hit →
       ∃ tag, tags !! i = Some tag
              ∧ label tag = source_query_multi_match_query hit
              ∧ uri tag = source_uri hit
              ∧ source_terminology tag = source_source_terminology hit
              ∧ namedGraphUri tag = source_namedGraphUri hit)
  ∧ (∃ query, rq_payload req =
       JsonBody (VObj [("query", query);
                       ("from", VNum (default 0%Z (options ≫= percolate_from)));
                       ("size", VNum (default 300%Z (options ≫= percolate_size)))])).
Proof.
  intros req tags Hrep Hok Hparse.
  split; [|split; [|split; [|split]]].
  - unfold percolateDocumentFields, mbind, io_mbind, io_bind, try_catch.
    rewrite got_body_eq by done. fold req. rewrite Hrep, Hok, Hparse.
    io_unfold. by rewrite app_nil_r.
  - unfold tags. by rewrite length_fmap.
  - by intros ->.
  - intros i hit Hi. unfold tags. rewrite list_lookup_fmap, Hi. simpl. eauto 10.
  - unfold req, percolate_request. destruct options as [[from size]|]; simpl; eauto.
Qed.

End OpenSearchClientFacts.

(** ** Failures of the stores *)

Section UpstreamFailure.
Variable srv : server.
Variable is_url : string → bool.
Variable putDocumentItemResponseSchema : value → option value.

Lemma not_2xx_not_200 status : is_2xx status = false → (status =? 200)%Z = false.
Proof. unfold is_2xx. destruct (status =? 200)%Z eqn:E; [|done]. lia. Qed.

Lemma createIndex_eq prefixUrl index indexBody h :
  let req := OpenSearchClient.createIndex_request prefixUrl index indexBody in
  OpenSearchClient.createIndex srv prefixUrl index indexBody h =
  (match (exchange srv req h).1 with
   | Reply status b =>
       if (status =? 200)%Z then Return tt
       else match get b ["error"; "type"] with
            | VUndefined => Throw (Error (UnexpectedResponse status b))
            | VStr type =>
                if String.eqb type "resource_already_exists_exception" then Return tt
                else Throw (Error (ErrorType (VStr type)))
            | errorMessage => Throw (Error (ErrorType errorMessage))
            end
   | Broken why => Throw (RequestError why)
   end, (exchange srv req h).2).
Proof.
  intros req.
  unfold OpenSearchClient.createIndex, mbind, io_mbind, io_bind.
  rewrite got_response_exchange. fold req.
  destruct (exchange srv req h).1 as [status b|why]; [|done].
  destruct (status =? 200)%Z; [io_unfold; by rewrite app_nil_r|].
  destruct (get b ["error"; "type"]) as [| | | |ty| |];
    try (io_unfold; by rewrite app_nil_r).
  destruct (ty =? _)%string; io_unfold; by rewrite app_nil_r.
Qed.

Lemma putDocumentItem_eq prefixUrl documentItem h :
  let req := OpenSearchClient.putDocumentItem_request prefixUrl documentItem in
  let rawResponse := match srv h req with
                     | Reply status b => if is_2xx status then b else VUndefined
                     | Broken _ => VUndefined
                     end in
  OpenSearchClient.putDocumentItem srv putDocumentItemResponseSchema
    prefixUrl documentItem h =
  (match putDocumentItemResponseSchema rawResponse with
   | Some r => Return r
   | None => Throw (ZodError rawResponse)
   end, [Sent req]).
Proof.
  simpl.
  unfold OpenSearchClient.putDocumentItem, mbind, io_mbind, io_bind, try_catch.
  rewrite got_body_eq by done.
  destruct (srv h _) as [status b|why].
  - destruct (is_2xx status); io_unfold;
      match goal with |- context [putDocumentItemResponseSchema ?v] =>
        destruct (putDocumentItemResponseSchema v) end; by rewrite ?app_nil_r.
  - io_unfold. by destruct (putDocumentItemResponseSchema VUndefined).
Qed.

(** The message of the error [createIndex] throws: lodash [get] with a
    default, which stands in when [error.type] is undefined. *)
Definition createIndex_message (status : Z) (b : value) : message :=
  match get b ["error"; "type"] with
  | VUndefined => UnexpectedResponse status b
  | type => ErrorType type
  end.


End UpstreamFailure.

(** ** The search document builder *)

Section SearchBuilderFacts.
Import SearchBuilder.

(** The options of the builder's test. *)
Definition full_options : SearchOptions :=
  {| keywords := ["ocean"; "sea"];
     fields := ["title"];
     terms := ["alpha"];
     termURIs := ["uri://alpha"];
     from := VNum 0;
     size := VNum 20;
     refereed := VBool true;
     endorsed := VBool true;
     sort := ["title:asc"];
     synonyms := VUndefined |}.

(** The document the test expects. *)
Definition full_document : value :=
  VObj [("from", VNum 0);
        ("size", VNum 20);
        ("query", VObj [("bool", VObj [
           ("must", VObj [("query_string", VObj [
              ("fields", VArr [VStr "title"]);
              ("query", VStr (" " +:+ DQUOTE +:+ "ocean" +:+ DQUOTE +:+ "  "
                              +:+ DQUOTE +:+ "sea" +:+ DQUOTE))])]);
           ("filter", VArr [
              VObj [("nested", VObj [("path", VStr "_terms");
                 ("query", VObj [("match", VObj [("_terms.label", VStr "alpha")])])])];
              VObj [("nested", VObj [("path", VStr "_terms");
                 ("query", VObj [("match", VObj [("_terms.uri", VStr "uri://alpha")])])])];
              VObj [("exists", VObj [("field", VStr "dc_description_refereed")])];
              VObj [("exists", VObj [("field",
                 VStr "obps_endorsementExternal_externalEndorsedBy")])]])])]);
        ("highlight", VObj [("fields", VObj [("_bitstreamText", VObj [])])]);
        ("sort", VArr [VObj [("title", VStr "asc")]; VStr "_score"]);
        ("_source", VObj [("excludes",
           VArr [VStr "_bitstreamText"; VStr "bitstreams"; VStr "metadata"])])].

(** The [filter] array of the search document is the list of filter
    clauses. *)
Lemma buildSearchDocument_filter options :
  get (buildSearchDocument options) ["query"; "bool"; "filter"]
  = VArr (filters options).
Proof.
  unfold buildSearchDocument, buildDocumentSearchQuery.
  by destruct (keywords options).
Qed.

Lemma buildDocumentSearchQuery_full_document :
  buildDocumentSearchQuery full_options = full_document.
Proof. vm_compute. reflexivity. Qed.

(** C4. For the options of the test the builder's [must] clause is a query
    string over the field [title] that holds the two keywords as quoted
    phrases; its [filter] array has exactly four clauses, in the order nested
    term label, nested term uri, refereed exists, endorsed exists; its sort
    list is the pair [title: asc] followed by [_score]; and its
    [_source.excludes] holds the extracted-text field and the bitstream and
    metadata fields. *)
Theorem buildDocumentSearchQuery_full_search_document :
  let q := buildDocumentSearchQuery full_options in
  get q ["query"; "bool"; "must"] =
    VObj [("query_string", VObj [
       ("fields", VArr [VStr "title"]);
       ("query", VStr (join " " [" " +:+ DQUOTE +:+ "ocean" +:+ DQUOTE;
                                 " " +:+ DQUOTE +:+ "sea" +:+ DQUOTE]))])]
  ∧ get q ["query"; "bool"; "filter"] =
      VArr [nested_filter "_terms.label" "alpha";
            nested_filter "_terms.uri" "uri://alpha";
            exists_filter "dc_description_refereed";
            exists_filter "obps_endorsementExternal_externalEndorsedBy"]
  ∧ get q ["sort"] = VArr [VObj [("title", VStr "asc")]; VStr "_score"]
  ∧ get q ["_source"; "excludes"] =
      VArr [VStr "_bitstreamText"; VStr "bitstreams"; VStr "metadata"].
Proof. repeat split; vm_compute; reflexivity. Qed.

End SearchBuilderFacts.

(** ** The keyword-search handler *)

Section SearchHandlerFacts.
Import SearchHandler.
Variable srv : server.
Variable getStringFromEnv : string → outcome string.
Variable defaultSearchFields : list string.
Variable ontOpts : ontology_options.
Variable buildSearchDocument_of_values : SearchOptions → list value → outcome value.

(** C6. With the deployment's two environment variables set, a request whose
    parameter set is missing, or is empty, or has no [keywords] gets the
    callback called once, without an error and with status 200 and the empty
    JSON object as body; no request goes to the index store. *)
Theorem handler_without_keywords event h documentsIndexName openSearchEndpoint :
  getStringFromEnv "DOCUMENTS_INDEX_NAME" = Return documentsIndexName →
  getStringFromEnv "OPEN_SEARCH_ENDPOINT" = Return openSearchEndpoint →
  queryStringParameters event = None
  ∨ queryStringParameters event = Some ∅
  ∨ (∃ params, queryStringParameters event = Some params
               ∧ params !! "keywords" = None) →
  handler srv getStringFromEnv defaultSearchFields ontOpts
    buildSearchDocument_of_values event h =
    (Return tt,
     [Callback None (Response 200 (JSON_stringify (VObj [])) responseHeaders)]).
Proof.
  intros Hindex Hendpoint Hparams.
  unfold handler. io_unfold. rewrite Hindex, Hendpoint.
  destruct Hparams as [-> | [-> | (params & -> & Hk)]]; [done| |].
  - by rewrite lookup_empty.
  - by rewrite Hk.
Qed.

(** The loop of getSynonyms sends one request after the other; the replies
    are those of the run. *)
Lemma send_all_eq rs h :
  send_all srv rs h = (Return ((replies srv h (Sent <$> rs)).*2), Sent <$> rs).
Proof.
  revert h. induction rs as [|r rs IH]; intros h; [done|].
  cbn [send_all]. unfold mbind, io_mbind, io_bind, send.
  rewrite IH. io_unfold. by rewrite app_nil_r.
Qed.

Lemma getSynonyms_eq ks h :
  let reqs := (λ k, synonyms_request ontOpts (buildSynonymsQuery k)) <$> ks in
  getSynonyms srv ontOpts ks h =
    (Promise_all (synonyms_settle <$> (replies srv h (Sent <$> reqs)).*2),
     Sent <$> reqs).
Proof.
  simpl. unfold getSynonyms, mbind, io_mbind, io_bind. rewrite send_all_eq.
  unfold lift. by rewrite app_nil_r.
Qed.

(** Promise.all fails as soon as one promise does not resolve. *)
Lemma Promise_all_fails {A} (settled : list (outcome A)) i o :
  settled !! i = Some o →
  (∀ a, o ≠ Return a) →
  ∀ results, Promise_all settled ≠ Return results.
Proof.
  revert i. induction settled as [|o' settled IH]; intros i Hi Hfail results; [done|].
  simpl. unfold mbind, outcome_mbind, outcome_bind.
  destruct i as [|i]; simpl in Hi.
  - injection Hi as ->. destruct o; try done. by destruct (Hfail a).
  - destruct o'; try done.
    destruct (Promise_all settled) eqn:Hall; try done.
    by destruct (IH i Hi Hfail a0).
Qed.

(** A read that succeeds is the read that never raises. *)
Lemma prop_get k v x : prop k v = Return x → x = get v [k].
Proof. destruct v; simpl; intros [= <-]; done. Qed.

Lemma get_two v k1 k2 : get v [k1; k2] = get (get v [k1]) [k2].
Proof. by destruct v. Qed.

(** What a row contributes: the annotation target under one of the two
    synonym labels, or the label of the equivalent concept when the row has
    no annotation-property label. *)
Definition contributes (r s : value) : Prop :=
  (is_synonym_label (get r ["annotatedPropertyLabel"; "value"]) = true
   ∧ s = get r ["annotatedTarget"; "value"])
  ∨ (get r ["annotatedPropertyLabel"] = VUndefined
     ∧ get r ["sameAsLabel"] ≠ VUndefined
     ∧ s = get r ["sameAsLabel"; "value"]).

Lemma undefined_or_not (v : value) : v = VUndefined ∨ v ≠ VUndefined.
Proof. destruct v; [by left|by right..]. Qed.

Lemma is_synonym_label_defined v :
  is_synonym_label (get v ["value"]) = true → v ≠ VUndefined.
Proof. by intros Hl ->. Qed.

Lemma synonyms_of_row_elem r pushed :
  synonyms_of_row r = Return pushed →
  ∀ s, s ∈ pushed ↔ contributes r s.
Proof.
  unfold synonyms_of_row, contributes, mbind, outcome_mbind, outcome_bind.
  rewrite !(get_two r).
  destruct (prop "annotatedPropertyLabel" r) as [label| | |] eqn:Hlabel; try done.
  apply prop_get in Hlabel as ->.
  destruct (undefined_or_not (get r ["annotatedPropertyLabel"])) as [Hnone|Hsome].
  - rewrite Hnone.
    destruct (prop "sameAsLabel" r) as [sameAs| | |] eqn:HsameAs; try done.
    apply prop_get in HsameAs as ->.
    destruct (undefined_or_not (get r ["sameAsLabel"])) as [Hno|Hyes].
    + rewrite Hno. intros [= <-] s. split; [by intros ?%elem_of_nil|].
      intros [[? _]|(_ & ? & _)]; done.
    + destruct (prop "value" (get r ["sameAsLabel"])) as [synonym| | |] eqn:Hvalue;
        [|by destruct (get r ["sameAsLabel"])..].
      apply prop_get in Hvalue as ->.
      assert (pushed = [get (get r ["sameAsLabel"]) ["value"]] →
              ∀ s, s ∈ pushed ↔
                   (is_synonym_label (get VUndefined ["value"]) = true
                    ∧ s = get (get r ["annotatedTarget"]) ["value"])
                   ∨ (VUndefined = VUndefined
                      ∧ get r ["sameAsLabel"] ≠ VUndefined
                      ∧ s = get (get r ["sameAsLabel"]) ["value"])) as Hpushed.
      { intros -> s. rewrite list_elem_of_singleton. split.
        - intros ->. by right.
        - intros [[? _]|(_ & _ & ->)]; done. }
      destruct (get r ["sameAsLabel"]); try done; intros [= <-]; by apply Hpushed.
  - destruct (prop "value" (get r ["annotatedPropertyLabel"])) as [l| | |] eqn:Hl;
      [|by destruct (get r ["annotatedPropertyLabel"])..].
    apply prop_get in Hl as ->.
    assert (∀ pushed',
              (if is_synonym_label (get (get r ["annotatedPropertyLabel"]) ["value"])
               then match prop "annotatedTarget" r with
                    | Return annotatedTarget =>
                        match prop "value" annotatedTarget with
                        | Return synonym => Return [synonym]
                        | Throw e => Throw e
                        | Uncaught e => Uncaught e
                        | OutOfFuel => OutOfFuel
                        end
                    | Throw e => Throw e
                    | Uncaught e => Uncaught e
                    | OutOfFuel => OutOfFuel
                    end
               else Return []) = Return pushed' →
              ∀ s, s ∈ pushed' ↔
                   (is_synonym_label (get (get r ["annotatedPropertyLabel"]) ["value"])
                    = true
                    ∧ s = get (get r ["annotatedTarget"]) ["value"])
                   ∨ (get r ["annotatedPropertyLabel"] = VUndefined
                      ∧ get r ["sameAsLabel"] ≠ VUndefined
                      ∧ s = get (get r ["sameAsLabel"]) ["value"])) as Hpushed.
    { intros pushed'.
      destruct (is_synonym_label _) eqn:Hsyn.
      - destruct (prop "annotatedTarget" r) as [target| | |] eqn:Htarget; try done.
        apply prop_get in Htarget as ->.
        destruct (prop "value" (get r ["annotatedTarget"])) as [synonym| | |] eqn:Hv;
          try done.
        apply prop_get in Hv as ->.
        intros [= <-] s. rewrite list_elem_of_singleton. split.
        + intros ->. by left.
        + intros [[_ ->]|(? & _)]; done.
      - intros [= <-] s. split; [by intros ?%elem_of_nil|].
        intros [[? _]|(? & _)]; done. }
    destruct (get r ["annotatedPropertyLabel"]); try done; apply Hpushed.
Qed.

(** What the rows of a response contribute. *)
Lemma synonyms_of_rows_elem rows found :
  synonyms_of_rows rows = Return found →
  ∀ s, s ∈ found ↔ ∃ r, r ∈ rows ∧ contributes r s.
Proof.
  revert found. induction rows as [|r rows IH]; intros found; simpl.
  - intros [= <-] s. split; [by intros ?%elem_of_nil|].
    by intros (r & ?%elem_of_nil & _).
  - unfold mbind, outcome_mbind, outcome_bind.
    destruct (synonyms_of_row r) as [pushed| | |] eqn:Hr; try done.
    destruct (synonyms_of_rows rows) as [rest| | |]; try done.
    intros [= <-] s. specialize (IH rest eq_refl s).
    rewrite elem_of_app, IH, (synonyms_of_row_elem r pushed Hr). clear IH.
    split.
    + intros [Hhere|(r' & Hin & Hpick)].
      * exists r. split; [by left|done].
      * exists r'. split; [by right|done].
    + intros (r' & Hin & Hpick). apply elem_of_cons in Hin as [->|Hin].
      * by left.
      * right. eauto.
Qed.

Lemma parseSynonymsResponse_rows body rows :
  get body ["results"; "bindings"] = VArr rows →
  parseSynonymsResponse body = synonyms_of_rows rows.
Proof.
  unfold parseSynonymsResponse, mbind, outcome_mbind, outcome_bind.
  destruct body as [| | | | | |fields]; try done. simpl.
  destruct (assoc "results" fields) as [| | | | | |results]; try done. simpl.
  by intros ->.
Qed.

Lemma Promise_all_Return {A} (results : list A) :
  Promise_all (Return <$> results) = Return results.
Proof.
  induction results as [|a results IH]; [done|].
  change (Return <$> a :: results) with (@Return A a :: (Return <$> results)).
  cbn [Promise_all]. unfold mbind, outcome_mbind, outcome_bind. by rewrite IH.
Qed.

Lemma Promise_all_not_cut_off {A} (settled : list (outcome A)) :
  Forall (λ o, o ≠ OutOfFuel) settled → Promise_all settled ≠ OutOfFuel.
Proof.
  induction 1 as [|o settled Ho _ IH]; [done|].
  simpl. unfold mbind, outcome_mbind, outcome_bind.
  destruct o; try done. by destruct (Promise_all settled).
Qed.

Lemma prop_outcome k v :
  match prop k v with Return _ | Throw _ => True | _ => False end.
Proof. by destruct v. Qed.

Lemma synonyms_of_row_outcome r :
  match synonyms_of_row r with Return _ | Throw _ => True | _ => False end.
Proof.
  unfold synonyms_of_row, mbind, outcome_mbind, outcome_bind.
  pose proof (prop_outcome "annotatedPropertyLabel" r) as Hlabel.
  pose proof (prop_outcome "sameAsLabel" r) as HsameAs.
  pose proof (prop_outcome "annotatedTarget" r) as Htarget.
  destruct (prop "annotatedPropertyLabel" r) as [label| | |]; try done.
  assert (match (if is_synonym_label
                      match prop "value" label with Return l => l | _ => VUndefined end
                 then match prop "annotatedTarget" r with
                      | Return annotatedTarget =>
                          match prop "value" annotatedTarget with
                          | Return synonym => Return [synonym]
                          | Throw e => Throw e
                          | Uncaught e => Uncaught e
                          | OutOfFuel => OutOfFuel
                          end
                      | Throw e => Throw e
                      | Uncaught e => Uncaught e
                      | OutOfFuel => OutOfFuel
                      end
                 else Return [])
          with Return _ | Throw _ => True | _ => False end) as Hpush.
  { destruct (is_synonym_label _); [|done].
    destruct (prop "annotatedTarget" r) as [target| | |]; try done.
    pose proof (prop_outcome "value" target). by destruct (prop "value" target). }
  pose proof (prop_outcome "value" label) as Hl.
  destruct label; try (destruct (prop "value" _); done).
  destruct (prop "sameAsLabel" r) as [sameAs| | |]; try done.
  pose proof (prop_outcome "value" sameAs) as Hs.
  destruct sameAs; try done; by destruct (prop "value" _).
Qed.

Lemma synonyms_of_rows_outcome rows :
  match synonyms_of_rows rows with
  | Return _ | Throw _ => True
  | _ => False
  end.
Proof.
  induction rows as [|r rows IH]; [done|].
  simpl. unfold mbind, outcome_mbind, outcome_bind.
  pose proof (synonyms_of_row_outcome r) as Hr.
  destruct (synonyms_of_row r); try done.
  by destruct (synonyms_of_rows rows).
Qed.

Lemma parseSynonymsResponse_outcome body :
  match parseSynonymsResponse body with
  | Return _ | Throw _ => True
  | _ => False
  end.
Proof.
  unfold parseSynonymsResponse, mbind, outcome_mbind, outcome_bind.
  pose proof (prop_outcome "results" body) as H1.
  destruct (prop "results" body) as [results| | |]; try done.
  pose proof (prop_outcome "bindings" results) as H2.
  destruct (prop "bindings" results) as [bindings| | |]; try done.
  destruct bindings; simpl; try done; apply synonyms_of_rows_outcome.
Qed.

Lemma synonyms_settle_not_cut_off rep : synonyms_settle rep ≠ OutOfFuel.
Proof.
  destruct rep as [status b|[]]; simpl; try done.
  pose proof (parseSynonymsResponse_outcome b).
  by destruct (parseSynonymsResponse b).
Qed.

Lemma search_and_respond_eq openSearchEndpoint documentsIndexName opts h :
  let search := search_request openSearchEndpoint documentsIndexName opts in
  search_and_respond srv openSearchEndpoint documentsIndexName opts h =
  match srv h search with
  | Reply status b =>
      if is_2xx status
      then (Return tt,
            [Sent search;
             Callback None (Response 200 (JSON_stringify b) responseHeaders)])
      else (Uncaught (HTTPError status b), [Sent search])
  | Broken why => (Uncaught (RequestError why), [Sent search])
  end.
Proof.
  simpl. unfold search_and_respond, floating, executeSearch, callback.
  unfold mbind, io_mbind, io_bind. rewrite got_body_eq by done.
  destruct (srv h _) as [status b|why]; [|done].
  destruct (is_2xx status); [|done]. by io_unfold.
Qed.

(** The keywords of the expanded search are strings exactly when the
    synonyms are. *)
Lemma mapM_keywords (ks : list string) (found : list value) :
  mapM z_string ((VStr <$> ks) ++ found) = (ks ++.) <$> mapM z_string found.
Proof.
  induction ks as [|k ks IH].
  - simpl. by destruct (mapM z_string found).
  - cbn [fmap list_fmap app mapM z_string mbind option_bind]. rewrite IH.
    by destruct (mapM z_string found).
Qed.

(** The handler once both variables of the environment are read and the
    parameters name keywords. *)
Lemma handler_search_eq event h documentsIndexName openSearchEndpoint params k :
  getStringFromEnv "DOCUMENTS_INDEX_NAME" = Return documentsIndexName →
  getStringFromEnv "OPEN_SEARCH_ENDPOINT" = Return openSearchEndpoint →
  queryStringParameters event = Some params →
  params !! "keywords" = Some k →
  let opts := parseParams defaultSearchFields params in
  let reqs := (λ k, synonyms_request ontOpts (buildSynonymsQuery k)) <$> keywords opts in
  let settled := synonyms_settle <$> (replies srv h (Sent <$> reqs)).*2 in
  handler srv getStringFromEnv defaultSearchFields ontOpts
    buildSearchDocument_of_values event h =
  if truthy (synonyms opts) then
    match Promise_all settled with
    | Return results =>
        match search_expanded_and_respond srv buildSearchDocument_of_values
                openSearchEndpoint documentsIndexName opts
                ((VStr <$> keywords opts) ++ concat results)
                (h ++ (Sent <$> reqs)) with
        | (Throw err, evs) =>
            (Return tt,
             (Sent <$> reqs) ++ evs
             ++ [Callback (Some err)
                   (Response 500 (JSON_stringify_err err) responseHeaders)])
        | (o, evs) => (o, (Sent <$> reqs) ++ evs)
        end
    | Throw err =>
        (Return tt,
         (Sent <$> reqs)
         ++ [Callback (Some err)
               (Response 500 (JSON_stringify_err err) responseHeaders)])
    | Uncaught err => (Uncaught err, Sent <$> reqs)
    | OutOfFuel => (OutOfFuel, Sent <$> reqs)
    end
  else search_and_respond srv openSearchEndpoint documentsIndexName opts h.
Proof.
  intros Hindex Hendpoint Hparams Hk opts reqs settled.
  unfold handler. io_unfold. rewrite Hindex, Hendpoint, Hparams, Hk.
  fold opts. destruct (truthy (synonyms opts)).
  - unfold try_catch. rewrite !app_nil_r.
    rewrite getSynonyms_eq. fold opts reqs settled.
    destruct (Promise_all settled) as [results|err|err|]; [|done..].
    destruct (search_expanded_and_respond _ _ _ _ _ _ _) as [[[]|err|err|] evs];
      try done.
    unfold callback, emit. cbn [app]. by rewrite <- app_assoc.
  - rewrite !app_nil_r.
    by destruct (search_and_respond srv openSearchEndpoint documentsIndexName opts h).
Qed.

(** The search after the expansion, when the synonyms are strings. *)
Lemma search_expanded_strings openSearchEndpoint documentsIndexName opts ks found found' h :
  mapM z_string found = Some found' →
  search_expanded_and_respond srv buildSearchDocument_of_values
    openSearchEndpoint documentsIndexName opts ((VStr <$> ks) ++ found) h
  = search_and_respond srv openSearchEndpoint documentsIndexName
      (with_keywords opts (ks ++ found')) h.
Proof.
  intros Hfound. unfold search_expanded_and_respond.
  by rewrite mapM_keywords, Hfound.
Qed.


Lemma exists_filter_elem field options :
  SearchBuilder.exists_filter field ∈ SearchBuilder.filters options ↔
  (field = SearchBuilder.refereed_field ∧ truthy (refereed options) = true)
  ∨ (field = SearchBuilder.endorsed_field ∧ truthy (endorsed options) = true).
Proof.
  unfold SearchBuilder.filters. rewrite !elem_of_app, !list_elem_of_fmap.
  split.
  - intros [(t & Heq & _)|[(t & Heq & _)|[Hin|Hin]]]; [done|done| |].
    + destruct (truthy (refereed options)); [|by apply elem_of_nil in Hin].
      apply list_elem_of_singleton in Hin. injection Hin as ->. by left.
    + destruct (truthy (endorsed options)); [|by apply elem_of_nil in Hin].
      apply list_elem_of_singleton in Hin. injection Hin as ->. by right.
  - intros [[-> ->]|[-> ->]].
    + right; right; left. by apply list_elem_of_singleton.
    + right; right; right. by apply list_elem_of_singleton.
Qed.

(** C10. Of a request's parameters, [endorsed] becomes the comparison of the
    parameter with the string [true], while [refereed] is the raw parameter
    whenever it is present.  So the endorsed-exists filter is in the search
    document exactly when the parameter is [true], and the refereed-exists
    filter is there exactly when the parameter is present and not the empty
    string: [refereed=false] adds the refereed filter, [endorsed=false] does
    not add the endorsed one. *)
Theorem parseParams_refereed_endorsed params :
  let opts := parseParams defaultSearchFields params in
  endorsed opts = VBool (bool_decide (params !! "endorsed" = Some "true"))
  ∧ refereed opts = from_option VStr (VBool false) (params !! "refereed")
  ∧ get (SearchBuilder.buildSearchDocument opts) ["query"; "bool"; "filter"]
    = VArr (SearchBuilder.filters opts)
  ∧ (SearchBuilder.exists_filter SearchBuilder.endorsed_field
       ∈ SearchBuilder.filters opts
     ↔ params !! "endorsed" = Some "true")
  ∧ (SearchBuilder.exists_filter SearchBuilder.refereed_field
       ∈ SearchBuilder.filters opts
     ↔ ∃ r, params !! "refereed" = Some r ∧ r ≠ "")
  ∧ (params !! "refereed" = Some "false" →
     SearchBuilder.exists_filter SearchBuilder.refereed_field
       ∈ SearchBuilder.filters opts)
  ∧ (params !! "endorsed" = Some "false" →
     SearchBuilder.exists_filter SearchBuilder.endorsed_field
       ∉ SearchBuilder.filters opts).
Proof.
  intros opts.
  assert (SearchBuilder.exists_filter SearchBuilder.endorsed_field
            ∈ SearchBuilder.filters opts
          ↔ params !! "endorsed" = Some "true") as Hendorsed.
  { rewrite exists_filter_elem. simpl. rewrite bool_decide_eq_true.
    split; [by intros [[? _]|[_ ?]]|by right]. }
  assert (SearchBuilder.exists_filter SearchBuilder.refereed_field
            ∈ SearchBuilder.filters opts
          ↔ ∃ r, params !! "refereed" = Some r ∧ r ≠ "") as Hrefereed.
  { rewrite exists_filter_elem. simpl.
    destruct (params !! "refereed") as [r|]; simpl.
    - destruct (String.eqb_spec r ""); simpl.
      + split; [by intros [[_ ?]|[? _]]|]. by intros (? & [= <-] & ?).
      + split; [eauto|by left].
    - split; [by intros [[_ ?]|[? _]]|]. by intros (? & ? & _). }
  split; [done|].
  split; [unfold opts; simpl; by destruct (params !! "refereed")|].
  split; [apply buildSearchDocument_filter|].
  split; [done|]. split; [done|]. split.
  - intros Hr. apply Hrefereed. by exists "false".
  - intros He. rewrite Hendorsed, He. done.
Qed.

End SearchHandlerFacts.

(* ===================================================================== *)
(** * Worked runs *)

(** ** A term listing of one page *)

Definition sparql_row (l u : string) : value :=
  VObj [("slabel", VObj [("type", VStr "literal"); ("value", VStr l)]);
        ("s", VObj [("type", VStr "uri"); ("value", VStr u)])].

Definition results_document (rows : list value) : value :=
  VObj [("head", VObj [("vars", VArr [VStr "s"; VStr "slabel"])]);
        ("results", VObj [("bindings", VArr rows)])].

(** The page of the specification's term-filtering example. *)
Definition example_page : value :=
  results_document [sparql_row "ok" "http://vocab.example/ok";
                    sparql_row "a" "http://vocab.example/a";
                    sparql_row "seawater" "http://vocab.example/seawater";
                    sparql_row "the" "http://vocab.example/the"].

Definition example_terms : list TermsIndexer.FetchedTerm :=
  [ {| TermsIndexer.label := "ok"; TermsIndexer.uri := "http://vocab.example/ok" |};
    {| TermsIndexer.label := "a"; TermsIndexer.uri := "http://vocab.example/a" |};
    {| TermsIndexer.label := "seawater";
       TermsIndexer.uri := "http://vocab.example/seawater" |};
    {| TermsIndexer.label := "the"; TermsIndexer.uri := "http://vocab.example/the" |} ].

Definition seawater : TermsIndexer.FetchedTerm :=
  {| TermsIndexer.label := "seawater";
     TermsIndexer.uri := "http://vocab.example/seawater" |}.

Definition example_params : TermsIndexer.CreateTermIndexParams :=
  {| TermsIndexer.elasticsearchUrl := "https://search.example";
     TermsIndexer.ontologyNameSpace := "http://vocab.example/";
     TermsIndexer.namedGraphUri := "http://vocab.example/graph";
     TermsIndexer.indexName := "terms";
     TermsIndexer.terminologyTitle := "Example Vocabulary";
     TermsIndexer.sparqlUrl := "https://graph.example/sparql";
     TermsIndexer.sparqlQuery := "SELECT ?s ?slabel WHERE { ?s rdfs:label ?slabel }";
     TermsIndexer.stopwords := ["the"] |}.

Definition example_fetch (offset : N) : request :=
  TermsIndexer.fetchTerms_request "https://graph.example/sparql"
    "SELECT ?s ?slabel WHERE { ?s rdfs:label ?slabel }" offset.

Definition form_of (r : request) : string :=
  match rq_payload r with FormBody query => query | _ => "" end.

(** A graph store whose listing is that one page: the query at offset 0 gets
    it, every other query gets no rows.  Bulk loads are accepted. *)
Definition example_graph : server := λ _ r,
  match rq_payload r with
  | FormBody query =>
      if String.eqb query (form_of (example_fetch 0))
      then Reply 200 example_page
      else Reply 200 (results_document [])
  | _ => Reply 200 (VObj [("errors", VBool false)])
  end.

Definition any_url : string → bool := λ _, true.

Lemma example_page_terms :
  TermsIndexer.fetchTermsResponseSchema any_url example_page = Some example_terms.
Proof. vm_compute. reflexivity. Qed.

(** Of the example page only [seawater] passes the filter: [ok] has two
    characters, and the filter asks for more than two. *)
Lemma example_page_valid_terms :
  filter (TermsIndexer.valid_term ["the"]) example_terms = [seawater].
Proof. vm_compute. reflexivity. Qed.

(** A label of two characters is refused whatever the bytes it takes. *)
Lemma short_labels_refused :
  filter (TermsIndexer.valid_term [])
    [ {| TermsIndexer.label := "海洋"; TermsIndexer.uri := "http://vocab.example/ocean" |};
      {| TermsIndexer.label := "°C"; TermsIndexer.uri := "http://vocab.example/celsius" |} ]
  = [].
Proof. vm_compute. reflexivity. Qed.

Lemma example_graph_run :
  TermsIndexer.indexTerms example_graph any_url 3 example_params [] =
  (Return tt,
   [Sent (example_fetch 0);
    Sent (TermsIndexer.bulk_request "https://search.example" [seawater]
            "terms" "Example Vocabulary" "http://vocab.example/graph");
    Sent (example_fetch 4)]).
Proof. vm_compute. reflexivity. Qed.

Lemma example_graph_finite h offset :
  (4 ≤ offset)%N →
  fst (TermsIndexer.fetchTerms example_graph any_url
         (TermsIndexer.sparqlUrl example_params)
         (TermsIndexer.sparqlQuery example_params) offset h) = Return [].
Proof.
  intros Hoffset. rewrite fetchTerms_eq. unfold example_graph.
  cbn [TermsIndexer.fetchTerms_request rq_payload fst].
  destruct (String.eqb_spec
              (LF +:+ TermsIndexer.sparqlQuery example_params +:+ LF +:+ "LIMIT 500"
               +:+ LF +:+ "OFFSET " +:+ pretty offset)
              (form_of (example_fetch 0))) as [Heq|_].
  - exfalso. unfold form_of, example_fetch in Heq.
    cbn [TermsIndexer.fetchTerms_request rq_payload] in Heq.
    do 6 apply (inj (String.app _)) in Heq.
    apply (inj pretty) in Heq. lia.
  - reflexivity.
Qed.

Lemma indexTerms_terminates_witness :
  ∃ out evs,
    TermsIndexer.indexTerms example_graph any_url 5 example_params [] = (out, evs)
    ∧ out ≠ OutOfFuel
    ∧ (out = Return tt →
       ∃ sizes, fetched example_graph any_url [] evs = (Some <$> sizes) ++ [Some 0]
                ∧ Forall (λ n, 0 < n) sizes).
Proof.
  apply (indexTerms_terminates example_graph any_url example_params 4%N
           example_graph_finite [] 5).
  vm_compute. lia.
Defined.

(** ** Scans *)

Definition scroll_response (scroll_id : string) (hits : list value) : value :=
  VObj [("_scroll_id", VStr scroll_id); ("hits", VObj [("hits", VArr hits)])].

Definition doc (id : string) : value :=
  VObj [("_index", VStr "documents"); ("_id", VStr id)].

Definition stale_cursor : value :=
  VObj [("error", VObj [("type", VStr "search_context_missing_exception")]);
        ("status", VNum 404)].

Definition scroll_freed : value :=
  VObj [("succeeded", VBool true); ("num_freed", VNum 1)].

(** An index of three documents, read one per page.  The scroll keeps its
    cursor [c0] from page to page. *)
Definition steady_store : server := λ h r,
  match rq_method r with
  | DELETE => Reply 200 scroll_freed
  | POST =>
      if String.eqb (rq_path r) "_search/scroll" then
        match continuations h with
        | 0 => Reply 200 (scroll_response "c0" [doc "b"])
        | 1 => Reply 200 (scroll_response "c0" [doc "c"])
        | _ => Reply 200 (scroll_response "c0" [])
        end
      else Reply 200 (scroll_response "c0" [doc "a"])
  | _ => Reply 405 VNull
  end.

(** The same index behind a store that issues a new cursor with every page
    and knows only the newest one. *)
Definition rotating_store : server := λ h r,
  match rq_method r with
  | DELETE => Reply 200 scroll_freed
  | POST =>
      if String.eqb (rq_path r) "_search/scroll" then
        match rq_payload r with
        | JsonBody json =>
            match get json ["scroll_id"], continuations h with
            | VStr "c0", 0 => Reply 200 (scroll_response "c1" [doc "b"])
            | VStr "c1", 1 => Reply 200 (scroll_response "c2" [doc "c"])
            | VStr "c2", 2 => Reply 200 (scroll_response "c3" [])
            | _, _ => Reply 404 stale_cursor
            end
        | _ => Reply 400 VNull
        end
      else Reply 200 (scroll_response "c0" [doc "a"])
  | _ => Reply 405 VNull
  end.

Definition accept_object : value → option value := λ v,
  match v with VObj _ => Some v | _ => None end.

Definition resolving : OpenSearchClient.hit_handler := λ _ _, None.

(** A handler that rejects on document [b]. *)
Definition rejecting_b : OpenSearchClient.hit_handler := λ _ hit,
  match get hit ["_id"] with
  | VStr "b" => Some (Raised (VStr "cannot handle b"))
  | _ => None
  end.

Definition example_scan (f : OpenSearchClient.hit_handler) : OpenSearchClient.scrollMap_params :=
  {| OpenSearchClient.esUrl := "https://search.example";
     OpenSearchClient.index := "documents";
     OpenSearchClient.handler := f;
     OpenSearchClient.pMapOptions := None;
     OpenSearchClient.scrollOptions := None |}.

Definition example_open : request :=
  OpenSearchClient.openScroll_request "https://search.example" "documents"
    OpenSearchClient.no_scroll_options.

Definition example_next (scrollId : string) : request :=
  OpenSearchClient.nextScroll_request "https://search.example" scrollId 60.

Definition example_close (scrollId : string) : request :=
  OpenSearchClient.closeScroll_request "https://search.example" scrollId.

Lemma steady_scan_run :
  OpenSearchClient.scrollMap steady_store accept_object 5 (example_scan resolving) [] =
  (Return tt,
   [Sent example_open; Handled (doc "a");
    Sent (example_next "c0"); Handled (doc "b");
    Sent (example_next "c0"); Handled (doc "c");
    Sent (example_next "c0");
    Sent (example_close "c0")]).
Proof. vm_compute. reflexivity. Qed.

Lemma steady_scan_rejected_run :
  OpenSearchClient.scrollMap steady_store accept_object 5 (example_scan rejecting_b) [] =
  (Throw (Raised (VStr "cannot handle b")),
   [Sent example_open; Handled (doc "a");
    Sent (example_next "c0"); Handled (doc "b");
    Sent (example_close "c0")]).
Proof. vm_compute. reflexivity. Qed.

Lemma steady_store_finite h :
  3 ≤ continuations h → scroll_page (steady_store h (example_next "c0")) = [].
Proof.
  intros Hh. unfold steady_store. cbn [example_next OpenSearchClient.nextScroll_request
    rq_method rq_path]. cbn [String.eqb Ascii.eqb Bool.eqb].
  destruct (continuations h) as [|[|[|n]]]; [lia..|reflexivity].
Qed.

Lemma scrollMap_closes_scroll_once_witness :
  let rejected := OpenSearchClient.scrollMap steady_store accept_object 5
                    (example_scan rejecting_b) [] in
  let returned := OpenSearchClient.scrollMap steady_store accept_object 5
                    (example_scan resolving) [] in
  fst rejected ≠ OutOfFuel
  ∧ (∃ n, closes (snd rejected) = replicate (S n) (example_close "c0") ∧ n ≤ 2)
  ∧ settled (fst rejected)
  ∧ handled (snd rejected) `prefix_of` returned_hits steady_store [] (snd rejected)
  ∧ (∃ n, closes (snd returned) = replicate (S n) (example_close "c0") ∧ n ≤ 2)
  ∧ handled (snd returned) = returned_hits steady_store [] (snd returned)
  ∧ last (returned_pages steady_store [] (snd returned)) = Some [].
Proof.
  intros rejected returned.
  destruct (scrollMap_closes_scroll_once steady_store accept_object
              (example_scan rejecting_b) [] 200
              (scroll_response "c0" [doc "a"]) "c0" [doc "a"]
              eq_refl eq_refl eq_refl) as (Hexit & Hends).
  destruct (scrollMap_closes_scroll_once steady_store accept_object
              (example_scan resolving) [] 200
              (scroll_response "c0" [doc "a"]) "c0" [doc "a"]
              eq_refl eq_refl eq_refl) as (Hexit' & _).
  assert (fst rejected ≠ OutOfFuel) as Hrun.
  { apply (Hends 3 5); [exact steady_store_finite|lia]. }
  destruct (Hexit 5 (fst rejected) (snd rejected) (surjective_pairing _) Hrun)
    as ((scan & n & _ & Hclose & Hn & _) & Hsettled & Hprefix & _).
  assert (fst returned = Return tt) as Hreturned.
  { vm_compute. reflexivity. }
  destruct (Hexit' 5 (fst returned) (snd returned) (surjective_pairing _))
    as ((scan' & n' & _ & Hclose' & Hn' & _) & _ & _ & Hhits).
  { rewrite Hreturned. discriminate. }
  destruct (Hhits Hreturned) as [Hall Hlast].
  split; [exact Hrun|]. split; [by exists n|]. split; [exact Hsettled|].
  split; [exact Hprefix|]. split; [by exists n'|]. split; [exact Hall|exact Hlast].
Defined.

(** C3, at a store that renews its cursor: the first continuation is
    answered with the cursor [c1], and the second continuation still carries
    [c0].  The store no longer knows [c0], so the scan stops after two of the
    three documents. *)
Theorem scrollMap_reuses_opening_cursor :
  rotating_store [Sent example_open; Handled (doc "a")] (example_next "c0")
  = Reply 200 (scroll_response "c1" [doc "b"])
  ∧ OpenSearchClient.scrollMap rotating_store accept_object 5
      (example_scan resolving) [] =
    (Throw (HTTPError 404 stale_cursor),
     [Sent example_open; Handled (doc "a");
      Sent (example_next "c0"); Handled (doc "b");
      Sent (example_next "c0");
      Sent (example_close "c0")]).
Proof. split; vm_compute; reflexivity. Qed.

(** ** Tagging *)

(** A percolate schema: every hit has the four fields under [_source]. *)
Definition percolate_hit_schema (v : value) : option OpenSearchClient.PercolateHit :=
  source ← z_field "_source" v;
  match get source ["query"; "multi_match"; "query"], get source ["uri"],
        get source ["source_terminology"], get source ["namedGraphUri"] with
  | VStr q, VStr u, VStr t, VStr g =>
      Some {| OpenSearchClient.source_query_multi_match_query := VStr q;
              OpenSearchClient.source_uri := VStr u;
              OpenSearchClient.source_source_terminology := VStr t;
              OpenSearchClient.source_namedGraphUri := VStr g |}
  | _, _, _, _ => None
  end.

Definition percolate_schema (v : value) : option (list OpenSearchClient.PercolateHit) :=
  hits ← z_field "hits" v;
  hits' ← z_field "hits" hits;
  z_array percolate_hit_schema hits'.

Definition percolate_hit (l u : string) : value :=
  VObj [("_id", VStr u);
        ("_source", TermsIndexer.queryForTerm
                      {| TermsIndexer.label := l; TermsIndexer.uri := u |}
                      "Example Vocabulary" "http://vocab.example/graph")].

Definition percolate_response : value :=
  VObj [("hits", VObj [("hits",
     VArr [percolate_hit "seawater" "http://vocab.example/seawater";
           percolate_hit "salinity" "http://vocab.example/salinity"])])].

Definition tagging_store : server := λ _ _, Reply 200 percolate_response.

Definition example_fields : OpenSearchClient.DocumentFields :=
  {| OpenSearchClient.title := "Salinity of seawater";
     OpenSearchClient.contents := "How to measure the salinity of seawater." |}.

Lemma percolateDocumentFields_maps_hits_witness :
  ∃ tags,
    OpenSearchClient.percolateDocumentFields tagging_store percolate_schema
      "https://search.example" "terms" example_fields None []
    = (Return tags,
       [Sent (OpenSearchClient.percolate_request "https://search.example" "terms"
                example_fields OpenSearchClient.no_percolate_options)])
    ∧ length tags = 2
    ∧ OpenSearchClient.label <$> tags = [VStr "seawater"; VStr "salinity"].
Proof.
  assert (∃ hits, percolate_schema percolate_response = Some hits ∧ length hits = 2)
    as (hits & Hparse & Hlen).
  { eexists. split; vm_compute; reflexivity. }
  destruct (percolateDocumentFields_maps_hits tagging_store percolate_schema
              "https://search.example" "terms" example_fields None []
              200 percolate_response hits eq_refl eq_refl Hparse)
    as (Hrun & Hlength & _).
  eexists. split; [exact Hrun|]. split; [by rewrite Hlength|].
  vm_compute in Hparse. injection Hparse as <-. vm_compute. reflexivity.
Defined.

(** ** A store that is down *)

Definition unavailable : value :=
  VObj [("message", VStr "Service Unavailable")].

Definition failing_store : server := λ _ _, Reply 503 unavailable.

Definition exists_already : value :=
  VObj [("error", VObj [("type", VStr "resource_already_exists_exception")]);
        ("status", VNum 400)].

Definition existing_index_store : server := λ _ _, Reply 400 exists_already.

Definition example_document : OpenSearchClient.DocumentItem :=
  {| OpenSearchClient.uuid := "3cb921a7-edb4-43c0-9324-1e8c3470e3fc";
     OpenSearchClient.item :=
       VObj [("uuid", VStr "3cb921a7-edb4-43c0-9324-1e8c3470e3fc");
             ("handle", VStr "11329/1160")] |}.

Definition plain_text_store : server := λ _ _, Reply 200 (VStr "OK").


Definition acknowledged : value := VObj [("acknowledged", VBool true)].

(** A store that fails once and then recovers. *)
Definition recovering_store : server := λ h _,
  match sent h with
  | [] => Reply 503 unavailable
  | _ :: _ => Reply 200 acknowledged
  end.


(** ** Keyword searches *)

Definition example_env : string → outcome string := λ name,
  if String.eqb name "DOCUMENTS_INDEX_NAME" then Return "documents"
  else if String.eqb name "OPEN_SEARCH_ENDPOINT" then Return "https://search.example"
  else Throw (Error (ErrorType (VStr name))).

Definition example_ontology : SearchHandler.ontology_options :=
  {| SearchHandler.host := "graph.example";
     SearchHandler.port := "8182";
     SearchHandler.path := "/sparql" |}.

Definition example_search_fields : list string := ["title"; "_bitstreamText"].

Definition rdf_literal (s : string) : value :=
  VObj [("type", VStr "literal"); ("value", VStr s)].

(** The rows the ontology store has for a keyword: for [sea], an exact
    synonym, an annotation of another kind and an equivalent concept. *)
Definition sea_rows : value :=
  VObj [("results", VObj [("bindings", VArr [
     VObj [("annotatedTarget", rdf_literal "ocean water");
           ("annotatedPropertyLabel", rdf_literal "has_exact_synonym")];
     VObj [("annotatedTarget", rdf_literal "a large body of salt water");
           ("annotatedPropertyLabel", rdf_literal "definition")];
     VObj [("sameAsLabel", rdf_literal "marine water")]])])].

Definition no_rows : value := VObj [("results", VObj [("bindings", VArr [])])].

Definition search_results : value :=
  VObj [("hits", VObj [("total", VNum 0); ("hits", VArr [])])].

Definition query_of (r : request) : string :=
  match rq_searchParams r with
  | (_, query) :: _ => query
  | [] => ""
  end.

Definition example_world : server := λ _ r,
  match rq_method r with
  | GET =>
      if String.eqb (query_of r) (SearchHandler.buildSynonymsQuery "sea")
      then Reply 200 sea_rows
      else Reply 200 no_rows
  | _ => Reply 200 search_results
  end.

(** The ontology store drops the connection of every query after the
    first. *)
Definition flaky_world : server := λ h r,
  match rq_method r with
  | GET =>
      match sent h with
      | [] => Reply 200 sea_rows
      | _ :: _ => Broken StreamFailed
      end
  | _ => Reply 200 search_results
  end.

Definition request_of (params : list (string * string)) : SearchHandler.APIGatewayEvent :=
  {| SearchHandler.queryStringParameters := Some (list_to_map params) |}.

(** A request with both flags set to [false]: only the refereed filter is
    in the search document. *)
Example false_flags_search :
  SearchBuilder.filters
    (SearchHandler.parseParams example_search_fields
       (list_to_map [("keywords", "sea"); ("refereed", "false"); ("endorsed", "false")]))
  = [SearchBuilder.exists_filter "dc_description_refereed"].
Proof. vm_compute. reflexivity. Qed.

(** A builder that refuses keywords that are not strings. *)
Definition refusing_builder : SearchOptions → list value → outcome value :=
  λ _ _, Throw TypeError.

Lemma handler_without_keywords_witness :
  SearchHandler.handler example_world example_env example_search_fields
    example_ontology refusing_builder (request_of [("term", "seawater")]) [] =
  (Return tt,
   [Callback None
      (Response 200 (JSON_stringify (VObj [])) SearchHandler.responseHeaders)]).
Proof.
  apply (handler_without_keywords example_world example_env example_search_fields
           example_ontology refusing_builder (request_of [("term", "seawater")]) []
           "documents" "https://search.example" eq_refl eq_refl).
  right; right. eexists. split; [reflexivity|]. vm_compute. reflexivity.
Defined.

Definition synonym_search : list (string * string) :=
  [("keywords", "sea,tide"); ("synonyms", "true")].


(* ===================================================================== *)
(** * Whole runs of the term indexer *)

(** The shape of a run of [indexTerms] from an offset: how it was cut off,
    failed, finished, or went on after a page. *)
Section IndexerRuns.
Import TermsIndexer.
Variable srv : server.
Variable is_url : string → bool.
Variable p : CreateTermIndexParams.

Definition page_request (offset : N) : request :=
  fetchTerms_request (sparqlUrl p) (sparqlQuery p) offset.

Definition page_bulk (terms : list FetchedTerm) : request :=
  bulk_request (elasticsearchUrl p) (filter (valid_term (stopwords p)) terms)
    (indexName p) (terminologyTitle p) (namedGraphUri p).

Definition answered_200 (rep : reply) : Prop := ∃ b, rep = Reply 200 b.

Inductive sync_run : history → N → outcome unit → list event → Prop :=
| sync_cut_off h offset :
    sync_run h offset OutOfFuel []
| sync_fetch_failed h offset e :
    page_size is_url (srv h (page_request offset)) = None →
    sync_run h offset (Throw e) [Sent (page_request offset)]
| sync_finished h offset :
    answered_200 (srv h (page_request offset)) →
    page_size is_url (srv h (page_request offset)) = Some 0 →
    sync_run h offset (Return tt) [Sent (page_request offset)]
| sync_page_skipped h offset b terms o evs :
    srv h (page_request offset) = Reply 200 b →
    fetchTermsResponseSchema is_url b = Some terms →
    terms ≠ [] →
    filter (valid_term (stopwords p)) terms = [] →
    sync_run (h ++ [Sent (page_request offset)])
      (offset + N.of_nat (length terms)) o evs →
    sync_run h offset o (Sent (page_request offset) :: evs)
| sync_bulk_failed h offset b terms e :
    srv h (page_request offset) = Reply 200 b →
    fetchTermsResponseSchema is_url b = Some terms →
    filter (valid_term (stopwords p)) terms ≠ [] →
    ¬ answered_200 (srv (h ++ [Sent (page_request offset)]) (page_bulk terms)) →
    sync_run h offset (Throw e)
      [Sent (page_request offset); Sent (page_bulk terms)]
| sync_page_indexed h offset b terms o evs :
    srv h (page_request offset) = Reply 200 b →
    fetchTermsResponseSchema is_url b = Some terms →
    filter (valid_term (stopwords p)) terms ≠ [] →
    answered_200 (srv (h ++ [Sent (page_request offset)]) (page_bulk terms)) →
    sync_run (h ++ [Sent (page_request offset); Sent (page_bulk terms)])
      (offset + N.of_nat (length terms)) o evs →
    sync_run h offset o
      (Sent (page_request offset) :: Sent (page_bulk terms) :: evs).

Lemma Z_eqb_200 status : (status =? 200)%Z = true → status = 200%Z.
Proof. lia. Qed.

Lemma not_answered_200 status b : (status =? 200)%Z = false → ¬ answered_200 (Reply status b).
Proof. intros Hs [b' [= -> _]]. done. Qed.

Lemma indexTerms_turn_failed offset h e evs :
  fetchTerms srv is_url (sparqlUrl p) (sparqlQuery p) offset h = (Throw e, evs) →
  indexTerms_turn srv is_url p offset h = (Throw e, evs).
Proof.
  intros Hfetch. unfold indexTerms_turn, mbind at 1, io_mbind, io_bind.
  by rewrite Hfetch.
Qed.

Lemma indexTerms_turn_empty offset h evs :
  fetchTerms srv is_url (sparqlUrl p) (sparqlQuery p) offset h = (Return [], evs) →
  indexTerms_turn srv is_url p offset h = (Return None, evs ++ []).
Proof.
  intros Hfetch. unfold indexTerms_turn, mbind at 1, io_mbind, io_bind.
  by rewrite Hfetch.
Qed.

(** Every run of the loop has that shape. *)
Lemma indexTerms_from_sync_run fuel offset h :
  sync_run h offset
    (fst (indexTerms_from srv is_url fuel p offset h))
    (snd (indexTerms_from srv is_url fuel p offset h)).
Proof.
  revert offset h. induction fuel as [|fuel IH]; intros offset h; [constructor|].
  cbn [indexTerms_from]. unfold mbind, io_mbind, io_bind.
  destruct (fetchTerms srv is_url (sparqlUrl p) (sparqlQuery p) offset h)
    as [o1 evs1] eqn:Hfetch.
  pose proof Hfetch as Hfetch'. rewrite fetchTerms_eq in Hfetch'.
  fold (page_request offset) in Hfetch'.
  destruct (srv h (page_request offset)) as [status b|why] eqn:Hrep.
  - destruct (status =? 200)%Z eqn:Hstatus.
    + apply Z_eqb_200 in Hstatus as ->.
      destruct (fetchTermsResponseSchema is_url b) as [terms|] eqn:Hparse.
      * injection Hfetch' as <- <-.
        destruct terms as [|t terms].
        { rewrite (indexTerms_turn_empty _ _ _ Hfetch). simpl.
          apply sync_finished; rewrite Hrep; [by eexists|].
          simpl. by rewrite Hparse. }
        pose proof (indexTerms_turn_page srv is_url p offset h (t :: terms) _
                      Hfetch ltac:(done)) as Hturn.
        cbv zeta in Hturn. rewrite Hturn. fold (page_bulk (t :: terms)).
        fold (page_request offset).
        destruct (filter (valid_term (stopwords p)) (t :: terms)) as [|v vs] eqn:Hvalid.
        { specialize (IH (offset + N.of_nat (length (t :: terms)))%N
                         (h ++ [Sent (page_request offset)])).
          destruct (indexTerms_from srv is_url fuel p _ _) as [o3 evs3].
          by eapply sync_page_skipped. }
        destruct (srv (h ++ [Sent (page_request offset)]) (page_bulk (t :: terms)))
          as [status' b'|why'] eqn:Hbulk.
        -- destruct (status' =? 200)%Z eqn:Hstatus'.
           ++ apply Z_eqb_200 in Hstatus' as ->.
              specialize (IH (offset + N.of_nat (length (t :: terms)))%N
                             (h ++ [Sent (page_request offset)]
                                ++ [Sent (page_bulk (t :: terms))])).
              destruct (indexTerms_from srv is_url fuel p _ _) as [o3 evs3].
              eapply sync_page_indexed; eauto.
              ** by rewrite Hvalid.
              ** rewrite Hbulk. by eexists.
           ++ eapply sync_bulk_failed; eauto.
              ** by rewrite Hvalid.
              ** rewrite Hbulk. by apply not_answered_200.
        -- eapply sync_bulk_failed; eauto.
           ++ by rewrite Hvalid.
           ++ rewrite Hbulk. by intros [? ?].
      * injection Hfetch' as <- <-.
        rewrite (indexTerms_turn_failed _ _ _ _ Hfetch).
        apply sync_fetch_failed. rewrite Hrep. simpl. by rewrite Hparse.
    + injection Hfetch' as <- <-.
      rewrite (indexTerms_turn_failed _ _ _ _ Hfetch).
      apply sync_fetch_failed. rewrite Hrep. simpl. by rewrite Hstatus.
  - injection Hfetch' as <- <-.
    rewrite (indexTerms_turn_failed _ _ _ _ Hfetch).
    apply sync_fetch_failed. by rewrite Hrep.
Qed.

(** The requests of a run that fetch a page: those that carry a form. *)
Definition is_fetch (r : request) : Prop :=
  match rq_payload r with FormBody _ => True | _ => False end.

#[global] Instance is_fetch_dec r : Decision (is_fetch r).
Proof. unfold is_fetch. destruct (rq_payload r); apply _. Defined.

Definition fetch_requests (evs : list event) : list request :=
  filter is_fetch (sent evs).

(** The terms fetched before the [i]-th page of a run: the sizes of the
    pages before it, added up. *)
Definition fetched_before (sizes : list (option nat)) (i : nat) : nat :=
  sum_list (default 0 <$> take i sizes).

Lemma fetched_cons h r evs :
  is_fetch r →
  fetched srv is_url h (Sent r :: evs)
  = page_size is_url (srv h r) :: fetched srv is_url (h ++ [Sent r]) evs.
Proof.
  unfold is_fetch, fetched. simpl. by destruct (rq_payload r).
Qed.

Lemma fetched_cons_bulk h terms evs :
  fetched srv is_url h (Sent (page_bulk terms) :: evs)
  = fetched srv is_url (h ++ [Sent (page_bulk terms)]) evs.
Proof. done. Qed.

Lemma sync_run_offsets h offset o evs :
  sync_run h offset o evs →
  ∀ i r, fetch_requests evs !! i = Some r →
         r = page_request (offset + N.of_nat (fetched_before (fetched srv is_url h evs) i)).
Proof.
  induction 1 as [h offset|h offset e Hsize|h offset Hok Hsize
                  |h offset b terms o evs Hrep Hparse Hne Hvalid Hrun IH
                  |h offset b terms e Hrep Hparse Hvalid Hbulk
                  |h offset b terms o evs Hrep Hparse Hvalid Hbulk Hrun IH];
    intros i r Hi.
  - done.
  - destruct i as [|i]; [|done]. injection Hi as <-. f_equal. unfold fetched_before. simpl. lia.
  - destruct i as [|i]; [|done]. injection Hi as <-. f_equal. unfold fetched_before. simpl. lia.
  - rewrite fetched_cons by done.
    destruct i as [|i]; simpl in Hi.
    + injection Hi as <-. f_equal. unfold fetched_before. simpl. lia.
    + rewrite (IH i r Hi). f_equal. unfold fetched_before. cbn [take fmap list_fmap sum_list].
      rewrite Hrep. simpl. rewrite Hparse. simpl. lia.
  - destruct i as [|[|i]]; [|done..]. injection Hi as <-. f_equal.
    unfold fetched_before. simpl. lia.
  - rewrite fetched_cons, fetched_cons_bulk, <- app_assoc by done.
    destruct i as [|i]; simpl in Hi.
    + injection Hi as <-. f_equal. unfold fetched_before. simpl. lia.
    + rewrite (IH i r Hi). f_equal. unfold fetched_before. cbn [take fmap list_fmap sum_list].
      rewrite Hrep. simpl. rewrite Hparse. simpl. lia.
Qed.

Lemma sync_run_bulks h offset o evs :
  sync_run h offset o evs →
  ∀ r lines, r ∈ sent evs → rq_payload r = LinesBody lines →
    ∃ page, filter (valid_term (stopwords p)) page ≠ []
            ∧ r = page_bulk page.
Proof.
  induction 1 as [h offset|h offset e Hsize|h offset Hok Hsize
                  |h offset b terms o evs Hrep Hparse Hne Hvalid Hrun IH
                  |h offset b terms e Hrep Hparse Hvalid Hbulk
                  |h offset b terms o evs Hrep Hparse Hvalid Hbulk Hrun IH];
    intros r lines Hin Hlines; simpl in Hin.
  - by apply elem_of_nil in Hin.
  - apply list_elem_of_singleton in Hin as ->. done.
  - apply list_elem_of_singleton in Hin as ->. done.
  - apply elem_of_cons in Hin as [->|Hin]; [done|eauto].
  - apply elem_of_cons in Hin as [->|Hin]; [done|].
    apply list_elem_of_singleton in Hin as ->. eauto.
  - apply elem_of_cons in Hin as [->|Hin]; [done|].
    apply elem_of_cons in Hin as [->|Hin]; eauto.
Qed.

Lemma sync_run_stops h offset o evs :
  sync_run h offset o evs →
  ∀ earlier last, replies srv h evs = earlier ++ [last] →
    Forall (λ rr, answered_200 rr.2) earlier
    ∧ (∀ e, o = Throw e →
            ¬ answered_200 last.2 ∨ page_size is_url last.2 = None).
Proof.
  assert (∀ (x : request * reply) rest earlier last,
            x :: rest = earlier ++ [last] →
            (rest = [] ∧ earlier = [] ∧ last = x)
            ∨ (∃ earlier', earlier = x :: earlier' ∧ rest = earlier' ++ [last]))
    as Hsplit.
  { intros x rest [|y earlier] last Heq; simpl in Heq.
    - injection Heq as -> <-. by left.
    - injection Heq as <- ->. right. eauto. }
  induction 1 as [h offset|h offset e Hsize|h offset Hok Hsize
                  |h offset b terms o evs Hrep Hparse Hne Hvalid Hrun IH
                  |h offset b terms e Hrep Hparse Hvalid Hbulk
                  |h offset b terms o evs Hrep Hparse Hvalid Hbulk Hrun IH];
    intros earlier last Hreplies; simpl in Hreplies.
  - by destruct earlier.
  - apply Hsplit in Hreplies as [(_ & -> & ->)|(earlier' & _ & Hrest)];
      [|by destruct earlier'].
    split; [done|]. intros _ _. by right.
  - apply Hsplit in Hreplies as [(_ & -> & ->)|(earlier' & _ & Hrest)];
      [|by destruct earlier'].
    split; [done|]. done.
  - apply Hsplit in Hreplies as [(Hnil & -> & ->)|(earlier' & -> & Hrest)].
    + split; [done|]. intros e ->. inversion Hrun; subst; discriminate.
    + destruct (IH _ _ Hrest) as [Hall Hlast]. split; [|done].
      constructor; [|done]. simpl. rewrite Hrep. by eexists.
  - apply Hsplit in Hreplies as [(? & _ & _)|(earlier' & -> & Hrest)]; [done|].
    apply Hsplit in Hrest as [(_ & -> & ->)|(earlier'' & _ & Hrest)];
      [|by destruct earlier''].
    split.
    + constructor; [|done]. simpl. rewrite Hrep. by eexists.
    + intros _ _. by left.
  - apply Hsplit in Hreplies as [(? & _ & _)|(earlier' & -> & Hrest)]; [done|].
    apply Hsplit in Hrest as [(Hnil & -> & ->)|(earlier'' & -> & Hrest)].
    + split.
      * constructor; [|done]. simpl. rewrite Hrep. by eexists.
      * intros e ->. inversion Hrun; subst; discriminate.
    + rewrite <- app_assoc in Hrest.
      destruct (IH _ _ Hrest) as [Hall Hlast]. split; [|done].
      constructor; [simpl; rewrite Hrep; by eexists|].
      constructor; [exact Hbulk|done].
Qed.

Lemma sync_run_head h offset o evs :
  sync_run h offset o evs →
  (evs = [] ∧ o = OutOfFuel) ∨ ∃ rest, evs = Sent (page_request offset) :: rest.
Proof. destruct 1; eauto. Qed.

Lemma page_bulk_not_fetch terms : ¬ is_fetch (page_bulk terms).
Proof. by intros []. Qed.

(** After a page of terms: the bulk load of its valid terms when there are
    any, then the fetch at the offset moved on by the size of the page. *)
Lemma sync_run_page h offset o evs :
  sync_run h offset o evs →
  ∀ pre r rest b terms,
    evs = pre ++ Sent r :: rest →
    is_fetch r →
    srv (h ++ pre) r = Reply 200 b →
    fetchTermsResponseSchema is_url b = Some terms →
    terms ≠ [] →
    ∃ offset',
      r = page_request offset'
      ∧ (filter (valid_term (stopwords p)) terms = [] →
         (rest = [] ∧ o = OutOfFuel)
         ∨ ∃ rest', rest = Sent (page_request (offset' + N.of_nat (length terms)))
                           :: rest')
      ∧ (filter (valid_term (stopwords p)) terms ≠ [] →
         ∃ rest',
           rest = Sent (page_bulk terms) :: rest'
           ∧ (answered_200 (srv (h ++ pre ++ [Sent r]) (page_bulk terms)) →
              (rest' = [] ∧ o = OutOfFuel)
              ∨ ∃ rest'', rest' = Sent (page_request
                                          (offset' + N.of_nat (length terms)))
                                  :: rest'')
           ∧ (¬ answered_200 (srv (h ++ pre ++ [Sent r]) (page_bulk terms)) →
              rest' = [] ∧ ∃ e, o = Throw e)).
Proof.
  induction 1 as [h offset|h offset e Hsize|h offset Hok Hsize
                  |h offset b0 terms0 o evs Hrep Hparse Hne Hvalid Hrun IH
                  |h offset b0 terms0 e Hrep Hparse Hvalid Hbulk
                  |h offset b0 terms0 o evs Hrep Hparse Hvalid Hbulk Hrun IH];
    intros pre r rest b terms Hevs Hfetch Hreply Hterms Hsome.
  - by destruct pre.
  - destruct pre as [|? [|? ?]]; [|done..]. injection Hevs as <- <-.
    rewrite app_nil_r in Hreply. rewrite Hreply in Hsize. simpl in Hsize.
    by rewrite Hterms in Hsize.
  - destruct pre as [|? [|? ?]]; [|done..]. injection Hevs as <- <-.
    rewrite app_nil_r in Hreply. rewrite Hreply in Hsize. simpl in Hsize.
    rewrite Hterms in Hsize. injection Hsize as Hsize. by destruct terms.
  - destruct pre as [|e pre].
    + injection Hevs as <- <-. rewrite app_nil_r in Hreply.
      rewrite Hrep in Hreply. injection Hreply as <-.
      rewrite Hparse in Hterms. injection Hterms as <-.
      exists offset. split; [done|]. split; [|done].
      intros _. apply sync_run_head in Hrun as [[-> ->]|[rest' ->]]; eauto.
    + injection Hevs as <- ->.
      destruct (IH pre r rest b terms eq_refl Hfetch) as (offset' & -> & Hnone & Hsome');
        [by rewrite <- app_assoc|done..|].
      exists offset'. split; [done|]. split; [done|].
      intros Hv. destruct (Hsome' Hv) as (rest' & -> & Hyes & Hno).
      exists rest'. rewrite <- !app_assoc in *. done.
  - destruct pre as [|e0 [|e1 [|? ?]]]; [| |done..].
    + injection Hevs as <- <-. rewrite app_nil_r in Hreply.
      rewrite Hrep in Hreply. injection Hreply as <-.
      rewrite Hparse in Hterms. injection Hterms as <-.
      exists offset. split; [done|]. split; [done|].
      intros _. exists []. split; [done|]. split; [done|]. eauto.
    + injection Hevs as _ <- _. by destruct (page_bulk_not_fetch terms0).
  - destruct pre as [|e0 [|e1 pre]].
    + injection Hevs as <- <-. rewrite app_nil_r in Hreply.
      rewrite Hrep in Hreply. injection Hreply as <-.
      rewrite Hparse in Hterms. injection Hterms as <-.
      exists offset. split; [done|]. split; [done|].
      intros _. exists evs. split; [done|]. split; [|done].
      intros _. apply sync_run_head in Hrun as [[-> ->]|[rest' ->]]; eauto.
    + injection Hevs as _ <- _. by destruct (page_bulk_not_fetch terms0).
    + injection Hevs as <- <- ->.
      destruct (IH pre r rest b terms eq_refl Hfetch) as (offset' & -> & Hnone & Hsome');
        [by rewrite <- app_assoc|done..|].
      exists offset'. split; [done|]. split; [done|].
      intros Hv. destruct (Hsome' Hv) as (rest' & -> & Hyes & Hno).
      exists rest'. rewrite <- !app_assoc in *. done.
Qed.

End IndexerRuns.

Section IndexerRunFacts.
Import TermsIndexer.
Variable srv : server.
Variable is_url : string → bool.

(** C1. In every run of [indexTerms], after every page of terms it fetched
    and for every stopword list: the terms handed to the bulk load are exactly
    the terms of the page whose label is longer than 2 and is no stopword (in
    page order, each as its index action and its query document), in the one
    bulk request that follows the fetch; no bulk request goes out when no
    term is left; and the fetch that comes next asks for the offset of the
    page plus the number of terms of the page as fetched, not the number that
    passed the filter.  (A run goes on to that next fetch unless the bulk
    load failed, which ends it with the error, or the bound on its turns cut
    it off.) *)
Theorem indexTerms_indexes_valid_terms fuel p h pre r rest b terms :
  let run := indexTerms srv is_url fuel p h in
  let validTerms := filter (valid_term (stopwords p)) terms in
  let bulk := bulk_request (elasticsearchUrl p) validTerms
                (indexName p) (terminologyTitle p) (namedGraphUri p) in
  snd run = pre ++ Sent r :: rest →
  rq_method r = POST ∧ (∃ query, rq_payload r = FormBody query) →
  srv (h ++ pre) r = Reply 200 b →
  fetchTermsResponseSchema is_url b = Some terms →
  terms ≠ [] →
  ∃ offset,
    let next := Sent (fetchTerms_request (sparqlUrl p) (sparqlQuery p)
                        (offset + N.of_nat (length terms))) in
    r = fetchTerms_request (sparqlUrl p) (sparqlQuery p) offset
    ∧ (∀ t, t ∈ validTerms ↔
            t ∈ terms ∧ 2 < js_length (label t) ∧ label t ∉ stopwords p)
    ∧ rq_payload bulk =
        LinesBody (concat ((λ t, [indexForTerm (indexName p);
                                  queryForTerm t (terminologyTitle p) (namedGraphUri p)])
                           <$> validTerms))
    ∧ (validTerms = [] →
       (rest = [] ∧ fst run = OutOfFuel) ∨ ∃ rest', rest = next :: rest')
    ∧ (validTerms ≠ [] →
       ∃ rest',
         rest = Sent bulk :: rest'
         ∧ ((∃ b', srv (h ++ pre ++ [Sent r]) bulk = Reply 200 b') →
            (rest' = [] ∧ fst run = OutOfFuel) ∨ ∃ rest'', rest' = next :: rest'')
         ∧ ((¬ ∃ b', srv (h ++ pre ++ [Sent r]) bulk = Reply 200 b') →
            rest' = [] ∧ ∃ e, fst run = Throw e)).
Proof.
  intros run validTerms bulk Hevs [_ [query Hform]] Hreply Hterms Hsome.
  pose proof (indexTerms_from_sync_run srv is_url p fuel 0%N h) as Hrun.
  assert (is_fetch r) as Hfetch.
  { unfold is_fetch. by rewrite Hform. }
  destruct (sync_run_page srv is_url p _ _ _ _ Hrun pre r rest b terms
              Hevs Hfetch Hreply Hterms Hsome) as (offset & -> & Hnone & Hvalid).
  exists offset. cbv zeta. split; [done|]. split; [|split; [done|split; [done|]]].
  - intros t. unfold validTerms. rewrite list_elem_of_filter. unfold valid_term. tauto.
  - exact Hvalid.
Qed.

(** X1. The loop never skips and never re-reads: in every run, however it
    ends, the [i]-th fetch asks for the offset that equals the number of terms
    the fetches before it got. *)
Theorem indexTerms_fetch_offsets fuel p h i r :
  let evs := snd (indexTerms srv is_url fuel p h) in
  fetch_requests evs !! i = Some r →
  r = fetchTerms_request (sparqlUrl p) (sparqlQuery p)
        (N.of_nat (fetched_before (fetched srv is_url h evs) i)).
Proof.
  intros evs Hi.
  pose proof (indexTerms_from_sync_run srv is_url p fuel 0%N h) as Hrun.
  by apply (sync_run_offsets srv is_url p _ _ _ _ Hrun i r).
Qed.

(** X2. No run sends an empty bulk load or loads a term the filter refuses:
    every bulk request of a run carries the index action and the query
    document of each term of a non-empty list of terms, all with a label
    longer than 2 that is no stopword. *)
Theorem indexTerms_bulk_requests fuel p h r lines :
  r ∈ sent (snd (indexTerms srv is_url fuel p h)) →
  rq_payload r = LinesBody lines →
  ∃ terms,
    terms ≠ []
    ∧ Forall (λ t, 2 < js_length (label t) ∧ label t ∉ stopwords p) terms
    ∧ lines = concat ((λ t, [indexForTerm (indexName p);
                             queryForTerm t (terminologyTitle p) (namedGraphUri p)])
                      <$> terms)
    ∧ length lines = 2 * length terms.
Proof.
  intros Hin Hlines.
  pose proof (indexTerms_from_sync_run srv is_url p fuel 0%N h) as Hrun.
  destruct (sync_run_bulks srv is_url p _ _ _ _ Hrun r lines Hin Hlines)
    as (page & Hne & ->).
  exists (filter (valid_term (stopwords p)) page).
  split; [done|]. split.
  - apply Forall_forall. intros t Ht. by apply list_elem_of_filter in Ht as [? _].
  - simpl in Hlines. injection Hlines as <-. split; [done|].
    unfold bulk_lines. generalize (filter (valid_term (stopwords p)) page).
    intros l. induction l as [|t l IH]; simpl; [done|]. rewrite IH. lia.
Qed.

(** X3. The first response that is not a 200 ends the sync: in every run
    each request but the last was answered with status 200, and a run that
    throws has as its last response one that is not a 200 or not a page of
    terms. *)
Theorem indexTerms_stops_at_failure fuel p h earlier last :
  replies srv h (snd (indexTerms srv is_url fuel p h)) = earlier ++ [last] →
  Forall (λ rr, ∃ b, rr.2 = Reply 200 b) earlier
  ∧ (∀ e, fst (indexTerms srv is_url fuel p h) = Throw e →
          (¬ ∃ b, last.2 = Reply 200 b) ∨ page_size is_url last.2 = None).
Proof.
  intros Hreplies.
  pose proof (indexTerms_from_sync_run srv is_url p fuel 0%N h) as Hrun.
  exact (sync_run_stops srv is_url p _ _ _ _ Hrun earlier last Hreplies).
Qed.

End IndexerRunFacts.

(** The example graph: the second fetch asks for offset 4, the size of the
    first page. *)
Lemma indexTerms_fetch_offsets_witness :
  fetch_requests (snd (TermsIndexer.indexTerms example_graph any_url 3 example_params []))
    !! 1 = Some (example_fetch 4)
  ∧ example_fetch 4
    = TermsIndexer.fetchTerms_request (TermsIndexer.sparqlUrl example_params)
        (TermsIndexer.sparqlQuery example_params)
        (N.of_nat (fetched_before
                     (fetched example_graph any_url []
                        (snd (TermsIndexer.indexTerms example_graph any_url 3
                                example_params [])))
                     1)).
Proof.
  split; [vm_compute; reflexivity|].
  apply (indexTerms_fetch_offsets example_graph any_url 3 example_params [] 1).
  vm_compute. reflexivity.
Defined.

Lemma indexTerms_bulk_requests_witness :
  ∃ terms,
    terms ≠ []
    ∧ Forall (λ t, 2 < js_length (TermsIndexer.label t)
                   ∧ TermsIndexer.label t ∉ TermsIndexer.stopwords example_params) terms
    ∧ TermsIndexer.bulk_lines [seawater] "terms" "Example Vocabulary"
        "http://vocab.example/graph"
      = concat ((λ t, [TermsIndexer.indexForTerm (TermsIndexer.indexName example_params);
                       TermsIndexer.queryForTerm t
                         (TermsIndexer.terminologyTitle example_params)
                         (TermsIndexer.namedGraphUri example_params)])
                <$> terms)
    ∧ length (TermsIndexer.bulk_lines [seawater] "terms" "Example Vocabulary"
                "http://vocab.example/graph") = 2 * length terms.
Proof.
  apply (indexTerms_bulk_requests example_graph any_url 3 example_params []
           (TermsIndexer.bulk_request "https://search.example" [seawater]
              "terms" "Example Vocabulary" "http://vocab.example/graph")).
  - rewrite example_graph_run. cbn [snd sent omap].
    apply elem_of_cons. right. apply elem_of_cons. by left.
  - reflexivity.
Defined.

(** A graph store whose listing is the example page, beside an index store
    that is down. *)
Definition index_down_graph : server := λ _ r,
  match rq_payload r with
  | FormBody _ => Reply 200 example_page
  | _ => Reply 503 unavailable
  end.

Lemma indexTerms_stops_at_failure_witness :
  Forall (λ rr : request * reply, ∃ b, rr.2 = Reply 200 b)
    [(example_fetch 0, Reply 200 example_page)]
  ∧ ((¬ ∃ b, Reply 503 unavailable = Reply 200 b)
     ∨ page_size any_url (Reply 503 unavailable) = None).
Proof.
  destruct (indexTerms_stops_at_failure index_down_graph any_url 3 example_params []
              [(example_fetch 0, Reply 200 example_page)]
              (TermsIndexer.bulk_request "https://search.example" [seawater]
                 "terms" "Example Vocabulary" "http://vocab.example/graph",
               Reply 503 unavailable)) as [Hall Hthrow].
  { vm_compute. reflexivity. }
  split; [exact Hall|].
  apply (Hthrow (Error (ESRequestFailed 503 unavailable))).
  vm_compute. reflexivity.
Defined.

(** The example graph, after its first page: the bulk load carries
    [seawater] alone, and the next fetch asks for offset 4. *)
Lemma indexTerms_indexes_valid_terms_witness :
  let run := TermsIndexer.indexTerms example_graph any_url 3 example_params [] in
  let validTerms :=
    filter (TermsIndexer.valid_term (TermsIndexer.stopwords example_params))
      example_terms in
  let bulk :=
    TermsIndexer.bulk_request (TermsIndexer.elasticsearchUrl example_params) validTerms
      (TermsIndexer.indexName example_params)
      (TermsIndexer.terminologyTitle example_params)
      (TermsIndexer.namedGraphUri example_params) in
  validTerms = [seawater]
  ∧ ∃ offset rest',
      example_fetch 0
      = TermsIndexer.fetchTerms_request (TermsIndexer.sparqlUrl example_params)
          (TermsIndexer.sparqlQuery example_params) offset
      ∧ [Sent bulk; Sent (example_fetch 4)] = Sent bulk :: rest'
      ∧ ((rest' = [] ∧ fst run = OutOfFuel)
         ∨ ∃ rest'',
             rest' = Sent (TermsIndexer.fetchTerms_request
                             (TermsIndexer.sparqlUrl example_params)
                             (TermsIndexer.sparqlQuery example_params)
                             (offset + N.of_nat (length example_terms)))
                     :: rest'').
Proof.
  intros run validTerms bulk. split; [vm_compute; reflexivity|].
  destruct (indexTerms_indexes_valid_terms example_graph any_url 3 example_params []
              [] (example_fetch 0) [Sent bulk; Sent (example_fetch 4)]
              example_page example_terms)
    as (offset & Hfetch & _ & _ & _ & Hvalid).
  - vm_compute. reflexivity.
  - split; [reflexivity|]. eexists. reflexivity.
  - reflexivity.
  - vm_compute. reflexivity.
  - discriminate.
  - destruct Hvalid as (rest' & Hrest & Hnext & _).
    + vm_compute. discriminate.
    + exists offset, rest'. split; [exact Hfetch|]. split; [exact Hrest|].
      apply Hnext. eexists. reflexivity.
Defined.

(** ** Only status 200 counts as success for the indexer and for index creation *)

Section OnlyStatus200.
Variable srv : server.
Variable is_url : string → bool.

(** X4. [fetchTerms], [bulkIndexTerms] and [createIndex] test the status
    against 200 and nothing else: a fetch returns exactly on a 200 whose body
    the schema reads, a bulk load exactly on a 200, and the creation of an
    index exactly when the response that ends it (the last one, after the
    transport's retries of the PUT) is a 200 or has an error type that says
    the index exists.  Any other success status, 201 or 204, makes them
    throw. *)
Theorem only_200_is_success h :
  (∀ sparqlUrl sparqlQuery offset terms,
     fst (TermsIndexer.fetchTerms srv is_url sparqlUrl sparqlQuery offset h) = Return terms
     ↔ ∃ b, srv h (TermsIndexer.fetchTerms_request sparqlUrl sparqlQuery offset) = Reply 200 b
            ∧ TermsIndexer.fetchTermsResponseSchema is_url b = Some terms)
  ∧ (∀ url terms indexName title graph,
       fst (TermsIndexer.bulkIndexTerms srv url terms indexName title graph h) = Return tt
       ↔ ∃ b, srv h (TermsIndexer.bulk_request url terms indexName title graph) = Reply 200 b)
  ∧ (∀ prefixUrl index indexBody,
       fst (OpenSearchClient.createIndex srv prefixUrl index indexBody h) = Return tt
       ↔ ∃ status b,
           (exchange srv (OpenSearchClient.createIndex_request prefixUrl index indexBody)
              h).1 = Reply status b
           ∧ (status = 200%Z
              ∨ get b ["error"; "type"] = VStr "resource_already_exists_exception")).
Proof.
  split; [|split].
  - intros sparqlUrl sparqlQuery offset terms. rewrite fetchTerms_eq. cbn [fst].
    destruct (srv h _) as [status b|why]; [|split; [done|by intros (? & ? & ?)]].
    destruct (Z.eqb_spec status 200) as [->|Hne]; cbn [negb].
    + destruct (TermsIndexer.fetchTermsResponseSchema is_url b) as [ts|] eqn:Hparse.
      * split.
        -- intros [= ->]. eauto.
        -- intros (b' & [= <-] & Hb). rewrite Hparse in Hb. by injection Hb as ->.
      * split; [done|]. intros (b' & [= <-] & Hb). by rewrite Hparse in Hb.
    + split; [done|]. intros (b' & [= ? ?] & _). done.
  - intros url terms indexName title graph. rewrite bulkIndexTerms_eq. cbn [fst].
    destruct (srv h _) as [status b|why]; [|split; [done|by intros (? & ?)]].
    destruct (Z.eqb_spec status 200) as [->|Hne]; cbn [negb].
    + split; eauto.
    + split; [done|]. intros (b' & [= ? ?]). done.
  - intros prefixUrl index indexBody. rewrite createIndex_eq. cbn [fst].
    destruct (exchange srv _ h).1 as [status b|why];
      [|split; [done|by intros (? & ? & ? & ?)]].
    destruct (Z.eqb_spec status 200) as [->|Hne].
    + split; eauto.
    + split.
      * intros Hret. exists status, b. split; [done|right]. revert Hret.
        destruct (get b ["error"; "type"]) as [| | | |ty| |]; try discriminate.
        by destruct (String.eqb_spec ty "resource_already_exists_exception") as [->|].
      * intros (status' & b' & [= <- <-] & [->|Hty]); [done|]. by rewrite Hty.
Qed.

End OnlyStatus200.

(** ** Edges of a scan *)

Section ScanEdges.
Import OpenSearchClient.
Variable srv : server.
Variable closeScrollResponseSchema : value → option value.

(** X5. Without a cursor there is nothing to close: when the opening request
    fails, or its response is not a scroll response, the scan throws after
    that one request; no hit is handled and no close request is sent. *)
Theorem scrollMap_without_cursor fuel p h :
  let open := openScroll_request (esUrl p) (index p)
                (default no_scroll_options (scrollOptions p)) in
  (∀ status b, srv h open = Reply status b → is_2xx status = true →
               scrollResponseSchema b = None) →
  ∃ e, scrollMap srv closeScrollResponseSchema fuel p h = (Throw e, [Sent open]).
Proof.
  intros open Hnone.
  unfold scrollMap, openScroll, mbind, io_mbind. unfold io_bind at 1.
  rewrite got_body_eq by done. fold open.
  destruct (srv h open) as [status b|why] eqn:Hrep; [|by eexists].
  destruct (is_2xx status) eqn:Hok; [|by eexists].
  rewrite (Hnone status b eq_refl Hok). io_unfold. rewrite app_nil_r. by eexists.
Qed.

(** X6. A scan of an index without documents: when the first page has no
    hits the loop body never runs, so whatever the number of turns allowed
    the scan sends the opening request and then only the close of its cursor
    (one DELETE, sent again by the transport when the store fails to answer
    it, three times at most), calls the handler on nothing, and returns
    exactly when the response that ends the close is a success that the
    close schema reads. *)
Theorem scrollMap_empty_index fuel p h status b scrollId :
  let open := openScroll_request (esUrl p) (index p)
                (default no_scroll_options (scrollOptions p)) in
  let close := closeScroll_request (esUrl p) scrollId in
  srv h open = Reply status b →
  is_2xx status = true →
  scrollResponseSchema b = Some (scrollId, []) →
  let run := scrollMap srv closeScrollResponseSchema fuel p h in
  let closing := exchange srv close (h ++ [Sent open]) in
  snd run = Sent open :: closing.2
  ∧ (∃ n, n ≤ 2 ∧ closing.2 = replicate (S n) (Sent close))
  ∧ handled (snd run) = []
  ∧ fst run ≠ OutOfFuel
  ∧ (fst run = Return tt
     ↔ ∃ status' b', closing.1 = Reply status' b'
                     ∧ is_2xx status' = true
                     ∧ is_Some (closeScrollResponseSchema b')).
Proof.
  intros open close Hrep Hok Hparse run closing.
  assert (∃ n, n ≤ 2 ∧ closing.2 = replicate (S n) (Sent close)) as Hclosing.
  { destruct (exchange_run srv close (h ++ [Sent open])) as (n & Hn & Hrun & _).
    exists n. unfold closing. by rewrite Hrun. }
  assert (∃ o, run = (o, Sent open :: closing.2)
               ∧ o ≠ OutOfFuel
               ∧ (o = Return tt
                  ↔ ∃ status' b', closing.1 = Reply status' b'
                                  ∧ is_2xx status' = true
                                  ∧ is_Some (closeScrollResponseSchema b')))
    as (o & -> & Hcut & Hret).
  { unfold run, scrollMap, openScroll, mbind, io_mbind. unfold io_bind at 1.
    rewrite got_body_eq by done. fold open. rewrite Hrep, Hok, Hparse.
    unfold try_finally.
    assert (scroll_loop srv fuel p scrollId [] (h ++ [Sent open]) = (Return tt, []))
      as ->.
    { by destruct fuel. }
    rewrite app_nil_r.
    unfold closeScroll, mbind, io_mbind, io_bind. rewrite got_body_exchange.
    fold close closing.
    destruct closing.1 as [status' b'|why].
    - destruct (is_2xx status') eqn:Hok'.
      + destruct (closeScrollResponseSchema b') as [r|] eqn:Hclose; io_unfold; cbn;
          rewrite ?app_nil_r; eexists; (split; [done|]; split; [done|]; split).
        * intros _. exists status', b'. by rewrite Hclose.
        * done.
        * done.
        * intros (? & ? & [= <- <-] & _ & [? Hsome]). by rewrite Hclose in Hsome.
      + cbn. eexists. split; [done|]. split; [done|]. split; [done|].
        intros (? & ? & [= <- <-] & Hok'' & _). by rewrite Hok' in Hok''.
    - cbn. eexists. split; [done|]. split; [done|]. split; [done|].
      by intros (? & ? & ? & _). }
  cbn [fst snd]. split; [done|]. split; [exact Hclosing|]. split; [|done].
  destruct Hclosing as (n & _ & ->).
  change (Sent open :: replicate (S n) (Sent close))
    with ([Sent open] ++ replicate (S n) (Sent close)).
  by rewrite handled_app, handled_replicate_sent.
Qed.

End ScanEdges.

(** ** Single documents *)

Section DocumentFacts.
Import OpenSearchDocuments.
Variable srv : server.
Variable putDocumentItemResponseSchema : value → option value.

(** X7. [putDocumentItem] never lets a failure of the request through: its
    catch swallows every rejection of the POST, so the only error it throws
    is the one of its schema, raised on the body of a successful response or
    on [undefined] when there was none. *)
Theorem putDocumentItem_throws_only_ZodError prefixUrl documentItem h e :
  fst (OpenSearchClient.putDocumentItem srv putDocumentItemResponseSchema
         prefixUrl documentItem h) = Throw e →
  ∃ input,
    e = ZodError input
    ∧ putDocumentItemResponseSchema input = None
    ∧ (input = VUndefined
       ∨ ∃ status,
           srv h (OpenSearchClient.putDocumentItem_request prefixUrl documentItem)
           = Reply status input
           ∧ is_2xx status = true).
Proof.
  rewrite putDocumentItem_eq. cbn [fst].
  destruct (srv h _) as [status b|why].
  - destruct (is_2xx status) eqn:Hok.
    + destruct (putDocumentItemResponseSchema b) eqn:Hparse; [done|].
      intros [= <-]. exists b. eauto 6.
    + destruct (putDocumentItemResponseSchema VUndefined) eqn:Hparse; [done|].
      intros [= <-]. exists VUndefined. eauto.
  - destruct (putDocumentItemResponseSchema VUndefined) eqn:Hparse; [done|].
    intros [= <-]. exists VUndefined. eauto.
Qed.

(** X8. [getDocument] turns a 404 into [undefined] and nothing else.  With
    the response that ends the call (the last one, after the transport's
    retries of the GET): a success resolves with the body, a 404 resolves
    with [undefined] whatever its body, and every other failure is thrown
    again as it came. *)
Theorem getDocument_not_found_is_undefined prefixUrl index id h :
  let last_reply := (exchange srv (getDocument_request prefixUrl index id) h).1 in
  let result := fst (getDocument srv prefixUrl index id h) in
  (∀ b, last_reply = Reply 404 b → result = Return VUndefined)
  ∧ (∀ status b, last_reply = Reply status b → is_2xx status = true → result = Return b)
  ∧ (∀ e, result = Throw e
          ↔ (∃ status b, last_reply = Reply status b ∧ is_2xx status = false
                         ∧ status ≠ 404%Z ∧ e = HTTPError status b)
            ∨ (∃ why, last_reply = Broken why ∧ e = RequestError why)).
Proof.
  intros last_reply result. unfold result, getDocument, try_catch.
  rewrite got_body_exchange. fold last_reply.
  destruct last_reply as [status b|why].
  - destruct (is_2xx status) eqn:Hok.
    + cbn. split; [by intros b' [= -> <-]|]. split; [by intros ? ? [= <- <-]|].
      intros e. split; [done|].
      intros [(? & ? & [= <- <-] & Hno & _)|(? & ? & _)]; [|done].
      by rewrite Hok in Hno.
    + cbn [response_statusCode].
      destruct (Z.eqb_spec status 404) as [->|Hne]; cbn.
      * split; [done|]. split; [by intros ? ? [= <- <-] ?|].
        intros e. split; [done|].
        intros [(? & ? & [= <- <-] & _ & Hne & _)|(? & ? & _)]; done.
      * split; [by intros ? [= ? ?]|]. split.
        { intros ? ? [= <- <-] Hyes. by rewrite Hok in Hyes. }
        intros e. split.
        -- intros [= <-]. left. eauto 6.
        -- by intros [(? & ? & [= <- <-] & _ & _ & ->)|(? & ? & _)].
  - cbn. split; [done|]. split; [done|].
    intros e. split.
    + intros [= <-]. right. eauto.
    + by intros [(? & ? & ? & _)|(? & [= <-] & ->)].
Qed.

(** X9. [indexExists] tells a missing index from a present one by the status
    alone and never rejects a response: with the response that ends the call
    (the last one, after the transport's retries of the HEAD), it answers
    true exactly on a 200 and false on every other status, a 404 as well as a
    503 that lasts through the retries. *)
Theorem indexExists_true_iff_200 prefixUrl index h status b :
  (exchange srv (indexExists_request prefixUrl index) h).1 = Reply status b →
  fst (indexExists srv prefixUrl index h) = Return (bool_decide (status = 200%Z)).
Proof.
  intros Hrep. unfold indexExists, mbind, io_mbind, io_bind.
  rewrite got_response_exchange, Hrep. cbn. f_equal.
  by destruct (Z.eqb_spec status 200); [rewrite bool_decide_eq_true_2
                                       |rewrite bool_decide_eq_false_2].
Qed.

End DocumentFacts.

(** ** The repository client *)

Section DSpaceClientFacts.
Import DSpaceClient.
Variable srv : server.
Variables DSpaceItem Metadata : Type.
Variable dspaceItemSchema : value → option DSpaceItem.
Variable metadataSchema : value → option Metadata.

Lemma parse_eq {A} (schema : value → option A) v h :
  parse schema v h
  = (match schema v with Some a => Return a | None => Throw (ZodError v) end, []).
Proof. unfold parse. by destruct (schema v). Qed.

(** A read and then the parse of its body, with the response that ends the
    read. *)
Lemma got_parse_eq {A} (schema : value → option A) r h :
  (got_body srv r ≫= parse schema) h =
  (match (exchange srv r h).1 with
   | Reply status b =>
       if is_2xx status then
         match schema b with
         | Some a => Return a
         | None => Throw (ZodError b)
         end
       else Throw (HTTPError status b)
   | Broken why => Throw (RequestError why)
   end, (exchange srv r h).2).
Proof.
  unfold mbind, io_mbind, io_bind. rewrite got_body_exchange.
  destruct (exchange srv r h).1 as [status b|why]; [|done].
  destruct (is_2xx status); [|done].
  rewrite parse_eq. destruct (schema b); by rewrite app_nil_r.
Qed.

Lemma got_parse_Some_eq {A} (schema : value → option A) r h :
  (x ← got_body srv r; a ← parse schema x; mret (Some a)) h =
  (match (exchange srv r h).1 with
   | Reply status b =>
       if is_2xx status then
         match schema b with
         | Some a => Return (Some a)
         | None => Throw (ZodError b)
         end
       else Throw (HTTPError status b)
   | Broken why => Throw (RequestError why)
   end, (exchange srv r h).2).
Proof.
  unfold mbind, io_mbind, io_bind. rewrite got_body_exchange.
  destruct (exchange srv r h).1 as [status b|why]; [|done].
  destruct (is_2xx status); [|done].
  rewrite parse_eq. destruct (schema b); io_unfold; by rewrite ?app_nil_r.
Qed.

Lemma got_list_Return {A} (schema : value → option A) r h items :
  fst ((got_body srv r ≫= parse (z_array schema)) h) = Return items
  ↔ ∃ status elements,
      (exchange srv r h).1 = Reply status (VArr elements)
      ∧ is_2xx status = true
      ∧ Forall2 (λ element item, schema element = Some item) elements items.
Proof.
  rewrite got_parse_eq. cbn [fst].
  destruct (exchange srv r h).1 as [status b|why];
    [|split; [done|by intros (? & ? & ? & _)]].
  destruct (is_2xx status) eqn:Hok.
  - destruct b as [| | | | |elements|];
      try (split; [done|by intros (? & ? & ? & _)]).
    cbn [z_array]. destruct (mapM schema elements) as [parsed|] eqn:Hparse.
    + apply mapM_Some in Hparse. split.
      * intros [= <-]. eauto.
      * intros (? & ? & [= <- <-] & _ & Hall). apply mapM_Some in Hall.
        apply mapM_Some in Hparse. congruence.
    + split; [done|]. intros (? & ? & [= <- <-] & _ & Hall).
      apply mapM_Some in Hall. congruence.
  - split; [done|]. intros (? & ? & [= <- _] & Hyes & _). by rewrite Hok in Hyes.
Qed.

(** X10. [find] and [getItems] parse all or nothing: they return a list
    exactly when the response is a success whose body is an array every
    element of which the item schema reads, and then the list has the parsed
    elements in the order of the array.  One element the schema refuses, or a
    404, makes the call throw; there is no partial list and no empty list
    for a missing resource.  The response is the one that ends the call: for
    [find], a POST, the only one; for [getItems] the last one, after the
    transport's retries of the GET. *)
Theorem find_getItems_parse_every_element h items :
  (∀ endpoint key value,
     fst (find srv DSpaceItem dspaceItemSchema endpoint key value h) = Return items
     ↔ ∃ status elements,
         srv h (find_request endpoint key value) = Reply status (VArr elements)
         ∧ is_2xx status = true
         ∧ Forall2 (λ element item, dspaceItemSchema element = Some item) elements items)
  ∧ (∀ endpoint searchParams,
       fst (getItems srv DSpaceItem dspaceItemSchema endpoint searchParams h) = Return items
       ↔ ∃ status elements,
           (exchange srv (getItems_request endpoint
                            (default no_search_params searchParams)) h).1
           = Reply status (VArr elements)
           ∧ is_2xx status = true
           ∧ Forall2 (λ element item, dspaceItemSchema element = Some item) elements items).
Proof.
  split.
  - intros endpoint key value. unfold find. rewrite got_list_Return.
    by rewrite exchange_POST.
  - intros endpoint searchParams. apply got_list_Return.
Qed.

Lemma catch_not_found_eq {A} (c : io (option A)) h :
  try_catch c (λ error, if is_not_found error then mret None else throw error) h
  = (match fst (c h) with
     | Throw e => if is_not_found e then Return None else Throw e
     | o => o
     end, snd (c h)).
Proof.
  unfold try_catch.
  destruct (c h) as [[a|e|e|] evs]; cbn; [done| |done..].
  destruct (is_not_found e); io_unfold; by rewrite app_nil_r.
Qed.

(** The result of [getItem] and of [getMetadata], for the schema each of
    them parses with. *)
Lemma read_or_undefined_eq {A} (schema : value → option A) r h :
  fst (try_catch (x ← got_body srv r; a ← parse schema x; mret (Some a))
         (λ error, if is_not_found error then mret None else throw error) h)
  = match (exchange srv r h).1 with
    | Reply status b =>
        if is_2xx status then
          match schema b with
          | Some a => Return (Some a)
          | None => Throw (ZodError b)
          end
        else if (status =? 404)%Z then Return None
        else Throw (HTTPError status b)
    | Broken why => Throw (RequestError why)
    end.
Proof.
  rewrite catch_not_found_eq, got_parse_Some_eq. cbn [fst].
  destruct (exchange srv r h).1 as [status b|why]; [|done].
  destruct (is_2xx status); [by destruct (schema b)|done].
Qed.

Lemma read_or_undefined_None {A} (schema : value → option A) r h :
  fst (try_catch (x ← got_body srv r; a ← parse schema x; mret (Some a))
         (λ error, if is_not_found error then mret None else throw error) h)
  = Return None
  ↔ ∃ b, (exchange srv r h).1 = Reply 404 b.
Proof.
  rewrite read_or_undefined_eq.
  destruct (exchange srv r h).1 as [status b|why]; [|split; [done|by intros (? & ?)]].
  destruct (is_2xx status) eqn:Hok.
  - destruct (schema b); (split; [done|]; intros (? & [= -> _]); done).
  - destruct (Z.eqb_spec status 404) as [->|Hne].
    + split; eauto.
    + split; [done|]. by intros (? & [= ? _]).
Qed.

(** X11. [getItem] and [getMetadata] answer [undefined] for a missing item
    and for nothing else: the result is [undefined] exactly when the response
    that ends the call (the last one, after the transport's retries of the
    GET) has status 404.  A body the schema refuses is a thrown error, also
    inside the [try]. *)
Theorem getItem_getMetadata_undefined_iff_404 endpoint uuid h :
  (fst (getItem srv DSpaceItem dspaceItemSchema endpoint uuid h) = Return None
   ↔ ∃ b, (exchange srv (getItem_request endpoint uuid) h).1 = Reply 404 b)
  ∧ (fst (getMetadata srv Metadata metadataSchema endpoint uuid h) = Return None
     ↔ ∃ b, (exchange srv (getMetadata_request endpoint uuid) h).1 = Reply 404 b).
Proof.
  split.
  - apply read_or_undefined_None.
  - apply read_or_undefined_None.
Qed.

(** X12. What the [try] of [getItem] lets through, with the response that
    ends the call (the last one, after the transport's retries of the GET):
    every failure other than a 404 reaches the caller as it was raised, the
    HTTP error of another status, the failed request, and the schema's error
    on the body of a success. *)
Theorem getItem_rethrows endpoint uuid h e :
  let last_reply := (exchange srv (getItem_request endpoint uuid) h).1 in
  fst (getItem srv DSpaceItem dspaceItemSchema endpoint uuid h) = Throw e
  ↔ (∃ status b, last_reply = Reply status b
                 ∧ ((is_2xx status = false ∧ status ≠ 404%Z ∧ e = HTTPError status b)
                    ∨ (is_2xx status = true ∧ dspaceItemSchema b = None
                       ∧ e = ZodError b)))
    ∨ (∃ why, last_reply = Broken why ∧ e = RequestError why).
Proof.
  intros last_reply. unfold getItem. rewrite read_or_undefined_eq. fold last_reply.
  destruct last_reply as [status b|why].
  - destruct (is_2xx status) eqn:Hok.
    + destruct (dspaceItemSchema b) eqn:Hparse.
      * split; [done|].
        intros [(? & ? & [= <- <-] & [(? & _)|(_ & ? & _)])|(? & ? & _)]; congruence.
      * split.
        -- intros [= <-]. left. exists status, b. eauto.
        -- intros [(? & ? & [= <- <-] & [(? & _)|(_ & _ & ->)])|(? & ? & _)];
             congruence.
    + destruct (Z.eqb_spec status 404) as [->|Hne].
      * split; [done|].
        intros [(? & ? & [= <- <-] & [(_ & ? & _)|(? & _)])|(? & ? & _)]; congruence.
      * split.
        -- intros [= <-]. left. exists status, b. eauto 6.
        -- intros [(? & ? & [= <- <-] & [(_ & _ & ->)|(? & _)])|(? & ? & _)];
             congruence.
  - split.
    + intros [= <-]. right. eauto.
    + intros [(? & ? & ? & _)|(? & [= <-] & ->)]; congruence.
Qed.

End DSpaceClientFacts.

(** ** The graph-query proxy *)

Section SparqlHandlerFacts.
Import SparqlHandler.
Variable store : graph_store.
Variable getStringFromEnv : string → outcome string.

(** The lookup of the endpoint, as the [try] around it leaves it. *)
Lemma sparql_env_eq h :
  try_catch (sparqlUrl ← lift (getStringFromEnv "SPARQL_URL"); mret (Some sparqlUrl))
    (λ _, mret None) h
  = (match getStringFromEnv "SPARQL_URL" with
     | Return sparqlUrl => Return (Some sparqlUrl)
     | Throw _ => Return None
     | Uncaught e => Uncaught e
     | OutOfFuel => OutOfFuel
     end, []).
Proof.
  unfold try_catch. io_unfold. by destruct (getStringFromEnv "SPARQL_URL").
Qed.

(** The answer to a response of the graph store. *)
Definition relay (response : text_response) : APIGatewayProxyResult :=
  match response_headers response !! "content-type" with
  | None => badGatewayResponse
  | Some contentType =>
      if falsy (Some contentType) then badGatewayResponse
      else if (response_statusCode response =? 400)%Z
      then badRequestResponse (response_body response) (Some contentType)
      else if negb (response_statusCode response =? 200)%Z
      then internalServerErrorResponse
      else okResponse contentType (response_body response)
  end.

Lemma handler_forwarded_eq event h sparqlUrl query :
  getStringFromEnv "SPARQL_URL" = Return sparqlUrl →
  event_body event = Some query →
  query ≠ "" →
  handler store getStringFromEnv event h
  = (match store h (sparql_request sparqlUrl query) with
     | inl response => Return (relay response)
     | inr why => Throw (RequestError why)
     end, [Sent (sparql_request sparqlUrl query)]).
Proof.
  intros Henv Hbody Hquery.
  unfold handler, mbind, io_mbind. unfold io_bind at 1.
  rewrite sparql_env_eq, Henv, Hbody.
  unfold falsy at 1. destruct (String.eqb_spec query "") as [|_]; [done|].
  unfold io_bind, got_post. rewrite app_nil_r.
  destruct (store _ _) as [response|why]; [|done].
  unfold relay.
  destruct (response_headers response !! "content-type") as [contentType|];
    [|io_unfold; by rewrite app_nil_r].
  destruct (falsy (Some contentType)); [io_unfold; by rewrite app_nil_r|].
  destruct (response_statusCode response =? 400)%Z; [io_unfold; by rewrite app_nil_r|].
  destruct (negb (response_statusCode response =? 200)%Z);
    io_unfold; by rewrite app_nil_r.
Qed.

Lemma handler_not_forwarded_eq event h :
  (∀ sparqlUrl, getStringFromEnv "SPARQL_URL" ≠ Return sparqlUrl)
  ∨ falsy (event_body event) = true →
  snd (handler store getStringFromEnv event h) = [].
Proof.
  intros Hnot.
  unfold handler, mbind, io_mbind. unfold io_bind at 1.
  rewrite sparql_env_eq.
  destruct (getStringFromEnv "SPARQL_URL") as [sparqlUrl|e|e|] eqn:Henv; try done.
  destruct Hnot as [Hnot|Hnot]; [by destruct (Hnot sparqlUrl)|].
  destruct (event_body event) as [query|]; [|done].
  by rewrite Hnot.
Qed.

Lemma relay_cases response :
  relay response = badGatewayResponse
  ∨ relay response = internalServerErrorResponse
  ∨ ∃ contentType,
      response_headers response !! "content-type" = Some contentType
      ∧ contentType ≠ ""
      ∧ ((response_statusCode response = 400%Z
          ∧ relay response = badRequestResponse (response_body response) (Some contentType))
         ∨ (response_statusCode response = 200%Z
            ∧ relay response = okResponse contentType (response_body response))).
Proof.
  unfold relay.
  destruct (response_headers response !! "content-type") as [contentType|];
    [|by left].
  unfold falsy. destruct (String.eqb_spec contentType "") as [|Hct]; [by left|].
  destruct (Z.eqb_spec (response_statusCode response) 400) as [H400|_].
  { right. right. exists contentType. eauto. }
  destruct (Z.eqb_spec (response_statusCode response) 200) as [H200|_]; cbn [negb].
  { right. right. exists contentType. eauto 6. }
  right. by left.
Qed.

(** X13. The proxy answers with one of four statuses, and every answer
    allows any origin and names a content type: a run of the handler either
    returns a response whose status is 200, 400, 500 or 502 and whose headers
    are [Access-Control-Allow-Origin: *] and a [Content-Type], or it rejects
    with the error of a request that got no response.  (The environment
    lookup is taken to return or throw.) *)
Theorem sparql_handler_responses event h :
  (∃ sparqlUrl, getStringFromEnv "SPARQL_URL" = Return sparqlUrl)
  ∨ (∃ e, getStringFromEnv "SPARQL_URL" = Throw e) →
  (∃ res contentType,
     fst (handler store getStringFromEnv event h) = Return res
     ∧ statusCode res ∈ [200%Z; 400%Z; 500%Z; 502%Z]
     ∧ headers res = [("Access-Control-Allow-Origin", "*");
                      ("Content-Type", contentType)])
  ∨ (∃ why, fst (handler store getStringFromEnv event h) = Throw (RequestError why)).
Proof.
  intros Henv.
  destruct (decide (falsy (event_body event) = true)) as [Hfalsy|Hquery].
  - left.
    unfold handler, mbind, io_mbind. unfold io_bind at 1.
    rewrite sparql_env_eq.
    destruct Henv as [[sparqlUrl ->]|[e ->]].
    + destruct (event_body event) as [query|];
        [rewrite Hfalsy|]; cbn; eexists _, _; (split; [done|]);
        (split; [|done]); set_solver.
    + cbn. eexists _, _. split; [done|]. split; [|done]. set_solver.
  - destruct Henv as [[sparqlUrl Hurl]|[e He]].
    + destruct (event_body event) as [query|] eqn:Hbody; [|done].
      assert (query ≠ "") as Hne.
      { intros ->. by apply Hquery. }
      rewrite (handler_forwarded_eq event h sparqlUrl query Hurl Hbody Hne).
      destruct (store _ _) as [response|why]; [left|right; by eexists].
      cbn [fst].
      destruct (relay_cases response)
        as [->|[->|(ct & _ & _ & [[_ ->]|[_ ->]])]];
        eexists _, _; (split; [done|]); (split; [|done]); set_solver.
    + left.
      unfold handler, mbind, io_mbind. unfold io_bind at 1.
      rewrite sparql_env_eq, He. cbn. eexists _, _. split; [done|].
      split; [|done]. set_solver.
Qed.

(** X14. The proxy queries the graph store only with an endpoint and a
    query in hand: without the SPARQL_URL variable, or with a request body
    that is missing or empty, nothing is sent; otherwise exactly one request
    is sent, a POST to the endpoint whose form carries the body as it
    came. *)
Theorem sparql_handler_requests event h :
  snd (handler store getStringFromEnv event h)
  = match getStringFromEnv "SPARQL_URL", event_body event with
    | Return sparqlUrl, Some query =>
        if decide (query = "") then []
        else [Sent (Request POST sparqlUrl "" [] (FormBody query))]
    | _, _ => []
    end.
Proof.
  destruct (getStringFromEnv "SPARQL_URL") as [sparqlUrl|e|e|] eqn:Henv;
    try (apply handler_not_forwarded_eq; left; intros ?; congruence).
  destruct (event_body event) as [query|] eqn:Hbody;
    [|apply handler_not_forwarded_eq; right; by rewrite Hbody].
  destruct (decide (query = "")) as [->|Hne].
  - apply handler_not_forwarded_eq. right. by rewrite Hbody.
  - by rewrite (handler_forwarded_eq event h sparqlUrl query Henv Hbody Hne).
Qed.

(** X15. What of the graph store's response reaches the caller.  The
    response's text and content type are passed on only when the response
    names a content type and has status 200 or 400, and then with that same
    status; a response without a content type is answered 502 even when its
    status is 200; every other status is answered with the fixed 500
    response.  The text of a response with another status never reaches the
    caller. *)
Theorem sparql_handler_relays event h sparqlUrl query response :
  getStringFromEnv "SPARQL_URL" = Return sparqlUrl →
  event_body event = Some query →
  query ≠ "" →
  store h (Request POST sparqlUrl "" [] (FormBody query)) = inl response →
  ∃ res,
    fst (handler store getStringFromEnv event h) = Return res
    ∧ (falsy (response_headers response !! "content-type") = true →
       res = badGatewayResponse)
    ∧ (∀ contentType,
         response_headers response !! "content-type" = Some contentType →
         contentType ≠ "" →
         (response_statusCode response = 200%Z ∨ response_statusCode response = 400%Z →
          res = {| statusCode := response_statusCode response;
                   headers := [("Access-Control-Allow-Origin", "*");
                               ("Content-Type", contentType)];
                   body := response_body response |})
         ∧ (response_statusCode response ≠ 200%Z →
            response_statusCode response ≠ 400%Z →
            res = internalServerErrorResponse)).
Proof.
  intros Henv Hbody Hne Hrep.
  rewrite (handler_forwarded_eq event h sparqlUrl query Henv Hbody Hne).
  unfold sparql_request. rewrite Hrep. cbn [fst].
  exists (relay response). split; [done|]. unfold relay. split.
  - destruct (response_headers response !! "content-type") as [ct|]; [|done].
    intros Hfalsy. by rewrite Hfalsy.
  - intros contentType -> Hct. unfold falsy.
    destruct (String.eqb_spec contentType "") as [|_]; [done|].
    destruct (Z.eqb_spec (response_statusCode response) 400) as [H400|Hno400].
    + split; [|done]. intros _. by rewrite H400.
    + destruct (Z.eqb_spec (response_statusCode response) 200) as [H200|Hno200];
        cbn [negb].
      * split; [|done]. intros _. by rewrite H200.
      * split; [|done]. by intros [|].
Qed.

End SparqlHandlerFacts.

(** ** The keyword search, beyond the expansion *)

(** The calls of the Lambda callback in a run, in order. *)
Definition callbacks (evs : list event) : list (option error * response) :=
  omap (λ e, match e with Callback err res => Some (err, res) | _ => None end) evs.

Lemma callbacks_app evs1 evs2 : callbacks (evs1 ++ evs2) = callbacks evs1 ++ callbacks evs2.
Proof. apply omap_app. Qed.

Lemma callbacks_sent (rs : list request) : callbacks (Sent <$> rs) = [].
Proof. induction rs as [|r rs IH]; [done|]. exact IH. Qed.

Lemma split_not_nil sep s : split sep s ≠ [].
Proof.
  destruct s as [|c s]; [done|]. simpl.
  destruct (Ascii.eqb c sep); [done|]. by destruct (split sep s).
Qed.

Lemma join_cons_char sep c w ws :
  join sep (String c w :: ws) = String c (join sep (w :: ws)).
Proof. by destruct ws. Qed.

(** Joining the pieces of a split with the separator gives the string
    back. *)
Lemma join_split sep s : join (String sep EmptyString) (split sep s) = s.
Proof.
  induction s as [|c s IH]; [done|]. cbn [split].
  destruct (Ascii.eqb_spec c sep) as [->|Hne].
  - pose proof (split_not_nil sep s) as Hnil.
    destruct (split sep s) as [|w ws]; [done|].
    change (join (String sep EmptyString) (EmptyString :: w :: ws))
      with (String sep (join (String sep EmptyString) (w :: ws))).
    by rewrite IH.
  - pose proof (split_not_nil sep s) as Hnil.
    destruct (split sep s) as [|w ws]; [done|].
    by rewrite join_cons_char, IH.
Qed.

(** No piece of a split holds the separator. *)
Lemma split_no_separator sep s :
  Forall (λ w, ¬ In sep (list_ascii_of_string w)) (split sep s).
Proof.
  induction s as [|c s IH]; cbn [split].
  - constructor; [|done]. by intros [].
  - destruct (Ascii.eqb_spec c sep) as [->|Hne].
    + constructor; [|done]. by intros [].
    + destruct (split sep s) as [|w ws].
      * constructor; [|done]. by intros [|[]].
      * inversion IH as [|? ? Hw Hws]; subst.
        constructor; [|done]. intros [|]; [done|]. by apply Hw.
Qed.

Section SearchHandlerPaths.
Import SearchHandler.
Variable srv : server.
Variable getStringFromEnv : string → outcome string.
Variable defaultSearchFields : list string.
Variable ontOpts : ontology_options.
Variable buildSearchDocument_of_values : SearchOptions → list value → outcome value.

(** The two ways a run of the handler can look. *)
Definition called_back (run : outcome unit * list event) : Prop :=
  ∃ err res,
    fst run = Return tt
    ∧ callbacks (snd run) = [(err, res)]
    ∧ last (snd run) = Some (Callback err res)
    ∧ headers res = responseHeaders
    ∧ ((err = None ∧ statusCode res = 200%Z)
       ∨ (∃ e, err = Some e ∧ res = Response 500 (JSON_stringify_err e) responseHeaders)).

Definition not_called_back (run : outcome unit * list event) : Prop :=
  callbacks (snd run) = [] ∧ fst run ≠ Return tt.

(** A search request and what follows its reply. *)
Lemma respond_calls_back (search : request) (rep : reply) (rs : list request) :
  let run := match rep with
             | Reply status b =>
                 if is_2xx status
                 then (Return tt,
                       (Sent <$> rs)
                       ++ [Sent search;
                           Callback None
                             (Response 200 (JSON_stringify b) responseHeaders)])
                 else (Uncaught (HTTPError status b), (Sent <$> rs) ++ [Sent search])
             | Broken why => (Uncaught (RequestError why), (Sent <$> rs) ++ [Sent search])
             end in
  called_back run ∨ not_called_back run.
Proof.
  destruct rep as [status b|why]; [destruct (is_2xx status)|]; cbv zeta.
  - left. eexists None, _. cbn [fst snd]. split; [done|].
    rewrite callbacks_app, callbacks_sent, last_app. cbn.
    split; [done|]. split; [done|]. split; [done|]. by left.
  - right. split; [|done]. cbn [snd]. by rewrite callbacks_app, callbacks_sent.
  - right. split; [|done]. cbn [snd]. by rewrite callbacks_app, callbacks_sent.
Qed.

Lemma search_and_respond_calls_back openSearchEndpoint documentsIndexName opts h
    (rs : list request) :
  let '(o, evs) := search_and_respond srv openSearchEndpoint documentsIndexName opts h in
  called_back (o, (Sent <$> rs) ++ evs) ∨ not_called_back (o, (Sent <$> rs) ++ evs).
Proof.
  rewrite search_and_respond_eq.
  pose proof (respond_calls_back
                (search_request openSearchEndpoint documentsIndexName opts)
                (srv h (search_request openSearchEndpoint documentsIndexName opts)) rs)
    as Hrun.
  cbv zeta in Hrun.
  destruct (srv h _) as [status b|why]; [destruct (is_2xx status)|]; exact Hrun.
Qed.

(** The search after the expansion: it calls back, or ends without a call,
    or throws what the builder threw before any request. *)
Lemma search_expanded_calls_back openSearchEndpoint documentsIndexName opts keywords h
    (rs : list request) :
  let '(o, evs) := search_expanded_and_respond srv buildSearchDocument_of_values
                     openSearchEndpoint documentsIndexName opts keywords h in
  (∃ e, o = Throw e ∧ evs = [])
  ∨ ((∀ e, o ≠ Throw e)
     ∧ (called_back (o, (Sent <$> rs) ++ evs)
        ∨ not_called_back (o, (Sent <$> rs) ++ evs))).
Proof.
  unfold search_expanded_and_respond.
  destruct (mapM z_string keywords) as [keywords'|].
  - pose proof (search_and_respond_calls_back openSearchEndpoint documentsIndexName
                  (with_keywords opts keywords') h rs) as Hrun.
    pose proof (search_and_respond_eq srv openSearchEndpoint documentsIndexName
                  (with_keywords opts keywords') h) as Heq.
    cbv zeta in Heq.
    destruct (search_and_respond _ _ _ _ _) as [o evs].
    right. split; [|done].
    intros e ->. destruct (srv h _) as [status b|why]; [destruct (is_2xx status)|];
      done.
  - unfold lift, mbind, io_mbind, io_bind.
    destruct (buildSearchDocument_of_values opts keywords) as [searchBody|e|e|].
    + unfold floating, callback. rewrite got_body_eq by done. rewrite app_nil_r.
      pose proof (respond_calls_back
                    (Request POST openSearchEndpoint
                       (documentsIndexName +:+ "/_search") [] (JsonBody searchBody))
                    (srv h (Request POST openSearchEndpoint
                              (documentsIndexName +:+ "/_search") []
                              (JsonBody searchBody))) rs) as Hrun.
      cbv zeta in Hrun.
      destruct (srv h _) as [status b|why]; [destruct (is_2xx status)|];
        cbn; right; (split; [done|]); exact Hrun.
    + left. eauto.
    + right. split; [done|]. right. split; [|done]. cbn [snd].
      by rewrite app_nil_r, callbacks_sent.
    + right. split; [done|]. right. split; [|done]. cbn [snd].
      by rewrite app_nil_r, callbacks_sent.
Qed.


(** X17. The search without expansion.  The synonyms flag is read by
    truthiness, so it is off exactly when the parameter is missing or empty
    (the text false turns it on).  With the flag off the handler sends one
    request, the search for the parsed parameters with the keywords as
    given, and none to the graph store; a success is called back with
    status 200 and the store's body, and a failure of the search is an error
    nothing catches: no callback is made. *)
Theorem handler_plain_search event h documentsIndexName openSearchEndpoint params :
  getStringFromEnv "DOCUMENTS_INDEX_NAME" = Return documentsIndexName →
  getStringFromEnv "OPEN_SEARCH_ENDPOINT" = Return openSearchEndpoint →
  queryStringParameters event = Some params →
  is_Some (params !! "keywords") →
  let opts := parseParams defaultSearchFields params in
  let search := search_request openSearchEndpoint documentsIndexName opts in
  (truthy (synonyms opts) = false
   ↔ params !! "synonyms" = None ∨ params !! "synonyms" = Some "")
  ∧ (truthy (synonyms opts) = false →
     handler srv getStringFromEnv defaultSearchFields ontOpts
       buildSearchDocument_of_values event h =
     match srv h search with
     | Reply status b =>
         if is_2xx status
         then (Return tt,
               [Sent search;
                Callback None (Response 200 (JSON_stringify b) responseHeaders)])
         else (Uncaught (HTTPError status b), [Sent search])
     | Broken why => (Uncaught (RequestError why), [Sent search])
     end).
Proof.
  intros Hindex Hendpoint Hparams [k Hk] opts search. split.
  - unfold opts, parseParams. cbn [synonyms].
    destruct (params !! "synonyms") as [s|]; cbn.
    + destruct (String.eqb_spec s "") as [->|Hne]; cbn.
      * split; eauto.
      * split; [done|]. intros [|[= ?]]; done.
    + split; eauto.
  - intros Hoff.
    rewrite (handler_search_eq srv getStringFromEnv defaultSearchFields ontOpts
               buildSearchDocument_of_values event h documentsIndexName
               openSearchEndpoint params k Hindex Hendpoint Hparams Hk).
    fold opts. rewrite Hoff. apply search_and_respond_eq.
Qed.

(** X18. The list parameters lose nothing in parsing: joining the parsed
    keywords, terms, term URIs, sort keys or fields with commas gives the
    parameter back, and no entry parsed from a parameter holds a comma (the
    fields are the default list, a constant that is not among the sources,
    when the parameter is missing).  A parameter that is present never parses
    to the empty list, except for keywords: empty keywords give no keyword,
    while an empty term gives the one term that is the empty string. *)
Theorem parseParams_lists_round_trip params :
  let opts := parseParams defaultSearchFields params in
  (∀ k, params !! "keywords" = Some k → join "," (keywords opts) = k)
  ∧ (∀ t, params !! "term" = Some t → join "," (terms opts) = t ∧ terms opts ≠ [])
  ∧ (∀ t, params !! "termURI" = Some t →
          join "," (termURIs opts) = t ∧ termURIs opts ≠ [])
  ∧ (∀ s, params !! "sort" = Some s → join "," (sort opts) = s ∧ sort opts ≠ [])
  ∧ (∀ f, params !! "fields" = Some f → join "," (fields opts) = f ∧ fields opts ≠ [])
  ∧ (keywords opts = []
     ↔ params !! "keywords" = None ∨ params !! "keywords" = Some "")
  ∧ (params !! "term" = Some "" → terms opts = [""])
  ∧ Forall (λ w, ¬ In ","%char (list_ascii_of_string w))
      (keywords opts ++ terms opts ++ termURIs opts ++ sort opts)
  ∧ (is_Some (params !! "fields") →
     Forall (λ w, ¬ In ","%char (list_ascii_of_string w)) (fields opts))
  ∧ (params !! "fields" = None → fields opts = defaultSearchFields).
Proof.
  intros opts. unfold opts, parseParams.
  cbn [keywords terms termURIs sort fields].
  split; [|split; [|split; [|split; [|split; [|split; [|split; [|split; [|split]]]]]]]].
  - intros k ->. destruct k as [|c k]; [done|]. apply join_split.
  - intros t ->. split; [apply join_split|apply split_not_nil].
  - intros t ->. split; [apply join_split|apply split_not_nil].
  - intros s ->. split; [apply join_split|apply split_not_nil].
  - intros f ->. split; [apply join_split|apply split_not_nil].
  - destruct (params !! "keywords") as [[|c k]|]; cbn [String.length Nat.ltb Nat.leb].
    + split; eauto.
    + split; [|by intros [|]].
      intros Hnil. by apply split_not_nil in Hnil.
    + split; eauto.
  - by intros ->.
  - repeat apply Forall_app_2.
    + destruct (params !! "keywords") as [k|]; [|done].
      destruct (0 <? String.length k)%nat; [apply split_no_separator|done].
    + destruct (params !! "term"); [apply split_no_separator|done].
    + destruct (params !! "termURI"); [apply split_no_separator|done].
    + destruct (params !! "sort"); [apply split_no_separator|done].
  - intros [f ->]. apply split_no_separator.
  - by intros ->.
Qed.

End SearchHandlerPaths.

(* ===================================================================== *)
(** * Further worked runs *)

(** A scan against a store that is down: the opening request is all that
    happens. *)
Lemma scrollMap_without_cursor_witness :
  ∃ e, OpenSearchClient.scrollMap failing_store accept_object 3
         (example_scan resolving) [] = (Throw e, [Sent example_open]).
Proof.
  apply (scrollMap_without_cursor failing_store accept_object 3
           (example_scan resolving) []).
  intros status b Hrep Hok. vm_compute in Hrep. injection Hrep as <- <-.
  vm_compute in Hok. discriminate.
Defined.

(** An index without documents, behind a store that fails to answer the
    first close. *)
Definition empty_index_store : server := λ h r,
  match rq_method r with
  | DELETE =>
      match closes h with
      | [] => Reply 503 unavailable
      | _ :: _ => Reply 200 scroll_freed
      end
  | _ => Reply 200 (scroll_response "c0" [])
  end.

Lemma scrollMap_empty_index_witness :
  OpenSearchClient.scrollMap empty_index_store accept_object 0
    (example_scan resolving) []
  = (Return tt,
     [Sent example_open; Sent (example_close "c0"); Sent (example_close "c0")]).
Proof.
  destruct (scrollMap_empty_index empty_index_store accept_object 0
              (example_scan resolving) [] 200 (scroll_response "c0" []) "c0"
              eq_refl eq_refl eq_refl) as (Hevents & _ & _ & _ & Hreturns).
  apply injective_projections.
  - apply Hreturns. exists 200%Z, scroll_freed. vm_compute. eauto.
  - rewrite Hevents. vm_compute. reflexivity.
Defined.

Lemma putDocumentItem_throws_only_ZodError_witness :
  ∃ input,
    ZodError VUndefined = ZodError input
    ∧ accept_object input = None
    ∧ (input = VUndefined
       ∨ ∃ status,
           failing_store []
             (OpenSearchClient.putDocumentItem_request "https://search.example"
                example_document)
           = Reply status input
           ∧ is_2xx status = true).
Proof.
  apply (putDocumentItem_throws_only_ZodError failing_store accept_object
           "https://search.example" example_document [] (ZodError VUndefined)).
  vm_compute. reflexivity.
Defined.

(** A store that is down looks like a missing index. *)
Lemma indexExists_true_iff_200_witness :
  fst (OpenSearchDocuments.indexExists failing_store "https://search.example"
         "documents" [])
  = Return (bool_decide (503%Z = 200%Z)).
Proof.
  apply (indexExists_true_iff_200 failing_store "https://search.example"
           "documents" [] 503 unavailable).
  reflexivity.
Defined.

Definition sparql_env : string → outcome string := λ name,
  if String.eqb name "SPARQL_URL" then Return "https://graph.example/sparql"
  else Throw (Error (ErrorType (VStr name))).

Definition turtle_response : SparqlHandler.text_response :=
  {| SparqlHandler.response_statusCode := 200;
     SparqlHandler.response_headers := {[ "content-type" := "text/turtle" ]};
     SparqlHandler.response_body := "<http://vocab.example/seawater> a <http://vocab.example/Term> ." |}.

(** A graph store that answers every query with the same document. *)
Definition turtle_store : SparqlHandler.graph_store := λ _ _, inl turtle_response.

(** The same store behind a gateway that strips the content type. *)
Definition untyped_store : SparqlHandler.graph_store := λ _ _,
  inl {| SparqlHandler.response_statusCode := 200;
         SparqlHandler.response_headers := ∅;
         SparqlHandler.response_body := SparqlHandler.response_body turtle_response |}.

Definition describe_event : SparqlHandler.PostSparqlEvent :=
  {| SparqlHandler.event_body := Some "DESCRIBE <http://vocab.example/seawater>" |}.

Lemma sparql_handler_responses_witness :
  (∃ res contentType,
     fst (SparqlHandler.handler untyped_store sparql_env describe_event []) = Return res
     ∧ SparqlHandler.statusCode res ∈ [200%Z; 400%Z; 500%Z; 502%Z]
     ∧ SparqlHandler.headers res = [("Access-Control-Allow-Origin", "*");
                                    ("Content-Type", contentType)])
  ∨ (∃ why, fst (SparqlHandler.handler untyped_store sparql_env describe_event [])
            = Throw (RequestError why)).
Proof.
  apply (sparql_handler_responses untyped_store sparql_env describe_event []).
  left. exists "https://graph.example/sparql". reflexivity.
Defined.

Lemma sparql_handler_relays_witness :
  fst (SparqlHandler.handler turtle_store sparql_env describe_event [])
  = Return (SparqlHandler.okResponse "text/turtle"
              (SparqlHandler.response_body turtle_response))
  ∧ fst (SparqlHandler.handler untyped_store sparql_env describe_event [])
    = Return SparqlHandler.badGatewayResponse.
Proof.
  split.
  - destruct (sparql_handler_relays turtle_store sparql_env describe_event []
                "https://graph.example/sparql"
                "DESCRIBE <http://vocab.example/seawater>" turtle_response
                eq_refl eq_refl ltac:(discriminate) eq_refl)
      as (res & -> & _ & Hrelay).
    destruct (Hrelay "text/turtle" ltac:(vm_compute; reflexivity) ltac:(discriminate))
      as [Hok _].
    rewrite Hok; [reflexivity|by left].
  - destruct (sparql_handler_relays untyped_store sparql_env describe_event []
                "https://graph.example/sparql"
                "DESCRIBE <http://vocab.example/seawater>" _
                eq_refl eq_refl ltac:(discriminate) eq_refl)
      as (res & -> & Hgateway & _).
    by rewrite Hgateway.
Defined.

Definition plain_search : list (string * string) :=
  [("keywords", "sea,tide"); ("synonyms", "")].

Lemma handler_plain_search_witness :
  SearchHandler.handler example_world example_env example_search_fields
    example_ontology refusing_builder (request_of plain_search) [] =
  (Return tt,
   [Sent (SearchHandler.search_request "https://search.example" "documents"
            (SearchHandler.parseParams example_search_fields (list_to_map plain_search)));
    Callback None
      (Response 200 (JSON_stringify search_results) SearchHandler.responseHeaders)]).
Proof.
  assert (is_Some ((list_to_map plain_search : gmap string string) !! "keywords"))
    as Hkeywords.
  { exists "sea,tide". vm_compute. reflexivity. }
  destruct (handler_plain_search example_world example_env example_search_fields
              example_ontology refusing_builder (request_of plain_search) []
              "documents" "https://search.example" (list_to_map plain_search)
              eq_refl eq_refl eq_refl Hkeywords) as [_ Hrun].
  rewrite Hrun; [reflexivity|]. vm_compute. reflexivity.
Defined.

(* ===================================================================== *)
(** * From the term indexer to the tagger *)

Section IndexedTermsAreTagged.
Import OpenSearchClient.
Variable srv : server.
Variable percolateResponseSchema : value → option (list PercolateHit).

Lemma percolateDocumentFields_eq prefixUrl termsIndexName fields options h :
  let req := percolate_request prefixUrl termsIndexName fields
               (default no_percolate_options options) in
  percolateDocumentFields srv percolateResponseSchema prefixUrl termsIndexName
    fields options h =
  (match srv h req with
   | Reply status b =>
       if is_2xx status then
         match percolateResponseSchema b with
         | Some hits =>
             Return ((λ hit, {| label := source_query_multi_match_query hit;
                                uri := source_uri hit;
                                source_terminology := source_source_terminology hit;
                                namedGraphUri := source_namedGraphUri hit |}) <$> hits)
         | None => Throw (ZodError b)
         end
       else Throw (HTTPError status b)
   | Broken why => Throw (RequestError why)
   end, [Sent req]).
Proof.
  intros req.
  unfold percolateDocumentFields, mbind, io_mbind, io_bind, try_catch.
  rewrite got_body_eq by done. fold req.
  destruct (srv h req) as [status b|why]; [|io_unfold; by rewrite app_nil_r].
  destruct (is_2xx status); [|io_unfold; by rewrite app_nil_r].
  destruct (percolateResponseSchema b); io_unfold; by rewrite app_nil_r.
Qed.

(** The fields of a stored term that the tagger reads from a hit's
    [_source]. *)
Definition read_source (source : value) : PercolateHit :=
  {| source_query_multi_match_query := get source ["query"; "multi_match"; "query"];
     source_uri := get source ["uri"];
     source_source_terminology := get source ["source_terminology"];
     source_namedGraphUri := get source ["namedGraphUri"] |}.

(** X19. What the term indexer writes is what the tagger reports.  When the
    hits of a percolate response are documents that [queryForTerm] built,
    the tagger returns for each of them the label and the URI of the term,
    the terminology title and the graph it was indexed with, in the order of
    the hits: the label comes back through the stored phrase query. *)
Theorem percolate_reports_terms_as_indexed prefixUrl termsIndexName fields options
    h status b terms terminologyTitle namedGraphUri :
  srv h (percolate_request prefixUrl termsIndexName fields
           (default no_percolate_options options)) = Reply status b →
  is_2xx status = true →
  percolateResponseSchema b
  = Some ((λ term, read_source
                     (TermsIndexer.queryForTerm term terminologyTitle namedGraphUri))
          <$> terms) →
  fst (percolateDocumentFields srv percolateResponseSchema prefixUrl termsIndexName
         fields options h)
  = Return ((λ term, {| label := VStr (TermsIndexer.label term);
                        uri := VStr (TermsIndexer.uri term);
                        source_terminology := VStr terminologyTitle;
                        namedGraphUri := VStr namedGraphUri |}) <$> terms).
Proof.
  intros Hrep Hok Hparse.
  rewrite percolateDocumentFields_eq, Hrep, Hok, Hparse. cbn [fst].
  f_equal. rewrite <- list_fmap_compose. by apply list_fmap_ext.
Qed.

(** X20. The catch of the tagger only logs: a failed request reaches the
    caller as it was raised, and the one other error is the schema's, on the
    body of a success.  Nothing is swallowed and nothing is turned into an
    empty list of tags. *)
Theorem percolateDocumentFields_rethrows prefixUrl termsIndexName fields options h e :
  let req := percolate_request prefixUrl termsIndexName fields
               (default no_percolate_options options) in
  fst (percolateDocumentFields srv percolateResponseSchema prefixUrl termsIndexName
         fields options h) = Throw e
  ↔ (∃ status b, srv h req = Reply status b
                 ∧ ((is_2xx status = false ∧ e = HTTPError status b)
                    ∨ (is_2xx status = true ∧ percolateResponseSchema b = None
                       ∧ e = ZodError b)))
    ∨ (∃ why, srv h req = Broken why ∧ e = RequestError why).
Proof.
  intros req. rewrite percolateDocumentFields_eq. fold req. cbn [fst].
  destruct (srv h req) as [status b|why].
  - destruct (is_2xx status) eqn:Hok.
    + destruct (percolateResponseSchema b) eqn:Hparse.
      * split; [done|].
        intros [(? & ? & [= <- <-] & [(? & _)|(_ & ? & _)])|(? & ? & _)]; congruence.
      * split.
        -- intros [= <-]. left. exists status, b. eauto.
        -- intros [(? & ? & [= <- <-] & [(? & _)|(_ & _ & ->)])|(? & ? & _)];
             congruence.
    + split.
      * intros [= <-]. left. exists status, b. eauto.
      * intros [(? & ? & [= <- <-] & [(_ & ->)|(? & _)])|(? & ? & _)]; congruence.
  - split.
    + intros [= <-]. right. eauto.
    + intros [(? & ? & ? & _)|(? & [= <-] & ->)]; congruence.
Qed.

End IndexedTermsAreTagged.

Lemma percolate_reports_terms_as_indexed_witness :
  fst (OpenSearchClient.percolateDocumentFields tagging_store percolate_schema
         "https://search.example" "terms" example_fields None [])
  = Return ((λ term, {| OpenSearchClient.label := VStr (TermsIndexer.label term);
                        OpenSearchClient.uri := VStr (TermsIndexer.uri term);
                        OpenSearchClient.source_terminology := VStr "Example Vocabulary";
                        OpenSearchClient.namedGraphUri := VStr "http://vocab.example/graph" |})
            <$> [seawater;
                 {| TermsIndexer.label := "salinity";
                    TermsIndexer.uri := "http://vocab.example/salinity" |}]).
Proof.
  apply (percolate_reports_terms_as_indexed tagging_store percolate_schema
           "https://search.example" "terms" example_fields None []
           200 percolate_response).
  - reflexivity.
  - reflexivity.
  - vm_compute. reflexivity.
Defined.
